(** * Verification of the robot logger device and the variables handler

    A shallow embedding of [YarpRobotLoggerDevice] (telemetry configuration,
    the periodic workers, the acquisition tick [run], the save callback) and
    of [System::VariablesHandler], followed by the properties proved about
    them.

    Conventions of the embedding:
    - [std::string] is [string]; [std::unordered_set<std::string>] is
      [gset string]; [std::unordered_map<std::string, T>] is [gmap string T],
      or an association list where the loops over it are modelled;
    - [double] is the kernel's binary64 [float];
    - a [std::chrono::nanoseconds] value is its count, in [Z];
    - calls to collaborators (network, sensor bridge, buffer manager,
      real-time server, file system) are recorded as events, and the answers
      of the collaborators are inputs of the model. *)

From Stdlib Require Import ZArith QArith Qround Floats String Ascii List Lia.
From stdpp Require Import gmap strings list.

Set Warnings "-inexact-float,-clear-no-such-hyp".
Local Open Scope Z_scope.

(* ===================================================================== *)
(** * Part I: the embedding                                               *)
(* ===================================================================== *)

(** ** System::VariablesHandler *)

Module IndexRange.
(** [iDynTree::IndexRange]: the two fields [addVariable] assigns; both are
    [std::ptrdiff_t]. *)
Record t : Type := mk { offset : Z; size : Z }.

(** The conversion of a [std::size_t] to [std::ptrdiff_t]: the value modulo
    [2^64] that lies in [[-2^63, 2^63)]. *)
Definition of_size_t (z : Z) : Z := (z + 2 ^ 63) mod 2 ^ 64 - 2 ^ 63.
End IndexRange.

Module VariablesHandler.

(** [std::size_t] arithmetic is modulo [2^64]. *)
Definition size_t_modulus : Z := 2 ^ 64.

(** The values a [std::ptrdiff_t] holds are below [2^63]. *)
Definition ptrdiff_t_bound : Z := 2 ^ 63.

Record t : Type := mk {
  m_variables : gmap string IndexRange.t;
  m_numberOfVariables : Z
}.

(** A default-constructed handler. *)
Definition empty : t := {| m_variables := ∅; m_numberOfVariables := 0 |}.

(** [bool VariablesHandler::addVariable(name, size)]: the returned flag and
    the handler after the call. *)
Definition addVariable (name : string) (size : Z) (h : t) : bool * t :=
  match m_variables h !! name with
  | Some _ =>
      (* if the variable already exist cannot be added again. *)
      (false, h)
  | None =>
      let indexRange :=
        {| IndexRange.offset := IndexRange.of_size_t (m_numberOfVariables h);
           IndexRange.size := IndexRange.of_size_t size |} in
      (true,
       {| m_variables := <[name := indexRange]> (m_variables h);
          m_numberOfVariables := (m_numberOfVariables h + size) mod size_t_modulus |})
  end.

Definition getNumberOfVariables (h : t) : Z := m_numberOfVariables h.

(** [VariablesHandler::getVariable]; [invalid] is what
    [iDynTree::IndexRange::InvalidRange()] returns. *)
Definition getVariable (invalid : IndexRange.t) (name : string) (h : t) : IndexRange.t :=
  match m_variables h !! name with
  | Some variable => variable
  | None => invalid
  end.

(** Several calls of [addVariable] in a row, the results not looked at. *)
Fixpoint addVariables (variables : list (string * Z)) (h : t) : t :=
  match variables with
  | [] => h
  | (name, size) :: rest => addVariables rest (addVariable name size h).2
  end.

(** The ranges of a handler are laid out one after the other: each lies
    below the number of variables, and two of them do not overlap. *)
Definition allocated (h : t) : Prop :=
  0 ≤ m_numberOfVariables h < size_t_modulus
  ∧ (∀ name r, m_variables h !! name = Some r →
       0 ≤ IndexRange.offset r ∧ 0 ≤ IndexRange.size r
       ∧ IndexRange.offset r + IndexRange.size r ≤ m_numberOfVariables h)
  ∧ (∀ name1 name2 r1 r2,
       name1 ≠ name2 →
       m_variables h !! name1 = Some r1 → m_variables h !! name2 = Some r2 →
       IndexRange.offset r1 + IndexRange.size r1 ≤ IndexRange.offset r2
       ∨ IndexRange.offset r2 + IndexRange.size r2 ≤ IndexRange.offset r1).

End VariablesHandler.

(** ** Telemetry configuration: the size of the buffer *)

Module Telemetry.







(** The exact rational value of a finite double. *)
Definition SFvalue (x : spec_float) : option Q :=
  match x with
  | S754_zero _ => Some 0%Q
  | S754_finite s m e =>
      let v := if s then Z.neg m else Z.pos m in
      Some (if 0 <=? e then inject_Z (v * 2 ^ e) else Qmake v (Z.to_pos (2 ^ (- e))))
  | S754_infinity _ | S754_nan => None
  end.

Definition value (x : float) : option Q := SFvalue (Prim2SF x).


End Telemetry.

(** ** The wake-up time of the periodic workers *)

Module Worker.

(** [d.count() < 1e-12] for a nanosecond duration [d]: the count is an
    integer; its conversion to [double] is monotone and sends an integer
    in the range of [int64_t] to 0, to at least 1 or to at most -1 according
    to its sign, so the comparison with [1e-12] is the comparison of the
    exact values. *)
Definition count_below_epsilon (count : Z) : bool :=
  match (inject_Z count ?= 1 # 1000000000000)%Q with
  | Lt => true
  | _ => false
  end.

(** The three local variables every worker keeps. *)
Record timing : Type := mk_timing {
  time : Z;
  oldTime : Z;
  wakeUpTime : Z
}.

(** Before the loop: [time = oldTime = wakeUpTime = clock().now()]. *)
Definition start (now : Z) : timing :=
  {| time := now; oldTime := now; wakeUpTime := now |}.

(** The head of one cycle, the same text in the three workers:
<<
      oldTime = time;
      time = BipedalLocomotion::clock().now();
      if ((time - oldTime).count() < 1e-12) { wakeUpTime = time; }
      wakeUpTime += period;
>>
    [now] is what the clock returns in this cycle. *)
Definition rearm (period : Z) (now : Z) (t : timing) : timing :=
  let oldTime' := time t in
  let time' := now in
  let wakeUpTime' :=
    if count_below_epsilon (time' - oldTime') then time' else wakeUpTime t in
  {| time := time'; oldTime := oldTime'; wakeUpTime := wakeUpTime' + period |}.

(** Whether the cycle took the branch that reseeds the wake-up time. *)
Definition reset_declared (now : Z) (t : timing) : bool :=
  count_below_epsilon (now - time t).

(** [lookForExogenousSignalPeriod = 1s]. *)
Definition lookForExogenousSignalPeriod : Z := 1000000000.
(** [lookForNewLogsPeriod = 2s]. *)
Definition lookForNewLogsPeriod : Z := 2000000000.

Definition lookForExogenousSignals_rearm := rearm lookForExogenousSignalPeriod.
Definition lookForNewLogs_rearm := rearm lookForNewLogsPeriod.
(** [recordVideoPeriod] is computed from the frame rate of the camera; it
    is a parameter here. *)
Definition recordVideo_rearm (recordVideoPeriod : Z) := rearm recordVideoPeriod.

(** A worker over several cycles: the readings of the clock, oldest
    first. *)
Definition cycles (period : Z) (readings : list Z) (t : timing) : timing :=
  fold_left (fun t now => rearm period now t) readings t.

(** Readings that go forward, each greater than the one before. *)
Fixpoint advancing (previous : Z) (readings : list Z) : Prop :=
  match readings with
  | [] => True
  | now :: later => previous < now ∧ advancing now later
  end.

End Worker.

(** ** Discovery of the text-logging ports *)

Module LogDiscovery.

(** One entry of the list [getPortsList] fills, with what the network
    answers for it when it is visited: [Network::exists(port.name)] and the
    result of [Network::connect(port.name, m_textLoggingPortName, "udp")]
    (which the code does not look at). *)
Record port : Type := mk_port {
  name : string;
  network_exists : bool;
  network_connect : bool
}.

Record state : Type := mk_state {
  m_textLoggingPortNames : gset string;
  m_textLoggingSubnames : list string
}.

(** The calls to [Network::connect], with their results. *)
Inductive event : Type :=
| Connect (name : string) (ok : bool).

Definition connected_name (e : event) : string :=
  match e with Connect n _ => n end.

Definition textLoggingPortPrefix : string := "/log/".

(** [str.find(substring) != std::string::npos] for some substring. *)
Fixpoint hasSubstring (str : string) (substrings : list string) : bool :=
  match substrings with
  | [] => false
  | substring :: rest =>
      match String.index 0 substring str with
      | Some _ => true
      | None => hasSubstring str rest
      end
  end.

(** The condition of the [if] in the loop over the ports; [&&] and [||]
    evaluate as in the code, left to right. *)
Definition to_connect (st : state) (p : port) : bool :=
  String.prefix textLoggingPortPrefix (name p)
  && bool_decide (name p ∉ m_textLoggingPortNames st)
  && (match m_textLoggingSubnames st with [] => true | _ => false end
      || hasSubstring (name p) (m_textLoggingSubnames st))
  && network_exists p.

(** The body of the loop over the ports. *)
Definition visit (st : state) (p : port) : state * list event :=
  if to_connect st p then
    ({| m_textLoggingPortNames := {[ name p ]} ∪ m_textLoggingPortNames st;
        m_textLoggingSubnames := m_textLoggingSubnames st |},
     [Connect (name p) (network_connect p)])
  else (st, []).

(** One scan: the loop over [yarpPorts]. *)
Fixpoint scan (yarpPorts : list port) (st : state) : state * list event :=
  match yarpPorts with
  | [] => (st, [])
  | p :: rest =>
      let '(st1, ev1) := visit st p in
      let '(st2, ev2) := scan rest st1 in
      (st2, ev1 ++ ev2)
  end.

(** The scans of a session, one per cycle of [lookForNewLogs]. *)
Fixpoint session (scans : list (list port)) (st : state) : state * list event :=
  match scans with
  | [] => (st, [])
  | yarpPorts :: later =>
      let '(st1, ev1) := scan yarpPorts st in
      let '(st2, ev2) := session later st1 in
      (st2, ev1 ++ ev2)
  end.

(** The state of a device that has not scanned yet. *)
Definition initial (subnames : list string) : state :=
  {| m_textLoggingPortNames := ∅; m_textLoggingSubnames := subnames |}.

(** How many times [connect] was invoked for a name. *)
Definition connect_count (n : string) (evs : list event) : nat :=
  length (filter (fun e => connected_name e = n) evs).

(** What a piece of a session does to a state: the names it connects are
    new, pairwise distinct, and exactly what the set gains. *)
Definition extends (st : state) (r : state * list event) : Prop :=
  NoDup (connected_name <$> r.2)
  ∧ (∀ n, n ∈ connected_name <$> r.2 → n ∉ m_textLoggingPortNames st)
  ∧ m_textLoggingPortNames r.1
    = list_to_set (connected_name <$> r.2) ∪ m_textLoggingPortNames st
  ∧ m_textLoggingSubnames r.1 = m_textLoggingSubnames st.

(** The filter on the name of a port: the prefix of the text-logging ports
    and, when the list of the sub-names is not empty, one of them. *)
Definition accepted (subnames : list string) (n : string) : Prop :=
  String.prefix textLoggingPortPrefix n = true
  ∧ (subnames = [] ∨ hasSubstring n subnames = true).

End LogDiscovery.

(** ** Discovery of the exogenous signals *)

Module VectorsCollectionSignal.
Record t : Type := mk {
  connected : bool;
  signalName : string;
  (** [metadata.vectors]; empty when default-constructed. *)
  metadata : gmap string (list string)
}.
End VectorsCollectionSignal.

Module VectorSignal.
Record t : Type := mk {
  connected : bool;
  signalName : string;
  dataArrived : bool
}.
End VectorSignal.

Module Exogenous.

(** What the network answers in one cycle, by the key of the signal:
    [client.connect()] and [client.getMetadata(metadata)] of a vectors
    collection signal ([Some md]: returned true and stored [md]; [None]:
    returned false, the argument is left as it was), and [connect()] of a
    vector signal. *)
Record network : Type := mk_network {
  collection_connect : string → bool;
  collection_getMetadata : string → option (gmap string (list string));
  vector_connect : string → bool
}.

Inductive kind : Type := Collection | Vector.

Inductive event : Type :=
| Connect (k : kind) (name : string) (ok : bool)
| GetMetadata (name : string) (ok : bool).

Record state : Type := mk_state {
  m_vectorsCollectionSignals : list (string * VectorsCollectionSignal.t);
  m_vectorSignals : list (string * VectorSignal.t)
}.

(** The body of the loop of the lambda [connectToExogeneous], instantiated
    at the vectors collection signals: the [if constexpr] branch is
    compiled in. *)
Definition connect_collection (net : network) (name : string)
    (signal : VectorsCollectionSignal.t) : VectorsCollectionSignal.t * list event :=
  if VectorsCollectionSignal.connected signal then (signal, [])
  else
    let ok := collection_connect net name in
    let signal1 :=
      {| VectorsCollectionSignal.connected := ok;
         VectorsCollectionSignal.signalName := VectorsCollectionSignal.signalName signal;
         VectorsCollectionSignal.metadata := VectorsCollectionSignal.metadata signal |} in
    if negb ok then (signal1, [Connect Collection name ok])
    else
      match collection_getMetadata net name with
      | Some md =>
          ({| VectorsCollectionSignal.connected := ok;
              VectorsCollectionSignal.signalName := VectorsCollectionSignal.signalName signal;
              VectorsCollectionSignal.metadata := md |},
           [Connect Collection name ok; GetMetadata name true])
      | None => (signal1, [Connect Collection name ok; GetMetadata name false])
      end.

(** The same body instantiated at the vector signals: the [if constexpr]
    branch is compiled out. *)
Definition connect_vector (net : network) (name : string)
    (signal : VectorSignal.t) : VectorSignal.t * list event :=
  if VectorSignal.connected signal then (signal, [])
  else
    let ok := vector_connect net name in
    ({| VectorSignal.connected := ok;
        VectorSignal.signalName := VectorSignal.signalName signal;
        VectorSignal.dataArrived := VectorSignal.dataArrived signal |},
     [Connect Vector name ok]).

(** [for (auto& [name, signal] : signals)]. *)
Fixpoint connectToExogeneous {S : Type} (body : string → S → S * list event)
    (signals : list (string * S)) : list (string * S) * list event :=
  match signals with
  | [] => ([], [])
  | (name, signal) :: rest =>
      let '(signal1, ev1) := body name signal in
      let '(rest1, ev2) := connectToExogeneous body rest in
      ((name, signal1) :: rest1, ev1 ++ ev2)
  end.

(** One cycle of [lookForExogenousSignals]: the collections, then the
    vector signals. *)
Definition cycle (net : network) (st : state) : state * list event :=
  let '(cs, ev1) := connectToExogeneous (connect_collection net) (m_vectorsCollectionSignals st) in
  let '(vs, ev2) := connectToExogeneous (connect_vector net) (m_vectorSignals st) in
  ({| m_vectorsCollectionSignals := cs; m_vectorSignals := vs |}, ev1 ++ ev2).

(** A session: the events of each cycle, oldest cycle first. *)
Fixpoint session (nets : list network) (st : state) : state * list (list event) :=
  match nets with
  | [] => (st, [])
  | net :: later =>
      let '(st1, ev) := cycle net st in
      let '(st2, evs) := session later st1 in
      (st2, ev :: evs)
  end.

(** The events of a binding. *)
Definition about (k : kind) (n : string) (e : event) : bool :=
  match e, k with
  | Connect Collection m _, Collection => bool_decide (m = n)
  | Connect Vector m _, Vector => bool_decide (m = n)
  | GetMetadata m _, Collection => bool_decide (m = n)
  | _, _ => false
  end.

Definition is_negotiation (e : event) : bool :=
  match e with GetMetadata _ _ => true | Connect _ _ _ => false end.

(** The signal bound to a key in an association list. *)
Fixpoint binding {S : Type} (n : string) (signals : list (string * S)) : option S :=
  match signals with
  | [] => None
  | (m, s) :: rest => if bool_decide (m = n) then Some s else binding n rest
  end.

(** One binding followed through the cycles of a session: the signal at the
    end and, cycle by cycle, the events of its visit. *)
Fixpoint follow {S : Type} (body : network → string → S → S * list event)
    (nets : list network) (n : string) (s : S) : S * list (list event) :=
  match nets with
  | [] => (s, [])
  | net :: later =>
      let '(s1, ev) := body net n s in
      let '(s2, evs) := follow body later n s1 in
      (s2, ev :: evs)
  end.

(** The history of a vectors collection binding that starts unconnected:
    failed connections, one per cycle, and then either nothing more (still
    unconnected, metadata untouched), or the cycle of the successful
    connection with its one negotiation, followed by cycles without any
    event (connected; metadata untouched if the negotiation failed). *)
Definition collection_history (n : string) (s : VectorsCollectionSignal.t)
    (r : VectorsCollectionSignal.t * list (list event)) : Prop :=
  (∃ k, r.2 = replicate k [Connect Collection n false]
        ∧ VectorsCollectionSignal.connected r.1 = false
        ∧ VectorsCollectionSignal.metadata r.1 = VectorsCollectionSignal.metadata s)
  ∨ (∃ k ok j,
        r.2 = replicate k [Connect Collection n false]
              ++ [Connect Collection n true; GetMetadata n ok] :: replicate j []
        ∧ VectorsCollectionSignal.connected r.1 = true
        ∧ (ok = false →
           VectorsCollectionSignal.metadata r.1 = VectorsCollectionSignal.metadata s)).

(** The history of a vector signal binding that starts unconnected: the
    same, without negotiation. *)
Definition vector_history (n : string) (r : VectorSignal.t * list (list event)) : Prop :=
  (∃ k, r.2 = replicate k [Connect Vector n false]
        ∧ VectorSignal.connected r.1 = false)
  ∨ (∃ k j,
        r.2 = replicate k [Connect Vector n false]
              ++ [Connect Vector n true] :: replicate j []
        ∧ VectorSignal.connected r.1 = true).

End Exogenous.

(** ** The save callback *)

Module SaveCallback.

Inductive SaveMode : Type := Video | Frame.

(** [VideoWriter::ImageSaver], as far as the callback reads it. The member
    [writer] is a [std::shared_ptr<cv::VideoWriter>]: it is null ([false])
    when the image saver is created, and holds a writer ([true]) once
    [openVideoWriter] has assigned it. *)
Record ImageSaver : Type := mk_saver { saveMode : SaveMode; writer : bool }.

(** [VideoWriter]: a null [shared_ptr] is [None]. *)
Record VideoWriter : Type := mk_writer {
  rgb : option ImageSaver;
  depth : option ImageSaver
}.

(** The two image savers of a [VideoWriter]. An image saver is shared
    between [m_videoWriters] and the functions it is passed to: a member
    says which one a pointer is a copy of. *)
Inductive member : Type := rgb_saver | depth_saver.

Definition saver_of (m : member) (v : VideoWriter) : option ImageSaver :=
  match m with
  | rgb_saver => rgb v
  | depth_saver => depth v
  end.

Definition set_saver (m : member) (s : ImageSaver) (v : VideoWriter) : VideoWriter :=
  match m with
  | rgb_saver => {| rgb := Some s; depth := depth v |}
  | depth_saver => {| rgb := rgb v; depth := Some s |}
  end.

Inductive SaveCallbackSaveMethod : Type := periodic | last_call.

Record device : Type := mk_device {
  m_rgbCamerasList : list string;
  m_rgbdCamerasList : list string;
  m_videoWriters : gmap string VideoWriter;
  (** [m_cameraBridge->getMetaData().bridgeOptions] *)
  rgbImgDimensions : gmap string (nat * nat);
  rgbdImgDimensions : gmap string (nat * nat)
}.

(** The file system: whether [std::filesystem::rename(from, to)] and
    [std::filesystem::create_directory(path)] succeed; they throw when they
    do not. *)
Record filesystem : Type := mk_filesystem {
  rename_succeeds : string → string → bool;
  create_directory_succeeds : string → bool
}.

(** The calls on the writers, the file system and the status file; and,
    in [attachAll], [m_bufferManager.addChannel] for a camera. *)
Inductive event : Type :=
| Release (camera imageType : string)
| Rename (oldName newName : string)
| OpenWriter (path : string)
| CreateDirectory (path : string)
| CodeStatus (file : string)
| AddChannel (name : string).

(** How a call ends: it returns, an exception leaves it, or it dereferences
    a null pointer. *)
Inductive outcome : Type :=
| Returned (b : bool)
| Threw
| Undefined.

(** Inside a function: go on with a value, or leave the callback. *)
Inductive flow (A : Type) : Type :=
| Next (a : A)
| Exit (r : outcome).
Arguments Next {A} a.
Arguments Exit {A} r.

(** Computations of the callback: they read and extend [m_videoWriters],
    leave events, and go on or leave. *)
Definition M (A : Type) : Type :=
  gmap string VideoWriter → gmap string VideoWriter * list event * flow A.

Definition ret {A : Type} (a : A) : M A := fun w => (w, [], Next a).

Definition bind {A B : Type} (m : M A) (k : A → M B) : M B :=
  fun w =>
    match m w with
    | (w1, ev1, Next a) =>
        match k a w1 with
        | (w2, ev2, f) => (w2, ev1 ++ ev2, f)
        end
    | (w1, ev1, Exit r) => (w1, ev1, Exit r)
    end.

#[export] Instance M_ret : MRet M := @ret.
#[export] Instance M_bind : MBind M := fun A B k m => bind m k.

Definition emit (e : event) : M unit := fun w => (w, [e], Next tt).
Definition leave {A : Type} (r : outcome) : M A := fun w => (w, [], Exit r).

(** [m_videoWriters[camera]]: a missing entry is inserted, default
    constructed. *)
Definition default_writer : VideoWriter := {| rgb := None; depth := None |}.

Definition subscript (camera : string) : M VideoWriter :=
  fun w =>
    match w !! camera with
    | Some v => (w, [], Next v)
    | None => (<[camera := default_writer]> w, [], Next default_writer)
    end.

(** [saver->saveMode]. *)
Definition saveMode_of (saver : option ImageSaver) : M SaveMode :=
  match saver with
  | Some s => ret (saveMode s)
  | None => leave Undefined
  end.

Section Callback.

Context (fileName : string) (method : SaveCallbackSaveMethod)
        (fs : filesystem) (dev : device).

(** The lambda [saveVideo]. *)
Definition saveVideo (imageSaver : option ImageSaver) (camera videoTypePostfix : string) : M bool :=
  match imageSaver with
  | None => ret false
  | Some saver =>
      let temp := fileName +:+ "_" +:+ camera +:+ "_" +:+ videoTypePostfix in
      let oldName := "output_" +:+ camera +:+ "_" +:+ videoTypePostfix in
      '(temp, oldName) ←
        match saveMode saver with
        | Video =>
            (* imageSaver->writer->release() *)
            (if writer saver then emit (Release camera videoTypePostfix)
             else leave Undefined);;
            ret (temp +:+ ".mp4", oldName +:+ ".mp4")
        | Frame => ret (temp, oldName)
        end;
      if rename_succeeds fs oldName temp
      then emit (Rename oldName temp);; ret true
      else leave Threw
  end.

(** [openVideoWriter]. At every call the image saver is the member [m] of
    [m_videoWriters[camera]]; the assignment to [imageSaver->writer] is seen
    there. *)
Definition openVideoWriter (imageSaver : option ImageSaver) (m : member)
    (camera imageType : string) (imgDimensions : gmap string (nat * nat)) : M bool :=
  match imageSaver with
  | None => ret false
  | Some saver =>
      fun w =>
        match imgDimensions !! camera, w !! camera with
        | Some _, Some videoWriter =>
            (<[camera := set_saver m {| saveMode := saveMode saver; writer := true |}
                           videoWriter]> w,
             [OpenWriter ("output_" +:+ camera +:+ "_" +:+ imageType +:+ ".mp4")], Next true)
        | _, _ => (w, [], Next false)
        end
  end.

(** [createFramesFolder]. *)
Definition createFramesFolder (imageSaver : option ImageSaver) (camera imageType : string) : M bool :=
  match imageSaver with
  | None => ret false
  | Some _ =>
      let framesPath := "output_" +:+ camera +:+ "_" +:+ imageType in
      if create_directory_succeeds fs framesPath
      then emit (CreateDirectory framesPath);; ret true
      else leave Threw
  end.

(** [if (!call) { log()->error(...); return false; }] *)
Definition or_return_false (call : M bool) : M unit :=
  call ≫= λ ok : bool, if ok then ret tt else leave (Returned false).

(** Open the writer again, or the folder of the frames, by the save mode. *)
Definition reopen (m : member) (camera imageType : string)
    (imgDimensions : gmap string (nat * nat)) : M unit :=
  w ← subscript camera;
  mode ← saveMode_of (saver_of m w);
  match mode with
  | Video =>
      w ← subscript camera;
      or_return_false (openVideoWriter (saver_of m w) m camera imageType imgDimensions)
  | Frame =>
      w ← subscript camera;
      or_return_false (createFramesFolder (saver_of m w) camera imageType)
  end.

(** The body of the loop over [m_rgbCamerasList]. *)
Definition rgb_iteration (camera : string) : M unit :=
  w ← subscript camera;
  or_return_false (saveVideo (rgb w) camera "rgb");;
  match method with
  | periodic => reopen rgb_saver camera "rgb" (rgbImgDimensions dev)
  | last_call => ret tt
  end.

(** The body of the loop over [m_rgbdCamerasList]. *)
Definition rgbd_iteration (camera : string) : M unit :=
  w ← subscript camera;
  or_return_false (saveVideo (rgb w) camera "rgb");;
  w ← subscript camera;
  or_return_false (saveVideo (depth w) camera "depth");;
  match method with
  | periodic =>
      reopen rgb_saver camera "rgb" (rgbdImgDimensions dev);;
      reopen depth_saver camera "depth" (rgbdImgDimensions dev)
  | last_call => ret tt
  end.

Fixpoint for_each (cameras : list string) (body : string → M unit) : M unit :=
  match cameras with
  | [] => ret tt
  | camera :: rest => body camera;; for_each rest body
  end.

(** The body of [saveCallback]; writing the status of the code is one
    event. *)
Definition saveCallback_body : M bool :=
  for_each (m_rgbCamerasList dev) rgb_iteration;;
  for_each (m_rgbdCamerasList dev) rgbd_iteration;;
  emit (CodeStatus (fileName +:+ ".md"));;
  ret true.

(** [saveCallback]: the events and how the call ends. *)
Definition saveCallback : list event * outcome :=
  match saveCallback_body (m_videoWriters dev) with
  | (_, ev, Next b) => (ev, Returned b)
  | (_, ev, Exit r) => (ev, r)
  end.

End Callback.

(** The artifact of a stream is renamed ("finalized") in a list of events. *)
Definition finalized (camera imageType : string) (evs : list event) : Prop :=
  ∃ newName,
    Rename ("output_" +:+ camera +:+ "_" +:+ imageType) newName ∈ evs
    ∨ Rename (("output_" +:+ camera +:+ "_" +:+ imageType) +:+ ".mp4") newName ∈ evs.

(** The renames of a list of events, oldest first. *)
Fixpoint renames (evs : list event) : list (string * string) :=
  match evs with
  | [] => []
  | Rename o n :: rest => (o, n) :: renames rest
  | _ :: rest => renames rest
  end.

(** A computation that leaves the callback never does so with [true]. *)
Definition leaves_with_failure {A : Type} (m : M A) : Prop :=
  ∀ w w1 evs r, m w = (w1, evs, Exit r) → r ≠ Returned true.

(** Every event of a computation satisfies a property, however it ends. *)
Definition emits {A : Type} (P : event → Prop) (m : M A) : Prop :=
  ∀ w w1 evs f, m w = (w1, evs, f) → Forall P evs.

(** The events that open a writer or a folder for the next period. *)
Definition is_reopen (e : event) : bool :=
  match e with OpenWriter _ | CreateDirectory _ => true | _ => false end.

Definition is_CodeStatus (e : event) : bool :=
  match e with CodeStatus _ => true | _ => false end.

(** *** What makes the callback leave a stream *)

Inductive failure : Type :=
| NullSaver      (** the image saver is null: [saveVideo] returns false *)
| NullPointer    (** a null pointer is dereferenced *)
| RenameFails    (** [std::filesystem::rename] throws *)
| NoDimensions   (** [openVideoWriter] finds no dimensions and returns false *)
| FolderFails    (** [std::filesystem::create_directory] throws *).

(** How the callback ends on a failure. *)
Definition outcome_of (f : failure) : outcome :=
  match f with
  | NullSaver | NoDimensions => Returned false
  | NullPointer => Undefined
  | RenameFails | FolderFails => Threw
  end.

(** The file of a stream while it is written, and the name it is given when
    it is finalized. *)
Definition artifact (camera imageType : string) (mode : SaveMode) : string :=
  match mode with
  | Video => ("output_" +:+ camera +:+ "_" +:+ imageType) +:+ ".mp4"
  | Frame => "output_" +:+ camera +:+ "_" +:+ imageType
  end.

Definition archive (fileName camera imageType : string) (mode : SaveMode) : string :=
  match mode with
  | Video => (fileName +:+ "_" +:+ camera +:+ "_" +:+ imageType) +:+ ".mp4"
  | Frame => fileName +:+ "_" +:+ camera +:+ "_" +:+ imageType
  end.

(** A rename that finalizes a stream, given as the camera and the type of
    the image. *)
Definition finalizes (fileName : string) (stream : string * string)
    (r : string * string) : Prop :=
  ∃ mode, r = (artifact stream.1 stream.2 mode, archive fileName stream.1 stream.2 mode).

(** The streams of the cameras of the two lists, in the order of the
    loops. *)
Definition rgb_streams (cameras : list string) : list (string * string) :=
  (λ camera, (camera, "rgb")) <$> cameras.

Definition rgbd_streams (cameras : list string) : list (string * string) :=
  flat_map (λ camera, [(camera, "rgb"); (camera, "depth")]) cameras.

(** [m_videoWriters[camera]], as a value. *)
Definition at_camera (w : gmap string VideoWriter) (camera : string) : VideoWriter :=
  default default_writer (w !! camera).

(** A stream that is configured: the image saver of the camera is not
    null, and, for a video, it holds a video writer and the bridge gives the
    dimensions of the image. *)
Definition ready (m : member) (dims : gmap string (nat * nat))
    (w : gmap string VideoWriter) (camera : string) : Prop :=
  ∃ s, saver_of m (at_camera w camera) = Some s
       ∧ (saveMode s = Video → writer s = true ∧ is_Some (dims !! camera)).

(** The image saver of a stream is not null. *)
Definition has_saver (m : member) (w : gmap string VideoWriter) (camera : string) : Prop :=
  is_Some (saver_of m (at_camera w camera)).

(** From one state of the writers to a later one, every image saver that
    is not null is still not null, and every configured stream is still
    configured. *)
Definition kept (w w' : gmap string VideoWriter) : Prop :=
  ∀ mem camera,
    (has_saver mem w camera → has_saver mem w' camera)
    ∧ (∀ dims, ready mem dims w camera → ready mem dims w' camera).

(** A computation that goes on keeps them. *)
Definition preserves {A : Type} (m : M A) : Prop :=
  ∀ w w' evs a, m w = (w', evs, Next a) → kept w w'.

Section Failures.

Context (fileName : string) (method : SaveCallbackSaveMethod)
        (fs : filesystem) (dev : device).

(** What makes the finalization of a stream fail, if anything. *)
Definition finalization_failure (saver : option ImageSaver) (camera imageType : string)
    : option failure :=
  match saver with
  | None => Some NullSaver
  | Some s =>
      if match saveMode s with Video => negb (writer s) | Frame => false end
      then Some NullPointer
      else if rename_succeeds fs (artifact camera imageType (saveMode s))
                (archive fileName camera imageType (saveMode s))
           then None
           else Some RenameFails
  end.

(** What makes the re-opening of a stream fail, if anything. *)
Definition reopening_failure (saver : option ImageSaver)
    (imgDimensions : gmap string (nat * nat)) (camera imageType : string)
    : option failure :=
  match saver with
  | None => Some NullPointer
  | Some s =>
      match saveMode s with
      | Video => if imgDimensions !! camera is Some _ then None else Some NoDimensions
      | Frame =>
          if create_directory_succeeds fs (artifact camera imageType Frame)
          then None
          else Some FolderFails
      end
  end.

(** The rename of the finalization of a stream. *)
Definition rename_of (saver : option ImageSaver) (camera imageType : string)
    : list (string * string) :=
  match saver with
  | Some s => [(artifact camera imageType (saveMode s),
                archive fileName camera imageType (saveMode s))]
  | None => []
  end.

(** The first failure in the iteration of an RGB camera whose writers are
    [v], with the number of renames made before it. *)
Definition rgb_failure (v : VideoWriter) (camera : string) : option (failure * nat) :=
  match finalization_failure (rgb v) camera "rgb" with
  | Some f => Some (f, 0%nat)
  | None =>
      match method with
      | periodic =>
          match reopening_failure (rgb v) (rgbImgDimensions dev) camera "rgb" with
          | Some f => Some (f, 1%nat)
          | None => None
          end
      | last_call => None
      end
  end.

Definition rgb_renames (v : VideoWriter) (camera : string) : list (string * string) :=
  rename_of (rgb v) camera "rgb".

(** The same for an RGBD camera. *)
Definition rgbd_failure (v : VideoWriter) (camera : string) : option (failure * nat) :=
  match finalization_failure (rgb v) camera "rgb" with
  | Some f => Some (f, 0%nat)
  | None =>
      match finalization_failure (depth v) camera "depth" with
      | Some f => Some (f, 1%nat)
      | None =>
          match method with
          | periodic =>
              match reopening_failure (rgb v) (rgbdImgDimensions dev) camera "rgb" with
              | Some f => Some (f, 2%nat)
              | None =>
                  match reopening_failure (depth v) (rgbdImgDimensions dev) camera "depth" with
                  | Some f => Some (f, 2%nat)
                  | None => None
                  end
              end
          | last_call => None
          end
      end
  end.

Definition rgbd_renames (v : VideoWriter) (camera : string) : list (string * string) :=
  rename_of (rgb v) camera "rgb" ++ rename_of (depth v) camera "depth".

End Failures.

End SaveCallback.

(** ** The acquisition tick *)

Module Run.

(** *** [findAndReplaceAll] *)

(** [data.replace(pos, len, str)] for [pos] within [data]. *)
Definition replace (data : string) (pos len : nat) (str : string) : string :=
  String.substring 0 pos data
  +:+ str
  +:+ String.substring (pos + len) (String.length data - (pos + len)) data.

(** The [while] loop; [pos] is [None] for [std::string::npos], and
    [data.find(toSearch, from)] is [String.index from toSearch data]. The
    result is [None] when the loop has not ended after [fuel] iterations. *)
Fixpoint findAndReplaceAll_loop (fuel : nat) (data toSearch replaceStr : string)
    (pos : option nat) : option string :=
  match pos with
  | None => Some data
  | Some p =>
      match fuel with
      | O => None
      | S fuel' =>
          (* Replace this occurrence of Sub String *)
          let data' := replace data p (String.length toSearch) replaceStr in
          (* Get the next occurrence from the current position *)
          findAndReplaceAll_loop fuel' data' toSearch replaceStr
            (String.index (p + String.length replaceStr) toSearch data')
      end
  end.

(** [findAndReplaceAll(data, toSearch, replaceStr)]: the new value of [data].
    Every iteration puts at least [toSearch.size()] characters behind the
    position the search goes on from, so a loop that ends does so within
    [data.size()] iterations when [toSearch] is not empty. *)
Definition findAndReplaceAll (data toSearch replaceStr : string) : option string :=
  findAndReplaceAll_loop (String.length data) data toSearch replaceStr
    (String.index 0 toSearch data).

(** Every occurrence of the character [a] replaced by [b]. *)
Fixpoint substitute (a b : ascii) (s : string) : string :=
  match s with
  | EmptyString => EmptyString
  | String c s' => String (if Ascii.eqb c a then b else c) (substitute a b s')
  end.

(** *** The names of the channels

    The header that defines them is not among the sources: they are
    parameters of the tick. *)
Record names : Type := mk_names {
  TREE_DELIM : string;
  ROBOT_RT_ROOT_NAME : string;
  TIMESTAMPS_NAME : string;
  JOINT_STATE_POSITIONS_NAME : string;
  JOINT_STATE_VELOCITIES_NAME : string;
  JOINT_STATE_ACCLERATIONS_NAME : string;
  JOINT_STATE_TORQUES_NAME : string;
  MOTOR_STATE_POSITIONS_NAME : string;
  MOTOR_STATE_VELOCITIES_NAME : string;
  MOTOR_STATE_ACCELERATIONS_NAME : string;
  MOTOR_STATE_CURRENTS_NAME : string;
  MOTOR_STATE_PWM_NAME : string;
  MOTOR_STATE_PIDS_NAME : string;
  FTS_NAME : string;
  TEMPERATURE_NAME : string;
  GYROS_NAME : string;
  ACCELEROMETERS_NAME : string;
  ORIENTATIONS_NAME : string;
  MAGNETOMETERS_NAME : string;
  CARTESIAN_WRENCHES_NAME : string
}.

(** *** The collaborators *)

(** What the sensor bridge answers in one tick: a getter that returns true
    and fills its buffer with [v] is [Some v]; one that returns false is
    [None]. *)
Record SensorBridge : Type := mk_bridge {
  advance : bool;
  getJointPositions : option (list float);
  getJointVelocities : option (list float);
  getJointAccelerations : option (list float);
  getJointTorques : option (list float);
  getMotorPositions : option (list float);
  getMotorVelocities : option (list float);
  getMotorAccelerations : option (list float);
  getMotorCurrents : option (list float);
  getMotorPWMs : option (list float);
  getPidPositions : option (list float);
  getSixAxisForceTorqueSensorsList : list string;
  getSixAxisForceTorqueMeasurement : string → option (list float);
  getTemperatureSensorsList : list string;
  getTemperature : string → option float;
  getGyroscopesList : list string;
  getGyroscopeMeasure : string → option (list float);
  getLinearAccelerometersList : list string;
  getLinearAccelerometerMeasurement : string → option (list float);
  getOrientationSensorsList : list string;
  getOrientationSensorMeasurement : string → option (list float);
  getMagnetometersList : list string;
  getMagnetometerMeasurement : string → option (list float);
  getIMUsList : list string;
  getIMUMeasurement : string → option (list float);
  getCartesianWrenchesList : list string;
  getCartesianWrench : string → option (list float)
}.

(** A deserialized message of the text-logging port, as far as the tick
    reads it. *)
Record TextLoggingEntry : Type := mk_entry {
  isValid : bool;
  portSystem : string;
  portPrefix : string;
  processName : string;
  processPID : string
}.

(** The inputs of one tick. *)
Record tick : Type := mk_tick {
  (** [clock().now()], in seconds *)
  now : float;
  bridge : SensorBridge;
  (** [signal.client.readData(false)] by the key of the signal: [None] is a
      null pointer, [Some vectors] the vectors of the collection *)
  readData : string → option (list (string * list float));
  (** the messages pending on [m_textLoggingPort], next to read first:
      [getPendingReads()] is their number and [read(false)] takes the first *)
  pending : list TextLoggingEntry
}.

(** The configuration of the device the tick reads. *)
Record device : Type := mk_device {
  m_streamJointStates : bool;
  m_streamMotorStates : bool;
  m_streamMotorPWM : bool;
  m_streamPIDs : bool;
  m_streamFTSensors : bool;
  m_streamTemperatureSensors : bool;
  m_streamInertials : bool;
  m_streamCartesianWrenches : bool;
  m_vectorsCollectionSignals : list (string * VectorsCollectionSignal.t)
}.

(** The calls to the buffer manager and to the real-time server. *)
Inductive event : Type :=
| ClearData
| PushBack (value : list float) (time : float) (name : string)
| PopulateData (name : string) (value : list float)
| AddChannel (name : string) (rows cols : nat)
| SendData.

(** [signal.segment<3>(i)] *)
Definition segment3 (i : nat) (signal : list float) : list float :=
  firstn 3 (skipn i signal).

(** [unpackIMU]: accelerometer, gyro, orientation. *)
Definition unpackIMU (signal : list float) : list float * list float * list float :=
  let orientation := segment3 0 signal in
  let accelerometer := segment3 3 signal in
  let gyro := segment3 6 signal in
  (accelerometer, gyro, orientation).

Section Tick.

Context (N : names) (dev : device).

(** [if (getter(buffer)) { ... }] *)
Definition on_success {A : Type} (got : option A) (then_ : A → list event) : list event :=
  match got with
  | Some v => then_ v
  | None => []
  end.

(** [if (flag) { ... }] *)
Definition when (flag : bool) (body : list event) : list event :=
  if flag then body else [].

(** [for (const auto& x : xs) { ... }] *)
Definition for_all {A : Type} (xs : list A) (body : A → list event) : list event :=
  concat (map body xs).

Definition joint_states (time : float) (b : SensorBridge) : list event :=
  on_success (getJointPositions b) (fun buffer =>
    [PushBack buffer time (JOINT_STATE_POSITIONS_NAME N);
     PopulateData (ROBOT_RT_ROOT_NAME N +:+ TREE_DELIM N +:+ JOINT_STATE_POSITIONS_NAME N) buffer])
  ++ on_success (getJointVelocities b) (fun buffer =>
    [PushBack buffer time (JOINT_STATE_VELOCITIES_NAME N);
     PopulateData (ROBOT_RT_ROOT_NAME N +:+ TREE_DELIM N +:+ JOINT_STATE_VELOCITIES_NAME N) buffer])
  ++ on_success (getJointAccelerations b) (fun buffer =>
    [PushBack buffer time (JOINT_STATE_ACCLERATIONS_NAME N);
     PopulateData (ROBOT_RT_ROOT_NAME N +:+ TREE_DELIM N +:+ JOINT_STATE_ACCLERATIONS_NAME N) buffer])
  ++ on_success (getJointTorques b) (fun buffer =>
    [PushBack buffer time (JOINT_STATE_TORQUES_NAME N);
     PopulateData (ROBOT_RT_ROOT_NAME N +:+ TREE_DELIM N +:+ JOINT_STATE_TORQUES_NAME N) buffer]).

Definition motor_states (time : float) (b : SensorBridge) : list event :=
  on_success (getMotorPositions b) (fun buffer =>
    [PushBack buffer time (MOTOR_STATE_POSITIONS_NAME N);
     PopulateData (ROBOT_RT_ROOT_NAME N +:+ TREE_DELIM N +:+ MOTOR_STATE_POSITIONS_NAME N) buffer])
  ++ on_success (getMotorVelocities b) (fun buffer =>
    [PushBack buffer time (MOTOR_STATE_VELOCITIES_NAME N);
     PopulateData (ROBOT_RT_ROOT_NAME N +:+ TREE_DELIM N +:+ MOTOR_STATE_VELOCITIES_NAME N) buffer])
  ++ on_success (getMotorAccelerations b) (fun buffer =>
    [PushBack buffer time (MOTOR_STATE_ACCELERATIONS_NAME N);
     PopulateData (ROBOT_RT_ROOT_NAME N +:+ TREE_DELIM N +:+ MOTOR_STATE_ACCELERATIONS_NAME N) buffer])
  ++ on_success (getMotorCurrents b) (fun buffer =>
    [PushBack buffer time (MOTOR_STATE_CURRENTS_NAME N);
     PopulateData (ROBOT_RT_ROOT_NAME N +:+ TREE_DELIM N +:+ MOTOR_STATE_CURRENTS_NAME N) buffer]).

Definition motor_pwm (time : float) (b : SensorBridge) : list event :=
  on_success (getMotorPWMs b) (fun buffer =>
    [PushBack buffer time (MOTOR_STATE_PWM_NAME N);
     PopulateData (ROBOT_RT_ROOT_NAME N +:+ TREE_DELIM N +:+ MOTOR_STATE_CURRENTS_NAME N) buffer]).

Definition pids (time : float) (b : SensorBridge) : list event :=
  on_success (getPidPositions b) (fun buffer =>
    [PushBack buffer time (MOTOR_STATE_PIDS_NAME N);
     PopulateData (ROBOT_RT_ROOT_NAME N +:+ TREE_DELIM N +:+ MOTOR_STATE_PIDS_NAME N) buffer]).

(** The loops over the sensors of a kind that push a vector: the same text
    for the force-torque sensors, the gyroscopes, the accelerometers, the
    orientation sensors, the magnetometers and the cartesian wrenches. *)
Definition vector_sensors (time : float) (KIND_NAME : string) (sensors : list string)
    (get : string → option (list float)) : list event :=
  for_all sensors (fun sensorName =>
    on_success (get sensorName) (fun buffer =>
      let signalName := KIND_NAME +:+ TREE_DELIM N +:+ sensorName in
      [PushBack buffer time signalName;
       PopulateData (ROBOT_RT_ROOT_NAME N +:+ TREE_DELIM N +:+ KIND_NAME
                     +:+ TREE_DELIM N +:+ sensorName) buffer])).

Definition temperature_sensors (time : float) (b : SensorBridge) : list event :=
  for_all (getTemperatureSensorsList b) (fun sensorName =>
    on_success (getTemperature b sensorName) (fun m_ftTemperatureBuffer =>
      let signalName := TEMPERATURE_NAME N +:+ TREE_DELIM N +:+ sensorName in
      let temperatureData := [m_ftTemperatureBuffer] in
      [PushBack [m_ftTemperatureBuffer] time signalName;
       PopulateData (ROBOT_RT_ROOT_NAME N +:+ TREE_DELIM N +:+ TEMPERATURE_NAME N
                     +:+ TREE_DELIM N +:+ sensorName) temperatureData])).

Definition inertials (time : float) (b : SensorBridge) : list event :=
  vector_sensors time (GYROS_NAME N) (getGyroscopesList b) (getGyroscopeMeasure b)
  ++ vector_sensors time (ACCELEROMETERS_NAME N) (getLinearAccelerometersList b)
       (getLinearAccelerometerMeasurement b)
  ++ vector_sensors time (ORIENTATIONS_NAME N) (getOrientationSensorsList b)
       (getOrientationSensorMeasurement b)
  ++ vector_sensors time (MAGNETOMETERS_NAME N) (getMagnetometersList b)
       (getMagnetometerMeasurement b).

(** an IMU contains a gyro accelerometer and an orientation sensor *)
Definition imus (time : float) (b : SensorBridge) : list event :=
  for_all (getIMUsList b) (fun sensorName =>
    on_success (getIMUMeasurement b sensorName) (fun m_analogSensorBuffer =>
      let '(m_acceloremeterBuffer, m_gyroBuffer, m_orientationBuffer) :=
        unpackIMU m_analogSensorBuffer in
      [PushBack m_acceloremeterBuffer time (ACCELEROMETERS_NAME N +:+ TREE_DELIM N +:+ sensorName);
       PopulateData (ROBOT_RT_ROOT_NAME N +:+ TREE_DELIM N +:+ ACCELEROMETERS_NAME N
                     +:+ TREE_DELIM N +:+ sensorName) m_acceloremeterBuffer;
       PushBack m_gyroBuffer time (GYROS_NAME N +:+ TREE_DELIM N +:+ sensorName);
       PopulateData (ROBOT_RT_ROOT_NAME N +:+ TREE_DELIM N +:+ GYROS_NAME N
                     +:+ TREE_DELIM N +:+ sensorName) m_gyroBuffer;
       PushBack m_orientationBuffer time (ORIENTATIONS_NAME N +:+ TREE_DELIM N +:+ sensorName);
       PopulateData (ROBOT_RT_ROOT_NAME N +:+ TREE_DELIM N +:+ ORIENTATIONS_NAME N
                     +:+ TREE_DELIM N +:+ sensorName) m_orientationBuffer])).

(** The loop over [m_vectorsCollectionSignals]. *)
Definition exogenous (time : float) (read : string → option (list (string * list float))) : list event :=
  for_all (m_vectorsCollectionSignals dev) (fun '(name, signal) =>
    on_success (read name) (fun vectors =>
      for_all vectors (fun '(key, vector) =>
        let signalName := VectorsCollectionSignal.signalName signal +:+ TREE_DELIM N +:+ key in
        [PushBack vector time signalName;
         PopulateData (ROBOT_RT_ROOT_NAME N +:+ TREE_DELIM N +:+ signalName) vector]))).

(** The name of the channel of a text-logging message, before the
    replacement. *)
Definition text_signal_name (msg : TextLoggingEntry) : string :=
  portSystem msg +:+ "::" +:+ portPrefix msg +:+ "::" +:+ processName msg
  +:+ "::p" +:+ processPID msg.

(** The loop that drains the text-logging port: the new value of
    [m_textLogsStoredInManager] and the events, [None] if a call of
    [findAndReplaceAll] does not end. *)
Fixpoint text_logs (messages : list TextLoggingEntry) (stored : gset string)
    : option (gset string * list event) :=
  match messages with
  | [] => Some (stored, [])
  | msg :: rest =>
      if isValid msg then
        match findAndReplaceAll (text_signal_name msg) "-" "_" with
        | None => None
        | Some signalName =>
            (* if it is the first time this signal is seen by the device the
               channel is added *)
            if bool_decide (signalName ∈ stored) then text_logs rest stored
            else
              match text_logs rest ({[ signalName ]} ∪ stored) with
              | Some (stored', evs) => Some (stored', AddChannel signalName 1 1 :: evs)
              | None => None
              end
        end
      else text_logs rest stored
  end.

(** What [run] does with the data sources, from the joints to the
    exogenous signals. *)
Definition sources (t : tick) : list event :=
  let time := now t in
  let b := bridge t in
  when (m_streamJointStates dev) (joint_states time b)
  ++ when (m_streamMotorStates dev) (motor_states time b)
  ++ when (m_streamMotorPWM dev) (motor_pwm time b)
  ++ when (m_streamPIDs dev) (pids time b)
  ++ when (m_streamFTSensors dev)
       (vector_sensors time (FTS_NAME N) (getSixAxisForceTorqueSensorsList b)
          (getSixAxisForceTorqueMeasurement b))
  ++ when (m_streamTemperatureSensors dev) (temperature_sensors time b)
  ++ when (m_streamInertials dev) (inertials time b)
  ++ imus time b
  ++ when (m_streamCartesianWrenches dev)
       (vector_sensors time (CARTESIAN_WRENCHES_NAME N) (getCartesianWrenchesList b)
          (getCartesianWrench b))
  ++ exogenous time (readData t).

(** Everything [run] does between [clearData()] and the loop over the
    text-logging port: the time stamp is published, then the sources are
    read. *)
Definition streams (t : tick) : list event :=
  [PopulateData (ROBOT_RT_ROOT_NAME N +:+ TREE_DELIM N +:+ TIMESTAMPS_NAME N) [now t]]
  ++ sources t.

(** [YarpRobotLoggerDevice::run]: the new value of
    [m_textLogsStoredInManager] and the events of the tick, in order. *)
Definition run (t : tick) (m_textLogsStoredInManager : gset string)
    : option (gset string * list event) :=
  match text_logs (pending t) m_textLogsStoredInManager with
  | Some (stored', added) =>
      Some (stored', [ClearData] ++ streams t ++ added ++ [SendData])
  | None => None
  end.

(** The ticks of a session, from a value of the stored set. *)
Fixpoint session (ticks : list tick) (stored : gset string)
    : option (gset string * list event) :=
  match ticks with
  | [] => Some (stored, [])
  | t :: later =>
      match run t stored with
      | Some (stored1, ev1) =>
          match session later stored1 with
          | Some (stored2, ev2) => Some (stored2, ev1 ++ ev2)
          | None => None
          end
      | None => None
      end
  end.

End Tick.

(** The real-time entry of a channel: the root, the delimiter, the name of
    the channel. *)
Definition rt_entry (N : names) (channel : string) : string :=
  ROBOT_RT_ROOT_NAME N +:+ TREE_DELIM N +:+ channel.

Definition is_SendData (e : event) : bool :=
  match e with SendData => true | _ => false end.

(** The channels added in a list of events, oldest first. *)
Fixpoint added_channels (evs : list event) : list string :=
  match evs with
  | [] => []
  | AddChannel n _ _ :: rest => n :: added_channels rest
  | _ :: rest => added_channels rest
  end.

(** What was published in a list of events: the entry and the value. *)
Fixpoint published (evs : list event) : list (string * list float) :=
  match evs with
  | [] => []
  | PopulateData n v :: rest => (n, v) :: published rest
  | _ :: rest => published rest
  end.

(** What was appended to the buffer manager: the channel and the value. *)
Fixpoint appended (evs : list event) : list (string * list float) :=
  match evs with
  | [] => []
  | PushBack v _ n :: rest => (n, v) :: appended rest
  | _ :: rest => appended rest
  end.

(** The calls of the tick that carry a value. *)
Definition is_data (e : event) : bool :=
  match e with PushBack _ _ _ | PopulateData _ _ => true | _ => false end.

(** Publishing mirrors appending: what is published is what is appended,
    each value under the real-time entry of its channel. *)
Definition mirrors (N : names) (evs : list event) : Prop :=
  published evs = (λ p, (rt_entry N p.1, p.2)) <$> appended evs.

(** An assignment of the names, for the examples. *)
Definition sample_names : names :=
  {| TREE_DELIM := "::";
     ROBOT_RT_ROOT_NAME := "robot_realtime";
     TIMESTAMPS_NAME := "timestamps";
     JOINT_STATE_POSITIONS_NAME := "joints_state::positions";
     JOINT_STATE_VELOCITIES_NAME := "joints_state::velocities";
     JOINT_STATE_ACCLERATIONS_NAME := "joints_state::accelerations";
     JOINT_STATE_TORQUES_NAME := "joints_state::torques";
     MOTOR_STATE_POSITIONS_NAME := "motors_state::positions";
     MOTOR_STATE_VELOCITIES_NAME := "motors_state::velocities";
     MOTOR_STATE_ACCELERATIONS_NAME := "motors_state::accelerations";
     MOTOR_STATE_CURRENTS_NAME := "motors_state::currents";
     MOTOR_STATE_PWM_NAME := "motors_state::PWM";
     MOTOR_STATE_PIDS_NAME := "PIDs";
     FTS_NAME := "FTs";
     TEMPERATURE_NAME := "temperatures";
     GYROS_NAME := "gyros";
     ACCELEROMETERS_NAME := "accelerometers";
     ORIENTATIONS_NAME := "orientations";
     MAGNETOMETERS_NAME := "magnetometers";
     CARTESIAN_WRENCHES_NAME := "cartesian_wrenches" |}.

(** A sensor bridge that has nothing to give. *)
Definition silent_bridge : SensorBridge :=
  {| advance := true;
     getJointPositions := None; getJointVelocities := None;
     getJointAccelerations := None; getJointTorques := None;
     getMotorPositions := None; getMotorVelocities := None;
     getMotorAccelerations := None; getMotorCurrents := None;
     getMotorPWMs := None; getPidPositions := None;
     getSixAxisForceTorqueSensorsList := [];
     getSixAxisForceTorqueMeasurement := λ _, None;
     getTemperatureSensorsList := []; getTemperature := λ _, None;
     getGyroscopesList := []; getGyroscopeMeasure := λ _, None;
     getLinearAccelerometersList := []; getLinearAccelerometerMeasurement := λ _, None;
     getOrientationSensorsList := []; getOrientationSensorMeasurement := λ _, None;
     getMagnetometersList := []; getMagnetometerMeasurement := λ _, None;
     getIMUsList := []; getIMUMeasurement := λ _, None;
     getCartesianWrenchesList := []; getCartesianWrench := λ _, None |}.

(** The same bridge when the motor PWM is read with success. *)
Definition pwm_bridge (pwm : list float) : SensorBridge :=
  {| advance := true;
     getJointPositions := None; getJointVelocities := None;
     getJointAccelerations := None; getJointTorques := None;
     getMotorPositions := None; getMotorVelocities := None;
     getMotorAccelerations := None; getMotorCurrents := None;
     getMotorPWMs := Some pwm; getPidPositions := None;
     getSixAxisForceTorqueSensorsList := [];
     getSixAxisForceTorqueMeasurement := λ _, None;
     getTemperatureSensorsList := []; getTemperature := λ _, None;
     getGyroscopesList := []; getGyroscopeMeasure := λ _, None;
     getLinearAccelerometersList := []; getLinearAccelerometerMeasurement := λ _, None;
     getOrientationSensorsList := []; getOrientationSensorMeasurement := λ _, None;
     getMagnetometersList := []; getMagnetometerMeasurement := λ _, None;
     getIMUsList := []; getIMUMeasurement := λ _, None;
     getCartesianWrenchesList := []; getCartesianWrench := λ _, None |}.

(** A device that streams the motor PWM only. *)
Definition pwm_device : device :=
  {| m_streamJointStates := false; m_streamMotorStates := false;
     m_streamMotorPWM := true; m_streamPIDs := false;
     m_streamFTSensors := false; m_streamTemperatureSensors := false;
     m_streamInertials := false; m_streamCartesianWrenches := false;
     m_vectorsCollectionSignals := [] |}.

(** What a piece of a session does to the stored set of the text logs: the
    channels it adds are new, pairwise distinct, and exactly what the set
    gains. *)
Definition grows (stored : gset string) (r : gset string * list event) : Prop :=
  NoDup (added_channels r.2)
  ∧ (∀ n, n ∈ added_channels r.2 → n ∉ stored)
  ∧ r.1 = list_to_set (added_channels r.2) ∪ stored.

End Run.

(** ** The configuration of the cameras *)

Module CameraConfig.

(** [VideoWriter], as far as [open] fills it. *)
Record VideoWriter : Type := mk_writer {
  fps : Z;
  depthScale : Z;
  rgb : option SaveCallback.ImageSaver;
  depth : option SaveCallback.ImageSaver
}.

(** The parameters handler: the vectors of integers and of strings it
    holds, by name; [None] when [getParameter] returns false. *)
Record parameters : Type := mk_parameters {
  int_vector : string → option (list Z);
  string_vector : string → option (list string)
}.

(** Which list of the camera bridge the names are: the lambda compares the
    address of its argument with the addresses of the two lists. *)
Inductive cameras : Type := RGB | RGBD.

(** The lambda [createImageSaver]; [None] is [nullptr]. *)
Definition createImageSaver (saveMode : string) : option SaveCallback.ImageSaver :=
  if String.eqb saveMode "frame"
  then Some {| SaveCallback.saveMode := SaveCallback.Frame; SaveCallback.writer := false |}
  else if String.eqb saveMode "video"
  then Some {| SaveCallback.saveMode := SaveCallback.Video; SaveCallback.writer := false |}
  else None.

Section Populate.

(** [fresh] is a default-constructed [VideoWriter], the value
    [m_videoWriters[name]] inserts for a name that is not in the map; its
    image savers are null. *)
Context (fresh : VideoWriter).

(** [m_videoWriters[name].field = value] *)
Definition assign (name : string) (set : VideoWriter → VideoWriter)
    (w : gmap string VideoWriter) : gmap string VideoWriter :=
  <[name := set (default fresh (w !! name))]> w.

(** [m_videoWriters[name]], read *)
Definition at_ (name : string) (w : gmap string VideoWriter) : VideoWriter :=
  default fresh (w !! name).

Definition non_null {A : Type} (p : option A) : bool :=
  match p with Some _ => true | None => false end.

Section Loop.

Context (kind : cameras) (cameraNames : list string)
        (fps_ depthScale_ : list Z) (rgbSaveMode depthSaveMode : list string).

(** The body of the loop over [i], for [i < fps.size()]: [None] when the
    lambda returns false from inside the loop, otherwise the new values of
    [ok] and of [m_videoWriters]. An element of a vector is read with
    [nth]; the sizes were compared before the loop. *)
Definition iteration (i : nat) (ok : bool) (w : gmap string VideoWriter)
    : option (bool * gmap string VideoWriter) :=
  if nth i fps_ 0 <=? 0 then None
  else
    let name := nth i cameraNames "" in
    (* get the desired fps for each camera *)
    let w := assign name (λ v, {| fps := nth i fps_ 0; depthScale := depthScale v;
                                  rgb := rgb v; depth := depth v |}) w in
    match kind with
    | RGB =>
        let w := assign name (λ v, {| fps := fps v; depthScale := depthScale v;
                                      rgb := createImageSaver (nth i rgbSaveMode "");
                                      depth := depth v |}) w in
        let ok := ok && non_null (rgb (at_ name w)) in
        Some (ok, w)
    | RGBD =>
        let w := assign name (λ v, {| fps := fps v; depthScale := depthScale v;
                                      rgb := createImageSaver (nth i rgbSaveMode "");
                                      depth := depth v |}) w in
        let ok := ok && non_null (rgb (at_ name w)) in
        let w := assign name (λ v, {| fps := fps v; depthScale := depthScale v;
                                      rgb := rgb v;
                                      depth := createImageSaver (nth i depthSaveMode "") |}) w in
        let ok := ok && non_null (depth (at_ name w)) in
        let w := assign name (λ v, {| fps := fps v; depthScale := nth i depthScale_ 0;
                                      rgb := rgb v; depth := depth v |}) w in
        Some (ok, w)
    end.

(** [for (unsigned int i = 0; i < fps.size(); i++)], from [i] with [count]
    iterations left. *)
Fixpoint loop (count i : nat) (ok : bool) (w : gmap string VideoWriter)
    : bool * gmap string VideoWriter :=
  match count with
  | O => (ok, w)
  | S count' =>
      match iteration i ok w with
      | None => (false, w)
      | Some (ok', w') => loop count' (S i) ok' w'
      end
  end.

End Loop.

(** The lambda [populateCamerasData]: the value it returns and the new
    [m_videoWriters]. *)
Definition populateCamerasData (params : parameters) (kind : cameras)
    (fpsParamName : string) (cameraNames : list string) (w : gmap string VideoWriter)
    : bool * gmap string VideoWriter :=
  match int_vector params fpsParamName with
  | None => (false, w)
  | Some fps_ =>
      let read :=
        match kind with
        | RGBD =>
            (* if the camera is an rgbd camera then user should provide the
               depth scale *)
            match int_vector params "rgbd_cameras_depth_scale" with
            | None => None
            | Some depthScale_ =>
                match string_vector params "rgbd_cameras_rgb_save_mode" with
                | None => None
                | Some rgbSaveMode =>
                    match string_vector params "rgbd_cameras_depth_save_mode" with
                    | None => None
                    | Some depthSaveMode =>
                        if negb (length fps_ =? length depthScale_)%nat
                           || negb (length fps_ =? length rgbSaveMode)%nat
                           || negb (length fps_ =? length depthSaveMode)%nat
                        then None
                        else Some (depthScale_, rgbSaveMode, depthSaveMode)
                    end
                end
            end
        | RGB =>
            match string_vector params "rgb_cameras_rgb_save_mode" with
            | None => None
            | Some rgbSaveMode => Some ([], rgbSaveMode, [])
            end
        end in
      match read with
      | None => (false, w)
      | Some (depthScale_, rgbSaveMode, depthSaveMode) =>
          if negb (length fps_ =? length rgbSaveMode)%nat then (false, w)
          else if negb (length fps_ =? length cameraNames)%nat then (false, w)
          else loop kind cameraNames fps_ depthScale_ rgbSaveMode depthSaveMode
                 (length fps_) 0 true w
      end
  end.

(** A camera that is configured: it has a writer with a positive frame
    rate, an image saver for the colour stream and, for an RGBD camera, one
    for the depth stream. *)
Definition configured (kind : cameras) (w : gmap string VideoWriter) (name : string) : Prop :=
  ∃ v, w !! name = Some v ∧ 0 < fps v ∧ is_Some (rgb v)
       ∧ (kind = RGBD → is_Some (depth v)).

End Populate.

(** What the save callback reads of a writer. *)
Definition to_callback (v : VideoWriter) : SaveCallback.VideoWriter :=
  {| SaveCallback.rgb := rgb v; SaveCallback.depth := depth v |}.

End CameraConfig.

(** ** The cameras in [attachAll] *)

Module CameraAttach.

Import SaveCallback.

(** What the camera bridge answers to [getRGBCamerasList] and
    [getRGBDCamerasList]: the value returned and the list it leaves in its
    argument. *)
Record bridge : Type := mk_bridge {
  getRGBCamerasList : bool * list string;
  getRGBDCamerasList : bool * list string
}.

Section AttachAll.

(** [addChannel] is whether [m_bufferManager.addChannel] succeeds for a
    name; [dev] is the device before the call. *)
Context (fs : filesystem) (dev : device) (addChannel : string → bool).

(** [ok = ok && m_bufferManager.addChannel({name, {1, 1}, {"timestamp"}})] *)
Definition add_channel (ok : bool) (name : string) : M bool :=
  if ok then emit (AddChannel name);; ret (addChannel name) else ret false.

(** The body of the loop over [m_rgbCamerasList]: the writer is opened, or
    the folder of the frames created, as [saveCallback] does when it opens
    them again. *)
Definition rgb_iteration (ok : bool) (camera : string) : M bool :=
  reopen fs rgb_saver camera "rgb" (rgbImgDimensions dev);;
  add_channel ok ("camera::" +:+ camera +:+ "::rgb").

(** The body of the loop over [m_rgbdCamerasList]. *)
Definition rgbd_iteration (ok : bool) (camera : string) : M bool :=
  reopen fs rgb_saver camera "rgb" (rgbdImgDimensions dev);;
  reopen fs depth_saver camera "depth" (rgbdImgDimensions dev);;
  ok ← add_channel ok ("camera::" +:+ camera +:+ "::rgb");
  add_channel ok ("camera::" +:+ camera +:+ "::depth").

Fixpoint for_each_ok (cameras : list string) (body : bool → string → M bool) (ok : bool)
    : M bool :=
  match cameras with
  | [] => ret ok
  | camera :: rest => ok ← body ok camera; for_each_ok rest body ok
  end.

(** [ok = ok && m_cameraBridge->getRGBCamerasList(m_rgbCamerasList)]: the
    bridge is asked only while [ok] holds. *)
Definition listed (ok : bool) (answer : bool * list string) (current : list string)
    : bool * list string :=
  if ok then answer else (false, current).

(** The part of [attachAll] on the cameras, for a camera bridge that is not
    null, up to the test of [ok] that starts the threads: [ok] and the two
    lists of the device after it. *)
Definition attach_cameras (ok : bool) (b : bridge) : M (bool * list string * list string) :=
  let '(ok, rgbs) := listed ok (getRGBCamerasList b) (m_rgbCamerasList dev) in
  ok ← for_each_ok rgbs rgb_iteration ok;
  let '(ok, rgbds) := listed ok (getRGBDCamerasList b) (m_rgbdCamerasList dev) in
  ok ← for_each_ok rgbds rgbd_iteration ok;
  ret (ok, rgbs, rgbds).

End AttachAll.

End CameraAttach.

(** ** The channels declared by [attachAll] *)

Module Attach.

Import Run.

(** The lists of names of [YarpRobotLoggerDeviceVariableTreeNames.h] that
    label the elements of a channel, and the name of the description list. *)
Record elements : Type := mk_elements {
  ROBOT_DESCRIPTON_LIST : string;
  FTElementNames : list string;
  GyroElementNames : list string;
  AccelerometerElementNames : list string;
  OrientationElementNames : list string;
  MagnetometerElementNames : list string;
  CartesianWrenchNames : list string;
  TemperatureNames : list string
}.

(** The calls to the buffer manager and to the real-time server:
    [addChannel({name, {rows, cols}, elements_names})], where the labels are
    [None] when the initialiser has two members only,
    [populateMetadata(name, labels)], [setDescriptionList] and
    [finalizeMetadata]. *)
Inductive event : Type :=
| AddChannel (name : string) (rows cols : nat) (elements_names : option (list string))
| PopulateMetadata (name : string) (labels : list string)
| SetDescriptionList (joints : list string)
| FinalizeMetadata.

(** What [attachAll] reads while it declares the channels: the sensor
    bridge, [signal.client.readData(false)] by the key of a vectors
    collection signal, and [signal.port.read(false)] by the key of a vector
    signal ([None] is a null pointer). *)
Record readings : Type := mk_readings {
  bridge : SensorBridge;
  joints : list string;
  readData : string → option (list (string * list float));
  read : string → option (list float)
}.

(** [if (flag) { ... }] *)
Definition when (flag : bool) (body : list event) : list event :=
  if flag then body else [].

(** [for (const auto& x : xs) { ... }] *)
Definition for_all {A : Type} (xs : list A) (body : A → list event) : list event :=
  concat (map body xs).

Section AttachAll.

Context (N : names) (E : elements) (dev : device).

Definition addJointRelatedChannelAndMetadata (name : string) (jointNames : list string)
    : list event :=
  let rtMetadataName := ROBOT_RT_ROOT_NAME N +:+ TREE_DELIM N +:+ name in
  [AddChannel name (length jointNames) 1 (Some jointNames);
   PopulateMetadata rtMetadataName jointNames].

Definition addSensorBridgeRelatedChannelAndMetadata (nameKey : string)
    (metadataNames : list string) : list event :=
  let rtNameKey := ROBOT_RT_ROOT_NAME N +:+ TREE_DELIM N +:+ nameKey in
  [AddChannel nameKey (length metadataNames) 1 (Some metadataNames);
   PopulateMetadata rtNameKey metadataNames].

(** The loops over the sensors of a kind. *)
Definition sensors (KIND_NAME : string) (sensorNames : list string)
    (labels : list string) : list event :=
  for_all sensorNames (fun sensorName =>
    addSensorBridgeRelatedChannelAndMetadata
      (KIND_NAME +:+ TREE_DELIM N +:+ sensorName) labels).

Definition inertials (b : SensorBridge) : list event :=
  sensors (GYROS_NAME N) (getGyroscopesList b) (GyroElementNames E)
  ++ sensors (ACCELEROMETERS_NAME N) (getLinearAccelerometersList b)
       (AccelerometerElementNames E)
  ++ sensors (ORIENTATIONS_NAME N) (getOrientationSensorsList b)
       (OrientationElementNames E)
  ++ sensors (MAGNETOMETERS_NAME N) (getMagnetometersList b)
       (MagnetometerElementNames E)
  (* an IMU contains a gyro accelerometer and an orientation sensor *)
  ++ for_all (getIMUsList b) (fun sensorName =>
       addSensorBridgeRelatedChannelAndMetadata
         (ACCELEROMETERS_NAME N +:+ TREE_DELIM N +:+ sensorName)
         (AccelerometerElementNames E)
       ++ addSensorBridgeRelatedChannelAndMetadata
            (GYROS_NAME N +:+ TREE_DELIM N +:+ sensorName) (GyroElementNames E)
       ++ addSensorBridgeRelatedChannelAndMetadata
            (ORIENTATIONS_NAME N +:+ TREE_DELIM N +:+ sensorName)
            (OrientationElementNames E)).

(** The loop over [m_vectorsCollectionSignals]. *)
Definition exogenous (readData : string → option (list (string * list float)))
    : list event :=
  for_all (m_vectorsCollectionSignals dev) (fun '(name, signal) =>
    match readData name with
    | Some vectors =>
        for_all vectors (fun '(key, vector) =>
          let signalName :=
            VectorsCollectionSignal.signalName signal +:+ TREE_DELIM N +:+ key in
          let rtSignalName := ROBOT_RT_ROOT_NAME N +:+ TREE_DELIM N +:+ signalName in
          match VectorsCollectionSignal.metadata signal !! key with
          | None =>
              [AddChannel signalName (length vector) 1 None;
               PopulateMetadata rtSignalName []]
          | Some labels =>
              (* if the metadata is found we use it *)
              [AddChannel signalName (length vector) 1 (Some labels);
               PopulateMetadata rtSignalName labels]
          end)
    | None => []
    end).

(** The loop over [m_vectorSignals]: the signals after the loop and the
    calls. *)
Fixpoint vector_signals (read : string → option (list float))
    (m_vectorSignals : list (string * VectorSignal.t))
    : list (string * VectorSignal.t) * list event :=
  match m_vectorSignals with
  | [] => ([], [])
  | (name, signal) :: rest =>
      let (rest', evs) := vector_signals read rest in
      match read name with
      | Some vector =>
          if negb (VectorSignal.dataArrived signal) then
            let rtSignalName :=
              ROBOT_RT_ROOT_NAME N +:+ TREE_DELIM N +:+ VectorSignal.signalName signal in
            ((name, {| VectorSignal.connected := VectorSignal.connected signal;
                       VectorSignal.signalName := VectorSignal.signalName signal;
                       VectorSignal.dataArrived := true |}) :: rest',
             [AddChannel (VectorSignal.signalName signal) (length vector) 1 None;
              PopulateMetadata rtSignalName []] ++ evs)
          else ((name, signal) :: rest', evs)
      | None => ((name, signal) :: rest', evs)
      end
  end.

(** [// prepare the telemetry]: the channels of the sensor bridge. *)
Definition telemetry (b : SensorBridge) (joints : list string) : list event :=
  when (m_streamJointStates dev)
    (addJointRelatedChannelAndMetadata (JOINT_STATE_POSITIONS_NAME N) joints
     ++ addJointRelatedChannelAndMetadata (JOINT_STATE_VELOCITIES_NAME N) joints
     ++ addJointRelatedChannelAndMetadata (JOINT_STATE_ACCLERATIONS_NAME N) joints
     ++ addJointRelatedChannelAndMetadata (JOINT_STATE_TORQUES_NAME N) joints)
  ++ when (m_streamMotorStates dev)
       (addJointRelatedChannelAndMetadata (MOTOR_STATE_POSITIONS_NAME N) joints
        ++ addJointRelatedChannelAndMetadata (MOTOR_STATE_VELOCITIES_NAME N) joints
        ++ addJointRelatedChannelAndMetadata (MOTOR_STATE_ACCELERATIONS_NAME N) joints
        ++ addJointRelatedChannelAndMetadata (MOTOR_STATE_CURRENTS_NAME N) joints)
  ++ when (m_streamMotorPWM dev)
       (addJointRelatedChannelAndMetadata (MOTOR_STATE_PWM_NAME N) joints)
  ++ when (m_streamPIDs dev)
       (addJointRelatedChannelAndMetadata (MOTOR_STATE_PIDS_NAME N) joints)
  ++ when (m_streamFTSensors dev)
       (sensors (FTS_NAME N) (getSixAxisForceTorqueSensorsList b) (FTElementNames E))
  ++ when (m_streamInertials dev) (inertials b)
  ++ when (m_streamCartesianWrenches dev)
       (sensors (CARTESIAN_WRENCHES_NAME N) (getCartesianWrenchesList b)
          (CartesianWrenchNames E))
  ++ when (m_streamTemperatureSensors dev)
       (sensors (TEMPERATURE_NAME N) (getTemperatureSensorsList b) (TemperatureNames E)).

(** [attachAll], from the metadata of the time stamps to
    [finalizeMetadata()]: the vector signals after it and the calls, in
    order. *)
Definition declare (r : readings) (m_vectorSignals : list (string * VectorSignal.t))
    : list (string * VectorSignal.t) * list event :=
  let (signals', vector_events) := vector_signals (read r) m_vectorSignals in
  (signals',
   [PopulateMetadata (ROBOT_RT_ROOT_NAME N +:+ TREE_DELIM N +:+ TIMESTAMPS_NAME N)
      [TIMESTAMPS_NAME N];
    SetDescriptionList (joints r);
    PopulateMetadata (ROBOT_RT_ROOT_NAME N +:+ TREE_DELIM N +:+ ROBOT_DESCRIPTON_LIST E)
      (joints r)]
   ++ telemetry (bridge r) (joints r)
   ++ exogenous (readData r)
   ++ vector_events
   ++ [FinalizeMetadata]).

End AttachAll.

(** The channels declared in a list of calls, oldest first. *)
Fixpoint channels (evs : list event) : list string :=
  match evs with
  | [] => []
  | AddChannel n _ _ _ :: rest => n :: channels rest
  | _ :: rest => channels rest
  end.

(** Every channel is declared together with its metadata: a call of
    [addChannel] is followed at once by the call of [populateMetadata] for
    the real-time entry of the channel, with the labels of the channel (none
    when the channel has none), and the channel is a column. *)
Fixpoint described (N : names) (evs : list event) : Prop :=
  match evs with
  | [] => True
  | AddChannel n _ cols labels :: rest =>
      match rest with
      | PopulateMetadata entry labels' :: rest' =>
          entry = rt_entry N n ∧ labels' = default [] labels ∧ cols = 1%nat
          ∧ described N rest'
      | _ => False
      end
  | _ :: rest => described N rest
  end.

(** The keys of the vectors read from a collection. *)
Definition keys (got : option (list (string * list float))) : list string :=
  match got with
  | Some vectors => vectors.*1
  | None => []
  end.

(** The channels a list of calls of the tick appends a sample to. *)
Definition pushed (evs : list Run.event) : list string := (appended evs).*1.

(** Two answers of the sensor bridge that list the same sensors. *)
Definition same_sensors (b b' : SensorBridge) : Prop :=
  getSixAxisForceTorqueSensorsList b = getSixAxisForceTorqueSensorsList b'
  ∧ getTemperatureSensorsList b = getTemperatureSensorsList b'
  ∧ getGyroscopesList b = getGyroscopesList b'
  ∧ getLinearAccelerometersList b = getLinearAccelerometersList b'
  ∧ getOrientationSensorsList b = getOrientationSensorsList b'
  ∧ getMagnetometersList b = getMagnetometersList b'
  ∧ getIMUsList b = getIMUsList b'
  ∧ getCartesianWrenchesList b = getCartesianWrenchesList b'.

(** A device configured to stream nothing. *)
Definition streams_nothing (dev : device) : Prop :=
  m_streamJointStates dev = false ∧ m_streamMotorStates dev = false
  ∧ m_streamMotorPWM dev = false ∧ m_streamPIDs dev = false
  ∧ m_streamFTSensors dev = false ∧ m_streamTemperatureSensors dev = false
  ∧ m_streamInertials dev = false ∧ m_streamCartesianWrenches dev = false
  ∧ m_vectorsCollectionSignals dev = [].

(** An assignment of the labels, for the examples. *)
Definition sample_elements : elements :=
  {| ROBOT_DESCRIPTON_LIST := "description_list";
     FTElementNames := ["f_x"; "f_y"; "f_z"; "mu_x"; "mu_y"; "mu_z"];
     GyroElementNames := ["omega_x"; "omega_y"; "omega_z"];
     AccelerometerElementNames := ["a_x"; "a_y"; "a_z"];
     OrientationElementNames := ["r"; "p"; "y"];
     MagnetometerElementNames := ["mag_x"; "mag_y"; "mag_z"];
     CartesianWrenchNames := ["f_x"; "f_y"; "f_z"; "mu_x"; "mu_y"; "mu_z"];
     TemperatureNames := ["temperature"] |}.

(** A sensor bridge with one IMU, read with success. *)
Definition imu_bridge (sensorName : string) (measure : list float) : SensorBridge :=
  {| advance := true;
     getJointPositions := None; getJointVelocities := None;
     getJointAccelerations := None; getJointTorques := None;
     getMotorPositions := None; getMotorVelocities := None;
     getMotorAccelerations := None; getMotorCurrents := None;
     getMotorPWMs := None; getPidPositions := None;
     getSixAxisForceTorqueSensorsList := [];
     getSixAxisForceTorqueMeasurement := λ _, None;
     getTemperatureSensorsList := []; getTemperature := λ _, None;
     getGyroscopesList := []; getGyroscopeMeasure := λ _, None;
     getLinearAccelerometersList := []; getLinearAccelerometerMeasurement := λ _, None;
     getOrientationSensorsList := []; getOrientationSensorMeasurement := λ _, None;
     getMagnetometersList := []; getMagnetometerMeasurement := λ _, None;
     getIMUsList := [sensorName]; getIMUMeasurement := λ _, Some measure;
     getCartesianWrenchesList := []; getCartesianWrench := λ _, None |}.

End Attach.

(* ===================================================================== *)
(** * Part II: the properties                                             *)
(* ===================================================================== *)

(** ** The variables handler *)

Section VariablesHandlerFacts.

Import VariablesHandler.

Lemma addVariable_fresh (h : VariablesHandler.t) (name : string) (size : Z) :
  m_variables h !! name = None →
  (addVariable name size h).1 = true
  ∧ m_variables (addVariable name size h).2 !! name
    = Some {| IndexRange.offset := IndexRange.of_size_t (m_numberOfVariables h);
              IndexRange.size := IndexRange.of_size_t size |}.
Proof.
  intros Hnone. unfold addVariable. rewrite Hnone. cbn.
  split; [reflexivity | apply lookup_insert_eq].
Qed.

(** C9. A name that is already registered is rejected whatever the size:
    [addVariable] returns false and the handler (the map of the variables and
    the number of variables) is the one before the call; this holds in
    particular for the size the name is registered with. *)
Theorem addVariable_duplicate_rejected (h : VariablesHandler.t) (name : string) (size : Z) :
  is_Some (m_variables h !! name) →
  addVariable name size h = (false, h)
  ∧ m_variables (addVariable name size h).2 = m_variables h
  ∧ getNumberOfVariables (addVariable name size h).2 = getNumberOfVariables h
  ∧ (∀ r, m_variables h !! name = Some r →
          addVariable name (IndexRange.size r) h = (false, h)).
Proof.
  intros [r Hr].
  assert (Hany : ∀ sz, addVariable name sz h = (false, h)).
  { intros sz. unfold addVariable. now rewrite Hr. }
  rewrite Hany. cbn. repeat split. intros r' _. apply Hany.
Qed.

Lemma addVariable_duplicate_rejected_witness :
  let h := (addVariable "com" 3 VariablesHandler.empty).2 in
  addVariable "com" 3 h = (false, h)
  ∧ m_variables (addVariable "com" 3 h).2 = m_variables h
  ∧ getNumberOfVariables (addVariable "com" 3 h).2 = getNumberOfVariables h
  ∧ (∀ r, m_variables h !! "com" = Some r →
          addVariable "com" (IndexRange.size r) h = (false, h)).
Proof.
  intros h. apply (addVariable_duplicate_rejected h "com" 3).
  exists {| IndexRange.offset := 0; IndexRange.size := 3 |}.
  vm_compute. reflexivity.
Defined.

End VariablesHandlerFacts.

(** ** The size of the telemetry buffer *)

Section TelemetryFacts.

Import Telemetry.






End TelemetryFacts.

(** ** The wake-up time of the workers *)

Section WorkerFacts.

Import Worker.

Lemma count_below_epsilon_spec (count : Z) :
  count_below_epsilon count = bool_decide (count ≤ 0).
Proof.
  unfold count_below_epsilon, Qcompare, inject_Z; cbn.
  destruct (Z.compare_spec (count * 1000000000000) (1 * 1)) as [H | H | H];
    case_bool_decide; try reflexivity; lia.
Qed.

Lemma reset_declared_spec (now : Z) (t : timing) :
  reset_declared now t = bool_decide (now ≤ time t).
Proof.
  unfold reset_declared. rewrite count_below_epsilon_spec.
  apply bool_decide_ext. lia.
Qed.

Lemma rearm_wakeUpTime (period now : Z) (t : timing) :
  wakeUpTime (rearm period now t)
  = if reset_declared now t then now + period else wakeUpTime t + period.
Proof. unfold rearm, reset_declared; cbn. now destruct (count_below_epsilon _). Qed.

(** C3, as the code has it. In every cycle of each of the three workers a
    clock reset is declared exactly when the new reading of the clock is not
    greater than the previous one (smaller or equal); then the wake-up time
    is the new reading plus the period of the worker; otherwise it is the
    previous wake-up time plus the period. *)
Theorem workers_rearm (recordVideoPeriod now : Z) (t : timing) :
  reset_declared now t = bool_decide (now ≤ time t)
  ∧ wakeUpTime (lookForExogenousSignals_rearm now t)
    = (if bool_decide (now ≤ time t) then now + 1000000000
       else wakeUpTime t + 1000000000)
  ∧ wakeUpTime (lookForNewLogs_rearm now t)
    = (if bool_decide (now ≤ time t) then now + 2000000000
       else wakeUpTime t + 2000000000)
  ∧ wakeUpTime (recordVideo_rearm recordVideoPeriod now t)
    = (if bool_decide (now ≤ time t) then now + recordVideoPeriod
       else wakeUpTime t + recordVideoPeriod)
  ∧ time (rearm recordVideoPeriod now t) = now
  ∧ oldTime (rearm recordVideoPeriod now t) = time t.
Proof.
  unfold lookForExogenousSignals_rearm, lookForNewLogs_rearm, recordVideo_rearm.
  rewrite !rearm_wakeUpTime, reset_declared_spec.
  repeat split.
Qed.

(** C3 does not hold as stated: with a reading equal to the previous one
    (not smaller) the reset branch is taken, and the wake-up time is the
    reading plus the period, not the previous wake-up time plus the period. *)
Lemma reset_on_equal_reading :
  let t := {| time := 5000; oldTime := 3000; wakeUpTime := 7000 |} in
  (5000 <? time t) = false
  ∧ reset_declared 5000 t = true
  ∧ wakeUpTime (lookForNewLogs_rearm 5000 t) = 5000 + lookForNewLogsPeriod
  ∧ wakeUpTime (lookForNewLogs_rearm 5000 t) ≠ wakeUpTime t + lookForNewLogsPeriod.
Proof. cbn. repeat split. discriminate. Qed.

End WorkerFacts.

(** ** Discovery of the text-logging ports *)

Section LogDiscoveryFacts.

Import LogDiscovery.

Lemma extends_nil (st : state) : extends st (st, []).
Proof.
  repeat split; cbn.
  - constructor.
  - intros n Hn. inversion Hn.
  - set_solver.
Qed.

Lemma extends_app (st st1 st2 : state) (ev1 ev2 : list event) :
  extends st (st1, ev1) → extends st1 (st2, ev2) → extends st (st2, ev1 ++ ev2).
Proof.
  intros (Hd1 & Hnew1 & Hset1 & Hsub1) (Hd2 & Hnew2 & Hset2 & Hsub2); cbn in *.
  repeat split; cbn; rewrite ?fmap_app.
  - apply NoDup_app. split; [exact Hd1 | split; [| exact Hd2]].
    intros n Hn1 Hn2. apply (Hnew2 n Hn2). rewrite Hset1. set_solver.
  - intros n [Hn | Hn]%elem_of_app; [now apply Hnew1 |].
    intros Hin. apply (Hnew2 n Hn). rewrite Hset1. set_solver.
  - rewrite Hset2, Hset1, list_to_set_app_L. set_solver.
  - congruence.
Qed.

Lemma to_connect_true (st : state) (p : port) :
  to_connect st p = true →
  (name p ∉ m_textLoggingPortNames st) ∧ network_exists p = true
  ∧ String.prefix textLoggingPortPrefix (name p) = true.
Proof.
  unfold to_connect. intros H.
  apply andb_prop in H as [H Hex]. apply andb_prop in H as [H _].
  apply andb_prop in H as [Hpre Hnew]. apply bool_decide_eq_true in Hnew.
  auto.
Qed.

Lemma visit_extends (st : state) (p : port) : extends st (visit st p).
Proof.
  unfold visit. destruct (to_connect st p) eqn:Hc; [| apply extends_nil].
  apply to_connect_true in Hc as (Hnew & _).
  repeat split; cbn.
  - apply NoDup_singleton.
  - intros n ->%list_elem_of_singleton. exact Hnew.
  - set_solver.
Qed.

Lemma scan_extends (yarpPorts : list port) (st : state) : extends st (scan yarpPorts st).
Proof.
  revert st. induction yarpPorts as [| p rest IH]; intros st; cbn.
  - apply extends_nil.
  - pose proof (visit_extends st p) as Hv.
    destruct (visit st p) as [st1 ev1].
    pose proof (IH st1) as Hr. destruct (scan rest st1) as [st2 ev2].
    eapply extends_app; eassumption.
Qed.

Lemma session_extends (scans : list (list port)) (st : state) :
  extends st (session scans st).
Proof.
  revert st. induction scans as [| yarpPorts later IH]; intros st; cbn.
  - apply extends_nil.
  - pose proof (scan_extends yarpPorts st) as Hs.
    destruct (scan yarpPorts st) as [st1 ev1].
    pose proof (IH st1) as Hr. destruct (session later st1) as [st2 ev2].
    eapply extends_app; eassumption.
Qed.

Lemma connect_count_names (n : string) (evs : list event) :
  connect_count n evs = length (filter (λ m, m = n) (connected_name <$> evs)).
Proof.
  unfold connect_count. induction evs as [| e evs IH]; [reflexivity |].
  rewrite fmap_cons, !filter_cons.
  destruct (decide (connected_name e = n)); cbn; now rewrite IH.
Qed.

Lemma count_absent (n : string) (l : list string) :
  n ∉ l → length (filter (λ m, m = n) l) = 0%nat.
Proof.
  induction l as [| m l IH]; [reflexivity |].
  intros Hn. rewrite filter_cons. apply not_elem_of_cons in Hn as [Hne Hn].
  destruct (decide (m = n)); [congruence | now apply IH].
Qed.

Lemma count_NoDup (n : string) (l : list string) :
  NoDup l → (length (filter (λ m, m = n) l) ≤ 1)%nat.
Proof.
  induction 1 as [| m l Hm Hd IH]; [cbn; lia |].
  rewrite filter_cons. destruct (decide (m = n)) as [-> |]; [| exact IH].
  cbn. rewrite (count_absent n l Hm). lia.
Qed.

(** The events of a session come from ports that were listed and answered
    to [exists]. *)
Lemma visit_origin (st : state) (p : port) (n : string) (ok : bool) :
  Connect n ok ∈ (visit st p).2 →
  name p = n ∧ network_exists p = true ∧ network_connect p = ok.
Proof.
  unfold visit. destruct (to_connect st p) eqn:Hc; cbn.
  - intros [= <- <-]%list_elem_of_singleton.
    apply to_connect_true in Hc as (_ & Hex & _). auto.
  - intros H. inversion H.
Qed.

Lemma scan_origin (yarpPorts : list port) (st : state) (n : string) (ok : bool) :
  Connect n ok ∈ (scan yarpPorts st).2 →
  ∃ p, p ∈ yarpPorts ∧ name p = n ∧ network_exists p = true ∧ network_connect p = ok.
Proof.
  revert st. induction yarpPorts as [| p rest IH]; intros st; cbn.
  - intros H. inversion H.
  - pose proof (visit_origin st p n ok) as Hv.
    destruct (visit st p) as [st1 ev1]. specialize (IH st1).
    destruct (scan rest st1) as [st2 ev2]. cbn in *.
    intros [H | H]%elem_of_app.
    + exists p. split; [left | now apply Hv].
    + destruct (IH H) as (q & Hq & Hrest). exists q. split; [now right | exact Hrest].
Qed.

Lemma session_origin (scans : list (list port)) (st : state) (n : string) (ok : bool) :
  Connect n ok ∈ (session scans st).2 →
  ∃ p, p ∈ concat scans ∧ name p = n ∧ network_exists p = true ∧ network_connect p = ok.
Proof.
  revert st. induction scans as [| yarpPorts later IH]; intros st; cbn.
  - intros H. inversion H.
  - pose proof (scan_origin yarpPorts st n ok) as Hs.
    destruct (scan yarpPorts st) as [st1 ev1]. specialize (IH st1).
    destruct (session later st1) as [st2 ev2]. cbn in *.
    intros [H | H]%elem_of_app.
    + destruct (Hs H) as (q & Hq & Hrest). exists q. split; [| exact Hrest].
      apply elem_of_app. now left.
    + destruct (IH H) as (q & Hq & Hrest). exists q. split; [| exact Hrest].
      apply elem_of_app. now right.
Qed.

(** C4. Over any sequence of scans, from any state of the device, [connect]
    is invoked at most once for a name; for a name that is already in the
    set of the text-logging ports it is not invoked at all, whatever the
    later scans list; a name that was connected is in the set afterwards. *)
Theorem connect_at_most_once (scans : list (list port)) (st : state) (n : string) :
  (connect_count n (session scans st).2 ≤ 1)%nat
  ∧ (n ∈ m_textLoggingPortNames st → connect_count n (session scans st).2 = 0%nat)
  ∧ (connect_count n (session scans st).2 = 1%nat →
     n ∈ m_textLoggingPortNames (session scans st).1).
Proof.
  destruct (session_extends scans st) as (Hd & Hnew & Hset & _).
  rewrite connect_count_names. repeat split.
  - now apply count_NoDup.
  - intros Hin. apply count_absent. intros Hn. now apply (Hnew n).
  - intros Hone. rewrite Hset. apply elem_of_union_l, elem_of_list_to_set.
    destruct (decide (n ∈ connected_name <$> (session scans st).2)) as [| Hn]; [assumption |].
    apply (count_absent n) in Hn. lia.
Qed.

(** A name listed in two consecutive scans is connected once. *)
Example connect_once_in_two_scans :
  let p := {| name := "/log/walking"; network_exists := true; network_connect := true |} in
  (session [[p]; [p]] (initial [])).2 = [Connect "/log/walking" true].
Proof. reflexivity. Qed.

(** C5, as the code has it. The name of a port enters the set when the
    connection is attempted, before [connect] is called and whatever it
    returns: after any session that starts with the empty set, the members
    of the set are exactly the names [connect] was invoked for, and every
    one of them was listed by a port for which [exists] answered true. *)
Theorem membership_follows_attempt (subnames : list string) (scans : list (list port))
    (n : string) :
  (n ∈ m_textLoggingPortNames (session scans (initial subnames)).1
   ↔ ∃ ok, Connect n ok ∈ (session scans (initial subnames)).2)
  ∧ (∀ ok, Connect n ok ∈ (session scans (initial subnames)).2 →
       ∃ p, p ∈ concat scans ∧ name p = n
            ∧ network_exists p = true ∧ network_connect p = ok).
Proof.
  split; [| intros ok; apply session_origin].
  destruct (session_extends scans (initial subnames)) as (_ & _ & Hset & _).
  rewrite Hset. cbn. rewrite elem_of_union, elem_of_list_to_set, list_elem_of_fmap.
  split.
  - intros [(e & -> & He) | Hempty]; [| set_solver].
    destruct e as [m ok]. now exists ok.
  - intros [ok Hok]. left. now exists (Connect n ok).
Qed.

(** C5 does not hold as stated: a port whose connection fails is in the set
    after the scan. *)
Lemma failed_connection_is_member :
  let p := {| name := "/log/walking"; network_exists := true; network_connect := false |} in
  (scan [p] (initial [])).2 = [Connect "/log/walking" false]
  ∧ "/log/walking" ∈ m_textLoggingPortNames (scan [p] (initial [])).1.
Proof. cbn. split; [reflexivity | set_solver]. Qed.

End LogDiscoveryFacts.

(** ** Discovery of the exogenous signals *)

Section ExogenousFacts.

Import Exogenous.

Section Loop.

Context {S : Type} (body : string → S → S * list event).

Lemma connectToExogeneous_keys (signals : list (string * S)) :
  (connectToExogeneous body signals).1.*1 = signals.*1.
Proof.
  induction signals as [| [m s] rest IH]; [reflexivity |]. cbn.
  destruct (body m s) as [s1 ev1]. destruct (connectToExogeneous body rest) as [rest1 ev2].
  cbn in *. now rewrite IH.
Qed.

Lemma connectToExogeneous_binding (signals : list (string * S)) (n : string) :
  binding n (connectToExogeneous body signals).1
  = (λ s, (body n s).1) <$> binding n signals.
Proof.
  induction signals as [| [m s] rest IH]; [reflexivity |]. cbn.
  destruct (body m s) as [s1 ev1] eqn:Hb.
  destruct (connectToExogeneous body rest) as [rest1 ev2]. cbn in *.
  case_bool_decide as Hm; [| exact IH]. subst m. cbn. now rewrite Hb.
Qed.

Lemma binding_None (signals : list (string * S)) (n : string) :
  n ∉ signals.*1 → binding n signals = None.
Proof.
  induction signals as [| [m s] rest IH]; [reflexivity |]. cbn.
  intros [Hne Hn]%not_elem_of_cons. rewrite bool_decide_eq_false_2 by congruence.
  now apply IH.
Qed.

Lemma filter_none (f : event → bool) (evs : list event) :
  (∀ e, e ∈ evs → f e = false) → List.filter f evs = [].
Proof.
  induction evs as [| e evs IH]; [reflexivity |]. intros H. cbn.
  rewrite (H e) by left. apply IH. intros e' He'. apply H. now right.
Qed.

Lemma filter_all (f : event → bool) (evs : list event) :
  (∀ e, e ∈ evs → f e = true) → List.filter f evs = evs.
Proof.
  induction evs as [| e evs IH]; [reflexivity |]. intros H. cbn.
  rewrite (H e) by left. f_equal. apply IH. intros e' He'. apply H. now right.
Qed.

Lemma connectToExogeneous_foreign (f : event → bool) (signals : list (string * S)) :
  (∀ m s e, e ∈ (body m s).2 → f e = false) →
  List.filter f (connectToExogeneous body signals).2 = [].
Proof.
  intros Hf. induction signals as [| [m s] rest IH]; [reflexivity |]. cbn.
  pose proof (Hf m s) as Hms. destruct (body m s) as [s1 ev1].
  destruct (connectToExogeneous body rest) as [rest1 ev2]. cbn in *.
  rewrite List.filter_app, IH, (filter_none f ev1 Hms). reflexivity.
Qed.

Lemma connectToExogeneous_own (f : event → bool) (signals : list (string * S)) (n : string) :
  (∀ m s e, e ∈ (body m s).2 → f e = bool_decide (m = n)) →
  NoDup signals.*1 →
  List.filter f (connectToExogeneous body signals).2
  = match binding n signals with Some s => (body n s).2 | None => [] end.
Proof.
  intros Hf. induction signals as [| [m s] rest IH]; [reflexivity |].
  cbn. intros [Hm Hd]%NoDup_cons.
  pose proof (Hf m s) as Hms. destruct (body m s) as [s1 ev1] eqn:Hb.
  destruct (connectToExogeneous body rest) as [rest1 ev2]. cbn in *.
  rewrite List.filter_app, (IH Hd).
  case_bool_decide as Hmn.
  - subst m. rewrite Hb. cbn. rewrite (binding_None rest n Hm), app_nil_r.
    apply filter_all. intros e He. rewrite (Hms e He).
    try case_bool_decide; congruence.
  - rewrite filter_none; [reflexivity |].
    intros e He. rewrite (Hms e He). try case_bool_decide; congruence.
Qed.

End Loop.

Lemma connect_collection_events (net : network) (m : string) (s : VectorsCollectionSignal.t)
    (e : event) :
  e ∈ (connect_collection net m s).2 →
  (∀ n, about Collection n e = bool_decide (m = n)) ∧ (∀ n, about Vector n e = false).
Proof.
  unfold connect_collection.
  destruct (VectorsCollectionSignal.connected s); cbn; [intros H; inversion H |].
  destruct (collection_connect net m); cbn; [destruct (collection_getMetadata net m) |]; cbn;
    rewrite ?elem_of_cons, ?elem_of_nil; intros H; repeat destruct H as [H | H];
    subst; try contradiction; split; reflexivity.
Qed.

Lemma connect_vector_events (net : network) (m : string) (s : VectorSignal.t) (e : event) :
  e ∈ (connect_vector net m s).2 →
  (∀ n, about Vector n e = bool_decide (m = n)) ∧ (∀ n, about Collection n e = false)
  ∧ is_negotiation e = false.
Proof.
  unfold connect_vector.
  destruct (VectorSignal.connected s); cbn; [intros H; inversion H |].
  intros ->%list_elem_of_singleton. repeat split.
Qed.

(** In a cycle, the events of a binding are those of its own visit. *)
Lemma cycle_collection (net : network) (st : state) (n : string) :
  NoDup (m_vectorsCollectionSignals st).*1 →
  (m_vectorsCollectionSignals (cycle net st).1).*1 = (m_vectorsCollectionSignals st).*1
  ∧ binding n (m_vectorsCollectionSignals (cycle net st).1)
    = (λ s, (connect_collection net n s).1) <$> binding n (m_vectorsCollectionSignals st)
  ∧ List.filter (about Collection n) (cycle net st).2
    = match binding n (m_vectorsCollectionSignals st) with
      | Some s => (connect_collection net n s).2
      | None => []
      end.
Proof.
  intros Hd. unfold cycle.
  pose proof (connectToExogeneous_keys (connect_collection net) (m_vectorsCollectionSignals st)) as Hk.
  pose proof (connectToExogeneous_binding (connect_collection net) (m_vectorsCollectionSignals st) n) as Hb.
  pose proof (connectToExogeneous_own (connect_collection net) (about Collection n)
                (m_vectorsCollectionSignals st) n) as Ho.
  pose proof (connectToExogeneous_foreign (connect_vector net) (about Collection n)
                (m_vectorSignals st)) as Hf.
  destruct (connectToExogeneous (connect_collection net) _) as [cs ev1].
  destruct (connectToExogeneous (connect_vector net) _) as [vs ev2]. cbn in *.
  split; [exact Hk | split; [exact Hb |]].
  rewrite List.filter_app, Hf, app_nil_r.
  - apply Ho; [| exact Hd]. intros m s e He. now apply (connect_collection_events net m s e He).
  - intros m s e He. now apply (connect_vector_events net m s e He).
Qed.

Lemma cycle_vector (net : network) (st : state) (n : string) :
  NoDup (m_vectorSignals st).*1 →
  (m_vectorSignals (cycle net st).1).*1 = (m_vectorSignals st).*1
  ∧ binding n (m_vectorSignals (cycle net st).1)
    = (λ s, (connect_vector net n s).1) <$> binding n (m_vectorSignals st)
  ∧ List.filter (about Vector n) (cycle net st).2
    = match binding n (m_vectorSignals st) with
      | Some s => (connect_vector net n s).2
      | None => []
      end.
Proof.
  intros Hd. unfold cycle.
  pose proof (connectToExogeneous_keys (connect_vector net) (m_vectorSignals st)) as Hk.
  pose proof (connectToExogeneous_binding (connect_vector net) (m_vectorSignals st) n) as Hb.
  pose proof (connectToExogeneous_own (connect_vector net) (about Vector n)
                (m_vectorSignals st) n) as Ho.
  pose proof (connectToExogeneous_foreign (connect_collection net) (about Vector n)
                (m_vectorsCollectionSignals st)) as Hf.
  destruct (connectToExogeneous (connect_collection net) _) as [cs ev1].
  destruct (connectToExogeneous (connect_vector net) _) as [vs ev2]. cbn in *.
  split; [exact Hk | split; [exact Hb |]].
  rewrite List.filter_app, Hf; cbn.
  - apply Ho; [| exact Hd]. intros m s e He. now apply (connect_vector_events net m s e He).
  - intros m s e He. now apply (connect_collection_events net m s e He).
Qed.

(** Over a session, a binding goes through its own visits. *)
Lemma session_collection (nets : list network) (st : state) (n : string)
    (s : VectorsCollectionSignal.t) :
  NoDup (m_vectorsCollectionSignals st).*1 →
  binding n (m_vectorsCollectionSignals st) = Some s →
  binding n (m_vectorsCollectionSignals (session nets st).1)
  = Some (follow connect_collection nets n s).1
  ∧ map (List.filter (about Collection n)) (session nets st).2
    = (follow connect_collection nets n s).2.
Proof.
  revert st s. induction nets as [| net later IH]; intros st s Hd Hs; cbn.
  - auto.
  - destruct (cycle_collection net st n Hd) as (Hk & Hb & He).
    destruct (cycle net st) as [st1 ev]. cbn in *.
    rewrite Hs in Hb, He. cbn in Hb.
    destruct (connect_collection net n s) as [s1 ev1]. cbn in *.
    assert (Hd1 : NoDup (m_vectorsCollectionSignals st1).*1) by now rewrite Hk.
    specialize (IH st1 s1 Hd1 Hb).
    destruct (session later st1) as [st2 evs].
    destruct (follow connect_collection later n s1) as [s2 evs']. cbn in *.
    destruct IH as [IH1 IH2]. split; [exact IH1 | now rewrite He, IH2].
Qed.

Lemma session_vector (nets : list network) (st : state) (n : string) (s : VectorSignal.t) :
  NoDup (m_vectorSignals st).*1 →
  binding n (m_vectorSignals st) = Some s →
  binding n (m_vectorSignals (session nets st).1)
  = Some (follow connect_vector nets n s).1
  ∧ map (List.filter (about Vector n)) (session nets st).2
    = (follow connect_vector nets n s).2.
Proof.
  revert st s. induction nets as [| net later IH]; intros st s Hd Hs; cbn.
  - auto.
  - destruct (cycle_vector net st n Hd) as (Hk & Hb & He).
    destruct (cycle net st) as [st1 ev]. cbn in *.
    rewrite Hs in Hb, He. cbn in Hb.
    destruct (connect_vector net n s) as [s1 ev1]. cbn in *.
    assert (Hd1 : NoDup (m_vectorSignals st1).*1) by now rewrite Hk.
    specialize (IH st1 s1 Hd1 Hb).
    destruct (session later st1) as [st2 evs].
    destruct (follow connect_vector later n s1) as [s2 evs']. cbn in *.
    destruct IH as [IH1 IH2]. split; [exact IH1 | now rewrite He, IH2].
Qed.

Lemma follow_collection_connected (nets : list network) (n : string)
    (s : VectorsCollectionSignal.t) :
  VectorsCollectionSignal.connected s = true →
  follow connect_collection nets n s = (s, replicate (length nets) []).
Proof.
  intros Hc. induction nets as [| net later IH]; [reflexivity |].
  cbn. unfold connect_collection at 1. rewrite Hc, IH. reflexivity.
Qed.

Lemma follow_vector_connected (nets : list network) (n : string) (s : VectorSignal.t) :
  VectorSignal.connected s = true →
  follow connect_vector nets n s = (s, replicate (length nets) []).
Proof.
  intros Hc. induction nets as [| net later IH]; [reflexivity |].
  cbn. unfold connect_vector at 1. rewrite Hc, IH. reflexivity.
Qed.

Lemma follow_collection_fresh (nets : list network) (n : string)
    (s : VectorsCollectionSignal.t) :
  VectorsCollectionSignal.connected s = false →
  collection_history n s (follow connect_collection nets n s).
Proof.
  revert s. induction nets as [| net later IH]; intros s Hc.
  - left. exists 0%nat. cbn. auto.
  - cbn. unfold connect_collection at 1. rewrite Hc.
    destruct (collection_connect net n) eqn:Hok; cbn.
    + destruct (collection_getMetadata net n) as [md |] eqn:Hmd;
        rewrite follow_collection_connected by reflexivity;
        right; [exists 0%nat, true, (length later) | exists 0%nat, false, (length later)];
        cbn; repeat split; auto; discriminate.
    + match goal with |- context [follow _ later n ?s1] =>
        specialize (IH s1 eq_refl); destruct (follow connect_collection later n s1) as [s2 evs]
      end.
      destruct IH as [(k & He & Hc2 & Hm) | (k & ok & j & He & Hc2 & Hm)]; cbn in *.
      * left. exists (Datatypes.S k). subst evs. cbn. auto.
      * right. exists (Datatypes.S k), ok, j. subst evs. cbn. auto.
Qed.

Lemma follow_vector_fresh (nets : list network) (n : string) (s : VectorSignal.t) :
  VectorSignal.connected s = false →
  vector_history n (follow connect_vector nets n s).
Proof.
  revert s. induction nets as [| net later IH]; intros s Hc.
  - left. exists 0%nat. cbn. auto.
  - cbn. unfold connect_vector at 1. rewrite Hc.
    destruct (vector_connect net n) eqn:Hok; cbn.
    + rewrite follow_vector_connected by reflexivity.
      right. exists 0%nat, (length later). cbn. auto.
    + match goal with |- context [follow _ later n ?s1] =>
        specialize (IH s1 eq_refl); destruct (follow connect_vector later n s1) as [s2 evs]
      end.
      destruct IH as [(k & He & Hc2) | (k & j & He & Hc2)]; cbn in *.
      * left. exists (Datatypes.S k). subst evs. cbn. auto.
      * right. exists (Datatypes.S k), j. subst evs. cbn. auto.
Qed.

(** A negotiation in a session is the negotiation of a vectors collection. *)
Lemma connectToExogeneous_keys_of_events {S : Type} (body : string → S → S * list event)
    (P : string → event → Prop) (signals : list (string * S)) (e : event) :
  (∀ m s e, e ∈ (body m s).2 → P m e) →
  e ∈ (connectToExogeneous body signals).2 → ∃ m, m ∈ signals.*1 ∧ P m e.
Proof.
  intros HP. induction signals as [| [m s] rest IH]; cbn.
  - intros H. inversion H.
  - pose proof (HP m s e) as Hms. destruct (body m s) as [s1 ev1].
    destruct (connectToExogeneous body rest) as [rest1 ev2]. cbn in *.
    intros [H | H]%elem_of_app.
    + exists m. split; [left | auto].
    + destruct (IH H) as (m' & Hm' & HPm'). exists m'. split; [now right | exact HPm'].
Qed.

Lemma cycle_negotiation (net : network) (st : state) (n : string) (ok : bool) :
  GetMetadata n ok ∈ (cycle net st).2 → n ∈ (m_vectorsCollectionSignals st).*1.
Proof.
  unfold cycle.
  pose proof (connectToExogeneous_keys_of_events (connect_collection net)
                (λ m e, about Collection m e = true)
                (m_vectorsCollectionSignals st) (GetMetadata n ok)) as Hc.
  pose proof (connectToExogeneous_keys_of_events (connect_vector net)
                (λ m e, is_negotiation e = false)
                (m_vectorSignals st) (GetMetadata n ok)) as Hv.
  destruct (connectToExogeneous (connect_collection net) _) as [cs ev1].
  destruct (connectToExogeneous (connect_vector net) _) as [vs ev2]. cbn in *.
  intros [H | H]%elem_of_app.
  - destruct Hc as (m & Hm & Habout); [| exact H |].
    + intros m s e He. destruct (connect_collection_events net m s e He) as [-> _].
      now apply bool_decide_eq_true_2.
    + cbn in Habout. apply bool_decide_eq_true in Habout. now subst.
  - destruct Hv as (m & Hm & Hneg); [| exact H | discriminate].
    intros m s e He. now apply (connect_vector_events net m s e He).
Qed.

Lemma session_negotiation (nets : list network) (st : state) (n : string) (ok : bool) :
  GetMetadata n ok ∈ concat (session nets st).2 → n ∈ (m_vectorsCollectionSignals st).*1.
Proof.
  revert st. induction nets as [| net later IH]; intros st; cbn.
  - intros H. inversion H.
  - pose proof (cycle_negotiation net st n ok) as Hc.
    pose proof (connectToExogeneous_keys (connect_collection net) (m_vectorsCollectionSignals st)) as Hk.
    assert (Hk' : (m_vectorsCollectionSignals (cycle net st).1).*1
                  = (m_vectorsCollectionSignals st).*1).
    { unfold cycle. destruct (connectToExogeneous (connect_collection net) _).
      destruct (connectToExogeneous (connect_vector net) _). exact Hk. }
    destruct (cycle net st) as [st1 ev]. specialize (IH st1).
    destruct (session later st1) as [st2 evs]. cbn in *.
    intros [H | H]%elem_of_app; [auto |]. rewrite <- Hk'. auto.
Qed.

(** C7, as the code has it. Over a whole session and for a binding that
    starts unconnected: a connection is attempted once in every cycle until
    the first success, and never after it (a connected binding is skipped in
    every later cycle). For a vectors collection binding the metadata is
    asked for exactly once, in the cycle of the successful connection, and a
    failed negotiation leaves the binding connected with the metadata it
    had. For a vector signal binding no negotiation is ever attempted. *)
Theorem exogenous_binding_history (nets : list network) (st : state) (n : string) :
  NoDup (m_vectorsCollectionSignals st).*1 →
  NoDup (m_vectorSignals st).*1 →
  (∀ s, binding n (m_vectorsCollectionSignals st) = Some s →
        VectorsCollectionSignal.connected s = false →
        ∃ s', binding n (m_vectorsCollectionSignals (session nets st).1) = Some s'
              ∧ collection_history n s
                  (s', map (List.filter (about Collection n)) (session nets st).2))
  ∧ (∀ s, binding n (m_vectorSignals st) = Some s →
          VectorSignal.connected s = false →
          ∃ s', binding n (m_vectorSignals (session nets st).1) = Some s'
                ∧ vector_history n
                    (s', map (List.filter (about Vector n)) (session nets st).2))
  ∧ (∀ s, binding n (m_vectorsCollectionSignals st) = Some s →
          VectorsCollectionSignal.connected s = true →
          binding n (m_vectorsCollectionSignals (session nets st).1) = Some s
          ∧ map (List.filter (about Collection n)) (session nets st).2
            = replicate (length nets) [])
  ∧ (∀ s, binding n (m_vectorSignals st) = Some s →
          VectorSignal.connected s = true →
          binding n (m_vectorSignals (session nets st).1) = Some s
          ∧ map (List.filter (about Vector n)) (session nets st).2
            = replicate (length nets) [])
  ∧ (n ∉ (m_vectorsCollectionSignals st).*1 →
     ∀ ok, GetMetadata n ok ∉ concat (session nets st).2).
Proof.
  intros Hdc Hdv. repeat split.
  - intros s Hs Hc. destruct (session_collection nets st n s Hdc Hs) as [Hb He].
    eexists. split; [exact Hb |]. rewrite He.
    pose proof (follow_collection_fresh nets n s Hc) as H.
    now destruct (follow connect_collection nets n s).
  - intros s Hs Hc. destruct (session_vector nets st n s Hdv Hs) as [Hb He].
    eexists. split; [exact Hb |]. rewrite He.
    pose proof (follow_vector_fresh nets n s Hc) as H.
    now destruct (follow connect_vector nets n s).
  - destruct (session_collection nets st n s Hdc H) as [Hb _].
    now rewrite Hb, follow_collection_connected.
  - destruct (session_collection nets st n s Hdc H) as [_ He].
    now rewrite He, follow_collection_connected.
  - destruct (session_vector nets st n s Hdv H) as [Hb _].
    now rewrite Hb, follow_vector_connected.
  - destruct (session_vector nets st n s Hdv H) as [_ He].
    now rewrite He, follow_vector_connected.
  - intros Hn ok Hin. apply Hn. eapply session_negotiation. exact Hin.
Qed.

Lemma exogenous_binding_history_witness :
  let fresh :=
    {| VectorsCollectionSignal.connected := false;
       VectorsCollectionSignal.signalName := "exogenous";
       VectorsCollectionSignal.metadata := ∅ |} in
  let st := {| m_vectorsCollectionSignals := [("c", fresh)]; m_vectorSignals := [] |} in
  let down :=
    {| collection_connect := λ _, false;
       collection_getMetadata := λ _, None;
       vector_connect := λ _, false |} in
  let up :=
    {| collection_connect := λ _, true;
       collection_getMetadata := λ _, None;
       vector_connect := λ _, true |} in
  ∃ s', binding "c" (m_vectorsCollectionSignals (session [down; up; up] st).1) = Some s'
        ∧ collection_history "c" fresh
            (s', map (List.filter (about Collection "c")) (session [down; up; up] st).2).
Proof.
  intros fresh st down up.
  assert (Hdc : NoDup (m_vectorsCollectionSignals st).*1) by apply NoDup_singleton.
  assert (Hdv : NoDup (m_vectorSignals st).*1) by apply NoDup_nil_2.
  destruct (exogenous_binding_history [down; up; up] st "c" Hdc Hdv) as [Hc _].
  apply (Hc fresh); reflexivity.
Defined.

(** C7 does not hold as stated for every binding: a vector signal that
    connects in the first cycle is connected afterwards, and no negotiation
    of metadata takes place in the session. *)
Lemma vector_signal_never_negotiates :
  let v :=
    {| VectorSignal.connected := false;
       VectorSignal.signalName := "exogenous";
       VectorSignal.dataArrived := false |} in
  let st := {| m_vectorsCollectionSignals := []; m_vectorSignals := [("v", v)] |} in
  let up :=
    {| collection_connect := λ _, true;
       collection_getMetadata := λ _, None;
       vector_connect := λ _, true |} in
  (session [up; up] st).2 = [[Connect Vector "v" true]; []]
  ∧ VectorSignal.connected <$> binding "v" (m_vectorSignals (session [up; up] st).1)
    = Some true
  ∧ List.filter is_negotiation (concat (session [up; up] st).2) = [].
Proof. repeat split. Qed.

End ExogenousFacts.

(** ** The save callback *)

Section SaveCallbackFacts.

Import SaveCallback.

Lemma bind_run {A B : Type} (m : M A) (k : A → M B) (w : gmap string VideoWriter) :
  (m ≫= k) w
  = match m w with
    | (w1, ev1, Next a) => match k a w1 with (w2, ev2, f) => (w2, ev1 ++ ev2, f) end
    | (w1, ev1, Exit r) => (w1, ev1, Exit r)
    end.
Proof. reflexivity. Qed.

Lemma bind_Next_inv {A B : Type} (m : M A) (k : A → M B) (w w2 : gmap string VideoWriter)
    (evs : list event) (b : B) :
  (m ≫= k) w = (w2, evs, Next b) →
  ∃ w1 ev1 a ev2, m w = (w1, ev1, Next a) ∧ k a w1 = (w2, ev2, Next b) ∧ evs = ev1 ++ ev2.
Proof.
  rewrite bind_run. destruct (m w) as [[w1 ev1] [a | r]]; [| discriminate].
  destruct (k a w1) as [[w2' ev2] f] eqn:Hk. intros [= -> <- ->].
  now exists w1, ev1, a, ev2.
Qed.

Lemma bind_assoc {A B C : Type} (m : M A) (k : A → M B) (h : B → M C)
    (w : gmap string VideoWriter) :
  ((m ≫= k) ≫= h) w = (m ≫= λ a, k a ≫= h) w.
Proof.
  rewrite !bind_run. destruct (m w) as [[w1 ev1] [a | r]]; [| reflexivity].
  rewrite bind_run. destruct (k a w1) as [[w2 ev2] [b | r]]; [| reflexivity].
  destruct (h b w2) as [[w3 ev3] f]. now rewrite app_assoc.
Qed.

Lemma leaves_ret {A : Type} (a : A) : leaves_with_failure (ret a).
Proof. intros w w1 evs r. discriminate. Qed.

Lemma leaves_emit (e : event) : leaves_with_failure (emit e).
Proof. intros w w1 evs r. discriminate. Qed.

Lemma leaves_leave {A : Type} (r : outcome) :
  r ≠ Returned true → leaves_with_failure (@leave A r).
Proof. intros Hr w w1 evs r'. unfold leave. now intros [= _ _ <-]. Qed.

Lemma leaves_subscript (c : string) : leaves_with_failure (subscript c).
Proof. intros w w1 evs r. unfold subscript. destruct (w !! c); discriminate. Qed.

Lemma leaves_bind {A B : Type} (m : M A) (k : A → M B) :
  leaves_with_failure m → (∀ a, leaves_with_failure (k a)) →
  leaves_with_failure (m ≫= k).
Proof.
  intros Hm Hk w w2 evs r. rewrite bind_run.
  destruct (m w) as [[w1 ev1] [a | r1]] eqn:Hmw.
  - destruct (k a w1) as [[w2' ev2] f] eqn:Hkw. intros [= -> <- ->].
    eapply Hk. exact Hkw.
  - intros [= -> <- ->]. eapply Hm. exact Hmw.
Qed.

Create HintDb callback.
#[local] Hint Resolve leaves_ret leaves_emit leaves_subscript : callback.
#[local] Hint Extern 1 (leaves_with_failure (leave _)) =>
  apply leaves_leave; discriminate : callback.
#[local] Hint Extern 2 (leaves_with_failure (_ ≫= _)) =>
  apply leaves_bind; [| intros ?] : callback.
#[local] Hint Extern 3 (leaves_with_failure (match ?x with _ => _ end)) =>
  destruct x : callback.

Section Callback.

Context (fileName : string) (method : SaveCallbackSaveMethod)
        (fs : filesystem) (dev : device).

Lemma leaves_saveVideo (saver : option ImageSaver) (c t : string) :
  leaves_with_failure (saveVideo fileName fs saver c t).
Proof. unfold saveVideo. auto 10 with callback. Qed.

Lemma leaves_openVideoWriter (saver : option ImageSaver) (m : member) (c t : string)
    (dims : gmap string (nat * nat)) :
  leaves_with_failure (openVideoWriter saver m c t dims).
Proof.
  unfold openVideoWriter. destruct saver; [| auto with callback].
  intros w w1 evs r. destruct (dims !! c), (w !! c); discriminate.
Qed.

Lemma leaves_createFramesFolder (saver : option ImageSaver) (c t : string) :
  leaves_with_failure (createFramesFolder fs saver c t).
Proof. unfold createFramesFolder. auto 10 with callback. Qed.

Lemma leaves_or_return_false (call : M bool) :
  leaves_with_failure call → leaves_with_failure (or_return_false call).
Proof. intros H. unfold or_return_false. auto 10 with callback. Qed.

Lemma leaves_reopen (m : member) (c t : string) (dims : gmap string (nat * nat)) :
  leaves_with_failure (reopen fs m c t dims).
Proof.
  pose proof leaves_or_return_false. pose proof leaves_openVideoWriter.
  pose proof leaves_createFramesFolder.
  unfold reopen, saveMode_of. auto 12 with callback.
Qed.

Lemma leaves_rgb_iteration (c : string) :
  leaves_with_failure (rgb_iteration fileName method fs dev c).
Proof.
  pose proof leaves_or_return_false. pose proof leaves_saveVideo. pose proof leaves_reopen.
  unfold rgb_iteration. auto 12 with callback.
Qed.

Lemma leaves_rgbd_iteration (c : string) :
  leaves_with_failure (rgbd_iteration fileName method fs dev c).
Proof.
  pose proof leaves_or_return_false. pose proof leaves_saveVideo. pose proof leaves_reopen.
  unfold rgbd_iteration. auto 16 with callback.
Qed.

Lemma leaves_for_each (cameras : list string) (body : string → M unit) :
  (∀ c, leaves_with_failure (body c)) → leaves_with_failure (for_each cameras body).
Proof.
  intros Hbody. induction cameras as [| c rest IH]; cbn; auto with callback.
Qed.

Lemma leaves_saveCallback_body :
  leaves_with_failure (saveCallback_body fileName method fs dev).
Proof.
  pose proof leaves_for_each. pose proof leaves_rgb_iteration.
  pose proof leaves_rgbd_iteration.
  unfold saveCallback_body. auto 12 with callback.
Qed.

Lemma for_each_app (pre rest : list string) (body : string → M unit)
    (w : gmap string VideoWriter) :
  for_each (pre ++ rest) body w = (for_each pre body ≫= λ _, for_each rest body) w.
Proof.
  revert w. induction pre as [| c pre IH]; intros w; cbn.
  - rewrite bind_run. cbn. now destruct (for_each rest body w) as [[w2 ev2] f].
  - rewrite bind_assoc, !bind_run. destruct (body c w) as [[w1 ev1] [[] | r]]; [| reflexivity].
    now rewrite IH.
Qed.

(** A loop that leaves at an iteration has run the iterations before it and
    none after it. *)
Lemma for_each_exit (pre post : list string) (c : string) (body : string → M unit)
    (w w1 w2 : gmap string VideoWriter) (ev_pre ev_c : list event) (r : outcome) :
  for_each pre body w = (w1, ev_pre, Next tt) →
  body c w1 = (w2, ev_c, Exit r) →
  for_each (pre ++ c :: post) body w = (w2, ev_pre ++ ev_c, Exit r).
Proof.
  intros Hpre Hc. rewrite for_each_app, bind_run, Hpre. cbn.
  rewrite bind_run, Hc. reflexivity.
Qed.

Lemma finalized_app_l (c t : string) (ev1 ev2 : list event) :
  finalized c t ev1 → finalized c t (ev1 ++ ev2).
Proof. intros [new H]. exists new. rewrite !elem_of_app. tauto. Qed.

Lemma finalized_app_r (c t : string) (ev1 ev2 : list event) :
  finalized c t ev2 → finalized c t (ev1 ++ ev2).
Proof. intros [new H]. exists new. rewrite !elem_of_app. tauto. Qed.

Lemma saveVideo_true (saver : option ImageSaver) (c t : string)
    (w w1 : gmap string VideoWriter) (evs : list event) :
  saveVideo fileName fs saver c t w = (w1, evs, Next true) → finalized c t evs.
Proof.
  unfold saveVideo. destruct saver as [[mode held] |]; [| discriminate].
  destruct mode, held; cbn; rewrite !bind_run; cbn; try discriminate.
  - destruct (rename_succeeds fs _ _); cbn; [| discriminate].
    intros [= <- <-]. eexists. right. cbn. rewrite !elem_of_cons. right. left. reflexivity.
  - destruct (rename_succeeds fs _ _); cbn; [| discriminate].
    intros [= <- <-]. eexists. left. cbn. rewrite !elem_of_cons. left. reflexivity.
  - destruct (rename_succeeds fs _ _); cbn; [| discriminate].
    intros [= <- <-]. eexists. left. cbn. rewrite !elem_of_cons. left. reflexivity.
Qed.

Lemma or_return_false_Next (call : M bool) (w w1 : gmap string VideoWriter)
    (evs : list event) (u : unit) :
  or_return_false call w = (w1, evs, Next u) → call w = (w1, evs, Next true).
Proof.
  unfold or_return_false. rewrite bind_run.
  destruct (call w) as [[w' ev] [[] | r]]; cbn; try discriminate.
  intros [= <- <-]. now rewrite app_nil_r.
Qed.

(** An iteration that goes on has renamed the artifact of its camera. *)
Lemma rgb_iteration_Next (c : string) (w w1 : gmap string VideoWriter) (evs : list event)
    (u : unit) :
  rgb_iteration fileName method fs dev c w = (w1, evs, Next u) → finalized c "rgb" evs.
Proof.
  unfold rgb_iteration. intros H.
  apply bind_Next_inv in H as (wa & eva & v & evb & Hsub & H & ->).
  apply bind_Next_inv in H as (wb & evc & u' & evd & Hsave & _ & ->).
  apply or_return_false_Next, saveVideo_true in Hsave.
  now apply finalized_app_r, finalized_app_l.
Qed.

Lemma rgbd_iteration_Next (c : string) (w w1 : gmap string VideoWriter) (evs : list event)
    (u : unit) :
  rgbd_iteration fileName method fs dev c w = (w1, evs, Next u) →
  finalized c "rgb" evs ∧ finalized c "depth" evs.
Proof.
  unfold rgbd_iteration. intros H.
  apply bind_Next_inv in H as (wa & eva & v & evb & Hsub & H & ->).
  apply bind_Next_inv in H as (wb & evc & u' & evd & Hrgb & H & ->).
  apply bind_Next_inv in H as (wc & eve & v' & evf & Hsub' & H & ->).
  apply bind_Next_inv in H as (wd & evg & u'' & evh & Hdepth & _ & ->).
  apply or_return_false_Next, saveVideo_true in Hrgb, Hdepth.
  split.
  - now apply finalized_app_r, finalized_app_l.
  - now apply finalized_app_r, finalized_app_r, finalized_app_r, finalized_app_l.
Qed.

Lemma for_each_Next (P : string → list event → Prop) (body : string → M unit)
    (cameras : list string) (w w1 : gmap string VideoWriter) (evs : list event) (u : unit) :
  (∀ c ev1 ev2, P c ev1 → P c (ev1 ++ ev2)) →
  (∀ c ev1 ev2, P c ev2 → P c (ev1 ++ ev2)) →
  (∀ c w w1 evs u, body c w = (w1, evs, Next u) → P c evs) →
  for_each cameras body w = (w1, evs, Next u) →
  ∀ c, c ∈ cameras → P c evs.
Proof.
  intros Hl Hr Hbody. revert w evs. induction cameras as [| c0 rest IH]; intros w evs H c Hc.
  - inversion Hc.
  - cbn in H. apply bind_Next_inv in H as (wa & eva & v & evb & Hc0 & Hrest & ->).
    apply elem_of_cons in Hc as [-> | Hc].
    + apply Hl. eapply Hbody. exact Hc0.
    + apply Hr. eapply IH; eassumption.
Qed.

(** *** The steps of an iteration, by what can fail *)

Lemma renames_app (a b : list event) : renames (a ++ b) = renames a ++ renames b.
Proof.
  induction a as [| e a IH]; [reflexivity |]. destruct e; cbn; now rewrite ?IH.
Qed.

Lemma subscript_run (c : string) (w : gmap string VideoWriter) :
  subscript c w = (<[c := at_camera w c]> w, [], Next (at_camera w c)).
Proof.
  unfold subscript, at_camera. destruct (w !! c) as [v |] eqn:Hv; cbn; [| reflexivity].
  now rewrite insert_id.
Qed.

Lemma at_camera_insert (c c' : string) (v : VideoWriter) (w : gmap string VideoWriter) :
  at_camera (<[c := v]> w) c' = if decide (c = c') then v else at_camera w c'.
Proof. unfold at_camera. rewrite lookup_insert. now case_decide. Qed.

Lemma at_camera_touched (c c' : string) (w : gmap string VideoWriter) :
  at_camera (<[c := at_camera w c]> w) c' = at_camera w c'.
Proof. rewrite at_camera_insert. case_decide; congruence. Qed.

(** The finalization of a stream: [saveVideo] and the test of its result. *)
Lemma finalize_run (saver : option ImageSaver) (c t : string) (w : gmap string VideoWriter) :
  ∃ evs fl,
    or_return_false (saveVideo fileName fs saver c t) w = (w, evs, fl)
    ∧ Forall (λ e, is_CodeStatus e = false) evs
    ∧ match finalization_failure fileName fs saver c t with
      | Some f => fl = Exit (outcome_of f) ∧ renames evs = []
      | None => fl = Next tt ∧ renames evs = rename_of fileName saver c t
      end.
Proof.
  unfold or_return_false, saveVideo, finalization_failure, rename_of, artifact, archive.
  destruct saver as [[mode held] |]; [| eexists _, _; cbn; split_and!; [reflexivity | constructor | reflexivity | reflexivity]].
  destruct mode, held; cbn [saveMode writer negb]; rewrite !bind_run; cbn;
    try (eexists _, _; split_and!; [reflexivity | constructor | reflexivity | reflexivity]);
    destruct (rename_succeeds fs _ _); cbn;
    eexists _, _; split_and!; try reflexivity; repeat constructor.
Qed.

(** The re-opening of a stream. *)
Lemma reopen_run (m : member) (c t : string) (dims : gmap string (nat * nat))
    (w : gmap string VideoWriter) :
  ∃ w' evs fl,
    reopen fs m c t dims w = (w', evs, fl)
    ∧ Forall (λ e, is_CodeStatus e = false) evs
    ∧ renames evs = []
    ∧ match reopening_failure fs (saver_of m (at_camera w c)) dims c t with
      | Some f => fl = Exit (outcome_of f)
      | None =>
          fl = Next tt
          ∧ (∀ c', c' ≠ c → at_camera w' c' = at_camera w c')
          ∧ (∀ m', m' ≠ m → saver_of m' (at_camera w' c) = saver_of m' (at_camera w c))
          ∧ ∃ s s', saver_of m (at_camera w c) = Some s
                    ∧ saver_of m (at_camera w' c) = Some s'
                    ∧ saveMode s' = saveMode s
                    ∧ (saveMode s = Video → writer s' = true ∧ is_Some (dims !! c))
      end.
Proof.
  unfold reopen, reopening_failure. rewrite bind_run, subscript_run.
  destruct (saver_of m (at_camera w c)) as [s |] eqn:Hs;
    [| eexists _, _, _; cbn; split_and!; try reflexivity; constructor].
  cbn [saveMode_of]. rewrite bind_run. cbn [ret].
  destruct (saveMode s) eqn:Hmode.
  - rewrite bind_run, subscript_run, at_camera_touched, Hs.
    unfold or_return_false, openVideoWriter. rewrite bind_run.
    destruct (dims !! c) as [d |] eqn:Hd; cbn beta iota.
    + rewrite lookup_insert_eq. cbn.
      eexists _, _, _. split_and!; try reflexivity; [repeat constructor | | |].
      * intros c' Hc'. now rewrite !at_camera_insert, !decide_False by congruence.
      * intros m' Hm'. rewrite !at_camera_insert, decide_True by reflexivity.
        destruct m, m'; try congruence; reflexivity.
      * eexists s, _. split_and!; [reflexivity | | | intros _; split; [| eauto]].
        -- rewrite !at_camera_insert, decide_True by reflexivity.
           destruct m; reflexivity.
        -- reflexivity.
        -- reflexivity.
    + eexists _, _, _. split_and!; try reflexivity; constructor.
  - rewrite bind_run, subscript_run, at_camera_touched, Hs.
    unfold or_return_false, createFramesFolder, artifact. rewrite bind_run.
    destruct (create_directory_succeeds fs _); cbn.
    + eexists _, _, _. split_and!; try reflexivity; [repeat constructor | | |].
      * intros c' Hc'. now rewrite !at_camera_insert, !decide_False by congruence.
      * intros m' _. now rewrite at_camera_insert, decide_True by reflexivity.
      * exists s, s. rewrite at_camera_insert, decide_True by reflexivity.
        split_and!; try done. intros H. congruence.
    + eexists _, _, _. split_and!; try reflexivity; constructor.
Qed.

Lemma firstn_rename_of (n : nat) (saver : option ImageSaver) (c t : string) :
  firstn (S n) (rename_of fileName saver c t) = rename_of fileName saver c t.
Proof. destruct saver; cbn; [now rewrite firstn_nil | reflexivity]. Qed.

Lemma bind_subscript {B : Type} (c : string) (k : VideoWriter → M B)
    (w : gmap string VideoWriter) :
  (subscript c ≫= k) w = k (at_camera w c) (<[c := at_camera w c]> w).
Proof.
  rewrite bind_run, subscript_run.
  now destruct (k (at_camera w c) (<[c := at_camera w c]> w)) as [[w2 ev2] f].
Qed.

Lemma at_camera_same (c : string) (v : VideoWriter) (w : gmap string VideoWriter) :
  at_camera (<[c := v]> w) c = v.
Proof. now rewrite at_camera_insert, decide_True. Qed.

(** The iteration of an RGB camera ends by its first failure, having made
    the renames before it; it goes on when nothing fails. *)
Lemma rgb_iteration_run (c : string) (w : gmap string VideoWriter) :
  ∃ w' evs fl,
    rgb_iteration fileName method fs dev c w = (w', evs, fl)
    ∧ Forall (λ e, is_CodeStatus e = false) evs
    ∧ match rgb_failure fileName method fs dev (at_camera w c) c with
      | Some (f, k) =>
          fl = Exit (outcome_of f)
          ∧ renames evs = firstn k (rgb_renames fileName (at_camera w c) c)
      | None => fl = Next tt ∧ renames evs = rgb_renames fileName (at_camera w c) c
      end.
Proof.
  unfold rgb_iteration, rgb_failure, rgb_renames. rewrite bind_subscript.
  set (v := at_camera w c). set (w0 := <[c := v]> w). rewrite bind_run.
  destruct (finalize_run (rgb v) c "rgb" w0) as (ev1 & fl1 & -> & Hcs1 & Hf1).
  destruct (finalization_failure fileName fs (rgb v) c "rgb") as [f |].
  { destruct Hf1 as [-> Hr]. eexists _, _, _. split_and!; [reflexivity | exact Hcs1 | reflexivity | exact Hr]. }
  destruct Hf1 as [-> Hr]. destruct method.
  - destruct (reopen_run rgb_saver c "rgb" (rgbImgDimensions dev) w0)
      as (w' & ev2 & fl2 & -> & Hcs2 & Hr2 & Hf2).
    unfold w0 in Hf2. rewrite at_camera_same in Hf2. cbn [saver_of] in Hf2.
    assert (Hren : renames (ev1 ++ ev2) = rename_of fileName (rgb v) c "rgb")
      by (now rewrite renames_app, Hr, Hr2, app_nil_r).
    destruct (reopening_failure fs (rgb v) (rgbImgDimensions dev) c "rgb") as [f |].
    + subst fl2. eexists _, _, _.
      split_and!; [reflexivity | now apply Forall_app | reflexivity |].
      now rewrite firstn_rename_of.
    + destruct Hf2 as (-> & _). eexists _, _, _.
      split_and!; [reflexivity | now apply Forall_app | reflexivity | exact Hren].
  - cbn. eexists _, _, _. rewrite app_nil_r.
    split_and!; [reflexivity | exact Hcs1 | reflexivity | exact Hr].
Qed.

(** The same for an RGBD camera. *)
Lemma rgbd_iteration_run (c : string) (w : gmap string VideoWriter) :
  ∃ w' evs fl,
    rgbd_iteration fileName method fs dev c w = (w', evs, fl)
    ∧ Forall (λ e, is_CodeStatus e = false) evs
    ∧ match rgbd_failure fileName method fs dev (at_camera w c) c with
      | Some (f, k) =>
          fl = Exit (outcome_of f)
          ∧ renames evs = firstn k (rgbd_renames fileName (at_camera w c) c)
      | None => fl = Next tt ∧ renames evs = rgbd_renames fileName (at_camera w c) c
      end.
Proof.
  unfold rgbd_iteration, rgbd_failure, rgbd_renames. rewrite bind_subscript.
  set (v := at_camera w c). set (w0 := <[c := v]> w). rewrite bind_run.
  destruct (finalize_run (rgb v) c "rgb" w0) as (ev1 & fl1 & -> & Hcs1 & Hf1).
  destruct (finalization_failure fileName fs (rgb v) c "rgb") as [f |] eqn:Hrgb.
  { destruct Hf1 as [-> Hr]. eexists _, _, _. split_and!; [reflexivity | exact Hcs1 | reflexivity | exact Hr]. }
  destruct Hf1 as [-> Hr1].
  assert (Hone : ∃ r, rename_of fileName (rgb v) c "rgb" = [r]).
  { unfold finalization_failure in Hrgb. destruct (rgb v); [cbn; eauto | discriminate]. }
  destruct Hone as [r Hone].
  cbn beta iota. rewrite bind_subscript.
  replace (at_camera w0 c) with v by (unfold w0; now rewrite at_camera_same).
  replace (<[c := v]> w0) with w0 by (unfold w0; now rewrite insert_insert_eq).
  rewrite bind_run.
  destruct (finalize_run (depth v) c "depth" w0) as (ev2 & fl2 & -> & Hcs2 & Hf2).
  destruct (finalization_failure fileName fs (depth v) c "depth") as [f |].
  { destruct Hf2 as [-> Hr2]. eexists _, _, _.
    split_and!; [reflexivity | now apply Forall_app | reflexivity |].
    rewrite renames_app, Hr1, Hr2, app_nil_r, Hone. reflexivity. }
  destruct Hf2 as [-> Hr2].
  assert (Hlen : firstn 2 (rename_of fileName (rgb v) c "rgb"
                           ++ rename_of fileName (depth v) c "depth")
                 = rename_of fileName (rgb v) c "rgb" ++ rename_of fileName (depth v) c "depth").
  { rewrite Hone. cbn. now rewrite firstn_rename_of. }
  destruct method.
  - rewrite bind_run.
    destruct (reopen_run rgb_saver c "rgb" (rgbdImgDimensions dev) w0)
      as (w1 & ev3 & fl3 & -> & Hcs3 & Hr3 & Hf3).
    unfold w0 in Hf3. rewrite at_camera_same in Hf3. cbn [saver_of] in Hf3.
    destruct (reopening_failure fs (rgb v) (rgbdImgDimensions dev) c "rgb") as [f |].
    { subst fl3. eexists _, _, _.
      split_and!; [reflexivity | repeat (apply Forall_app; split); assumption | reflexivity |].
      rewrite !renames_app, Hr1, Hr2, Hr3, app_nil_r. now rewrite Hlen. }
    destruct Hf3 as (-> & _ & Hother & _).
    destruct (reopen_run depth_saver c "depth" (rgbdImgDimensions dev) w1)
      as (w2 & ev4 & fl4 & -> & Hcs4 & Hr4 & Hf4).
    rewrite (Hother depth_saver ltac:(discriminate)) in Hf4. cbn [saver_of] in Hf4.
    assert (Hren : renames (ev1 ++ ev2 ++ ev3 ++ ev4)
                   = rename_of fileName (rgb v) c "rgb" ++ rename_of fileName (depth v) c "depth")
      by (now rewrite !renames_app, Hr1, Hr2, Hr3, Hr4, !app_nil_r).
    destruct (reopening_failure fs (depth v) (rgbdImgDimensions dev) c "depth") as [f |].
    + subst fl4. eexists _, _, _.
      split_and!; [reflexivity | repeat (apply Forall_app; split); assumption | reflexivity |].
      now rewrite Hlen.
    + destruct Hf4 as (-> & _). eexists _, _, _.
      split_and!; [reflexivity | repeat (apply Forall_app; split); assumption | reflexivity
                  | exact Hren].
  - cbn. eexists _, _, _. rewrite app_nil_r.
    split_and!; [reflexivity | now apply Forall_app | reflexivity |].
    now rewrite renames_app, Hr1, Hr2.
Qed.

Lemma rename_of_finalizes (saver : option ImageSaver) (c t : string) :
  finalization_failure fileName fs saver c t = None →
  Forall2 (finalizes fileName) [(c, t)] (rename_of fileName saver c t).
Proof.
  unfold finalization_failure, rename_of. destruct saver as [s |]; [| discriminate].
  intros _. repeat constructor. now exists (saveMode s).
Qed.

(** A loop over the RGB cameras that goes to its end has renamed the
    artifact of each camera, in the order of the list, and nothing else. *)
Lemma for_each_rgb_finalizes (cameras : list string) (w w1 : gmap string VideoWriter)
    (evs : list event) :
  for_each cameras (rgb_iteration fileName method fs dev) w = (w1, evs, Next tt) →
  Forall2 (finalizes fileName) (rgb_streams cameras) (renames evs)
  ∧ Forall (λ e, is_CodeStatus e = false) evs.
Proof.
  revert w evs. induction cameras as [| c rest IH]; intros w evs; cbn [for_each].
  - intros [= <- <-]. split; constructor.
  - intros H. apply bind_Next_inv in H as (wa & eva & [] & evb & Hc & Hrest & ->).
    destruct (IH _ _ Hrest) as [Hfin Hcs].
    destruct (rgb_iteration_run c w) as (w' & evs' & fl & Hrun & Hcs' & Hspec).
    rewrite Hc in Hrun. injection Hrun as <- <- <-.
    unfold rgb_failure, rgb_renames in Hspec.
    destruct (finalization_failure fileName fs (rgb (at_camera w c)) c "rgb") eqn:Hf;
      [destruct Hspec; discriminate |].
    assert (Hren : renames eva = rename_of fileName (rgb (at_camera w c)) c "rgb").
    { destruct method; [| now destruct Hspec].
      destruct (reopening_failure _ _ _ _ _); [destruct Hspec; discriminate | now destruct Hspec]. }
    split; [| now apply Forall_app].
    rewrite renames_app, Hren.
    change (rgb_streams (c :: rest)) with ([(c, "rgb")] ++ rgb_streams rest).
    apply Forall2_app; [now apply rename_of_finalizes | exact Hfin].
Qed.

(** The same for the RGBD cameras: the colour artifact, then the depth
    artifact of each camera. *)
Lemma for_each_rgbd_finalizes (cameras : list string) (w w1 : gmap string VideoWriter)
    (evs : list event) :
  for_each cameras (rgbd_iteration fileName method fs dev) w = (w1, evs, Next tt) →
  Forall2 (finalizes fileName) (rgbd_streams cameras) (renames evs)
  ∧ Forall (λ e, is_CodeStatus e = false) evs.
Proof.
  revert w evs. induction cameras as [| c rest IH]; intros w evs; cbn [for_each].
  - intros [= <- <-]. split; constructor.
  - intros H. apply bind_Next_inv in H as (wa & eva & [] & evb & Hc & Hrest & ->).
    destruct (IH _ _ Hrest) as [Hfin Hcs].
    destruct (rgbd_iteration_run c w) as (w' & evs' & fl & Hrun & Hcs' & Hspec).
    rewrite Hc in Hrun. injection Hrun as <- <- <-.
    unfold rgbd_failure, rgbd_renames in Hspec.
    destruct (finalization_failure fileName fs (rgb (at_camera w c)) c "rgb") eqn:Hf1;
      [destruct Hspec; discriminate |].
    destruct (finalization_failure fileName fs (depth (at_camera w c)) c "depth") eqn:Hf2;
      [destruct Hspec; discriminate |].
    assert (Hren : renames eva = rename_of fileName (rgb (at_camera w c)) c "rgb"
                                 ++ rename_of fileName (depth (at_camera w c)) c "depth").
    { destruct method; [| now destruct Hspec].
      destruct (reopening_failure _ _ _ _ _); [destruct Hspec; discriminate |].
      destruct (reopening_failure _ _ _ _ _); [destruct Hspec; discriminate | now destruct Hspec]. }
    split; [| now apply Forall_app].
    rewrite renames_app, Hren.
    change (rgbd_streams (c :: rest))
      with (([(c, "rgb")] ++ [(c, "depth")]) ++ rgbd_streams rest).
    apply Forall2_app; [| exact Hfin].
    apply Forall2_app; now apply rename_of_finalizes.
Qed.

Lemma outcome_of_failure (f : failure) : outcome_of f ≠ Returned true.
Proof. destruct f; discriminate. Qed.

End Callback.

(** C1, as the code has it. The callback finalizes the camera streams in
    the order of the lists and stops at the first failure. When the callback
    returns true, the artifact of every stream of the two lists has been
    renamed. When the streams before a camera have gone through and
    something fails for that camera (its image saver is null, the writer to
    release is null, the rename throws, or on a periodic rotation the writer
    cannot be opened again or the folder of the frames cannot be created),
    the callback ends at once with that failure (it returns false, or the
    exception leaves it), never with true; the renames it has made are those
    of the streams before, one per stream and in order, and those the camera
    made before its failure; no artifact of a later camera is renamed, and
    the status of the code is not written. An iteration goes on to the next
    camera exactly when nothing of this fails for its camera. *)
Theorem saveCallback_stops_at_first_failure (fileName : string)
    (method : SaveCallbackSaveMethod) (fs : filesystem) (dev : device) :
  (∀ evs, saveCallback fileName method fs dev = (evs, Returned true) →
     (∀ c, c ∈ m_rgbCamerasList dev → finalized c "rgb" evs)
     ∧ (∀ c, c ∈ m_rgbdCamerasList dev →
             finalized c "rgb" evs ∧ finalized c "depth" evs))
  ∧ (∀ pre c post w1 ev_pre f k,
       m_rgbCamerasList dev = pre ++ c :: post →
       for_each pre (rgb_iteration fileName method fs dev) (m_videoWriters dev)
       = (w1, ev_pre, Next tt) →
       rgb_failure fileName method fs dev (at_camera w1 c) c = Some (f, k) →
       ∃ evs,
         saveCallback fileName method fs dev = (evs, outcome_of f)
         ∧ outcome_of f ≠ Returned true
         ∧ renames evs
           = renames ev_pre ++ firstn k (rgb_renames fileName (at_camera w1 c) c)
         ∧ Forall2 (finalizes fileName) (rgb_streams pre) (renames ev_pre)
         ∧ Forall (λ e, is_CodeStatus e = false) evs)
  ∧ (∀ pre c post w0 ev_rgb w1 ev_pre f k,
       m_rgbdCamerasList dev = pre ++ c :: post →
       for_each (m_rgbCamerasList dev) (rgb_iteration fileName method fs dev)
         (m_videoWriters dev) = (w0, ev_rgb, Next tt) →
       for_each pre (rgbd_iteration fileName method fs dev) w0 = (w1, ev_pre, Next tt) →
       rgbd_failure fileName method fs dev (at_camera w1 c) c = Some (f, k) →
       ∃ evs,
         saveCallback fileName method fs dev = (evs, outcome_of f)
         ∧ outcome_of f ≠ Returned true
         ∧ renames evs
           = renames ev_rgb ++ renames ev_pre
             ++ firstn k (rgbd_renames fileName (at_camera w1 c) c)
         ∧ Forall2 (finalizes fileName)
             (rgb_streams (m_rgbCamerasList dev) ++ rgbd_streams pre)
             (renames ev_rgb ++ renames ev_pre)
         ∧ Forall (λ e, is_CodeStatus e = false) evs)
  ∧ (∀ c w,
       rgb_failure fileName method fs dev (at_camera w c) c = None
       ↔ ∃ w' evs, rgb_iteration fileName method fs dev c w = (w', evs, Next tt))
  ∧ (∀ c w,
       rgbd_failure fileName method fs dev (at_camera w c) c = None
       ↔ ∃ w' evs, rgbd_iteration fileName method fs dev c w = (w', evs, Next tt)).
Proof.
  split_and!.
  - intros evs. unfold saveCallback.
    destruct (saveCallback_body fileName method fs dev (m_videoWriters dev))
      as [[w ev] [b | r]] eqn:H; intros [= -> Hb]; subst;
      [| now apply leaves_saveCallback_body in H].
    unfold saveCallback_body in H.
    apply bind_Next_inv in H as (wa & eva & [] & evb & Hrgb & H & ->).
    apply bind_Next_inv in H as (wb & evc & [] & evd & Hrgbd & _ & ->).
    split.
    + intros c Hc. apply finalized_app_l.
      revert c Hc. eapply (for_each_Next (λ c ev, finalized c "rgb" ev)); [| | | exact Hrgb].
      * intros; now apply finalized_app_l.
      * intros; now apply finalized_app_r.
      * intros c' w' w'' ev' u'. apply rgb_iteration_Next.
    + intros c Hc.
      cut (finalized c "rgb" evc ∧ finalized c "depth" evc).
      { intros [H1 H2]. split; now apply finalized_app_r, finalized_app_l. }
      revert c Hc.
      eapply (for_each_Next (λ c ev, finalized c "rgb" ev ∧ finalized c "depth" ev));
        [| | | exact Hrgbd].
      * intros c ev1 ev2 [H1 H2]; split; now apply finalized_app_l.
      * intros c ev1 ev2 [H1 H2]; split; now apply finalized_app_r.
      * intros c' w' w'' ev' u'. apply rgbd_iteration_Next.
  - intros pre c post w1 ev_pre f k Hlist Hpre Hfail.
    destruct (rgb_iteration_run fileName method fs dev c w1)
      as (w2 & ev_c & fl & Hc & Hcs & Hspec).
    rewrite Hfail in Hspec. destruct Hspec as [-> Hren].
    destruct (for_each_rgb_finalizes fileName method fs dev pre _ _ _ Hpre) as [Hfin Hcs_pre].
    exists (ev_pre ++ ev_c). split_and!.
    + unfold saveCallback, saveCallback_body. rewrite bind_run, Hlist.
      now rewrite (for_each_exit pre post c _ _ w1 w2 ev_pre ev_c _ Hpre Hc).
    + apply outcome_of_failure.
    + now rewrite renames_app, Hren.
    + exact Hfin.
    + now apply Forall_app.
  - intros pre c post w0 ev_rgb w1 ev_pre f k Hlist Hrgb Hpre Hfail.
    destruct (rgbd_iteration_run fileName method fs dev c w1)
      as (w2 & ev_c & fl & Hc & Hcs & Hspec).
    rewrite Hfail in Hspec. destruct Hspec as [-> Hren].
    destruct (for_each_rgb_finalizes fileName method fs dev _ _ _ _ Hrgb) as [Hfin_rgb Hcs_rgb].
    destruct (for_each_rgbd_finalizes fileName method fs dev pre _ _ _ Hpre)
      as [Hfin Hcs_pre].
    exists (ev_rgb ++ ev_pre ++ ev_c). split_and!.
    + unfold saveCallback, saveCallback_body. rewrite bind_run, Hrgb, bind_run, Hlist.
      now rewrite (for_each_exit pre post c _ _ w1 w2 ev_pre ev_c _ Hpre Hc).
    + apply outcome_of_failure.
    + now rewrite !renames_app, Hren.
    + now apply Forall2_app.
    + repeat (apply Forall_app; split); assumption.
  - intros c w.
    destruct (rgb_iteration_run fileName method fs dev c w) as (w' & evs & fl & Hc & _ & Hspec).
    destruct (rgb_failure fileName method fs dev (at_camera w c) c) as [[f k] |].
    + destruct Hspec as [-> _]. split; [discriminate |].
      intros (w'' & evs' & H). rewrite Hc in H. discriminate.
    + destruct Hspec as [-> _]. split; [eauto | reflexivity].
  - intros c w.
    destruct (rgbd_iteration_run fileName method fs dev c w) as (w' & evs & fl & Hc & _ & Hspec).
    destruct (rgbd_failure fileName method fs dev (at_camera w c) c) as [[f k] |].
    + destruct Hspec as [-> _]. split; [discriminate |].
      intros (w'' & evs' & H). rewrite Hc in H. discriminate.
    + destruct Hspec as [-> _]. split; [eauto | reflexivity].
Qed.

(** C1 does not hold as stated. With two cameras, both recording a video:
    (1) when the artifact of the first cannot be renamed, the exception
    leaves the callback, and the artifact of the second camera is not
    renamed; (2) when the image saver of the first is null, [saveVideo]
    fails for it, the callback returns false at once and renames nothing;
    (3) on a periodic rotation, when the writer of the first camera cannot be
    opened again (the bridge gives no dimensions for it), the callback
    returns false after renaming the artifact of the first camera only. *)
Lemma first_failure_skips_remaining_streams :
  let video := {| rgb := Some {| saveMode := Video; writer := true |}; depth := None |} in
  let fs := {| rename_succeeds := λ _ _, true; create_directory_succeeds := λ _, true |} in
  let fs_left_missing :=
    {| rename_succeeds := λ oldName _, negb (String.eqb oldName "output_left_rgb.mp4");
       create_directory_succeeds := λ _, true |} in
  let dev :=
    {| m_rgbCamerasList := ["left"; "right"];
       m_rgbdCamerasList := [];
       m_videoWriters := {[ "left" := video; "right" := video ]};
       rgbImgDimensions := {[ "left" := (640, 480)%nat; "right" := (640, 480)%nat ]};
       rgbdImgDimensions := ∅ |} in
  let dev1 :=
    {| m_rgbCamerasList := ["left"; "right"];
       m_rgbdCamerasList := [];
       m_videoWriters := {[ "right" := video ]};
       rgbImgDimensions := {[ "left" := (640, 480)%nat; "right" := (640, 480)%nat ]};
       rgbdImgDimensions := ∅ |} in
  let dev2 :=
    {| m_rgbCamerasList := ["left"; "right"];
       m_rgbdCamerasList := [];
       m_videoWriters := {[ "left" := video; "right" := video ]};
       rgbImgDimensions := {[ "right" := (640, 480)%nat ]};
       rgbdImgDimensions := ∅ |} in
  saveCallback "log" periodic fs_left_missing dev = ([Release "left" "rgb"], Threw)
  ∧ saveCallback "log" last_call fs dev1 = ([], Returned false)
  ∧ saveCallback "log" periodic fs dev2
    = ([Release "left" "rgb"; Rename "output_left_rgb.mp4" "log_left_rgb.mp4"],
       Returned false)
  ∧ renames (saveCallback "log" periodic fs dev2).1
    = [("output_left_rgb.mp4", "log_left_rgb.mp4")].
Proof. vm_compute. repeat split. Qed.

(** When nothing fails, every stream is finalized and reopened. *)
Example saveCallback_all_streams :
  let video := {| rgb := Some {| saveMode := Video; writer := true |}; depth := None |} in
  let fs := {| rename_succeeds := λ _ _, true; create_directory_succeeds := λ _, true |} in
  let dev :=
    {| m_rgbCamerasList := ["left"; "right"];
       m_rgbdCamerasList := [];
       m_videoWriters := {[ "left" := video; "right" := video ]};
       rgbImgDimensions := {[ "left" := (640, 480)%nat; "right" := (640, 480)%nat ]};
       rgbdImgDimensions := ∅ |} in
  saveCallback "log" periodic fs dev
  = ([Release "left" "rgb"; Rename "output_left_rgb.mp4" "log_left_rgb.mp4";
      OpenWriter "output_left_rgb.mp4";
      Release "right" "rgb"; Rename "output_right_rgb.mp4" "log_right_rgb.mp4";
      OpenWriter "output_right_rgb.mp4";
      CodeStatus "log.md"],
     Returned true).
Proof. vm_compute. reflexivity. Qed.

(** A video saver whose writer was never opened: the callback dereferences
    a null pointer. *)
Example saveCallback_null_writer :
  let video := {| rgb := Some {| saveMode := Video; writer := false |}; depth := None |} in
  let fs := {| rename_succeeds := λ _ _, true; create_directory_succeeds := λ _, true |} in
  let dev :=
    {| m_rgbCamerasList := ["left"];
       m_rgbdCamerasList := [];
       m_videoWriters := {[ "left" := video ]};
       rgbImgDimensions := {[ "left" := (640, 480)%nat ]};
       rgbdImgDimensions := ∅ |} in
  saveCallback "log" periodic fs dev = ([], Undefined).
Proof. vm_compute. reflexivity. Qed.

(** Three cameras on a periodic rotation: the first goes through, the writer
    of the second cannot be opened again, the third is not visited. *)
Lemma saveCallback_stops_at_first_failure_witness :
  let video := {| rgb := Some {| saveMode := Video; writer := true |}; depth := None |} in
  let fs := {| rename_succeeds := λ _ _, true; create_directory_succeeds := λ _, true |} in
  let dev :=
    {| m_rgbCamerasList := ["left"; "right"; "top"];
       m_rgbdCamerasList := [];
       m_videoWriters := {[ "left" := video; "right" := video; "top" := video ]};
       rgbImgDimensions := {[ "left" := (640, 480)%nat; "top" := (640, 480)%nat ]};
       rgbdImgDimensions := ∅ |} in
  ∃ evs,
    saveCallback "log" periodic fs dev = (evs, Returned false)
    ∧ renames evs = [("output_left_rgb.mp4", "log_left_rgb.mp4");
                     ("output_right_rgb.mp4", "log_right_rgb.mp4")].
Proof.
  intros video fs dev.
  destruct (saveCallback_stops_at_first_failure "log" periodic fs dev) as (_ & Hstop & _).
  destruct (Hstop ["left"] "right" ["top"]
              (m_videoWriters dev)
              [Release "left" "rgb"; Rename "output_left_rgb.mp4" "log_left_rgb.mp4";
               OpenWriter "output_left_rgb.mp4"]
              NoDimensions 1%nat)
    as (evs & Hrun & _ & Hren & _); [reflexivity | vm_compute; reflexivity | reflexivity |].
  exists evs. split; [exact Hrun | exact Hren].
Defined.

End SaveCallbackFacts.


(** ** The acquisition tick *)

Section StringFacts.

Import Run.

Lemma append_cons (c : ascii) (s t : string) : String c s +:+ t = String c (s +:+ t).
Proof. reflexivity. Qed.

Lemma append_nil_l (s : string) : "" +:+ s = s.
Proof. reflexivity. Qed.

Lemma append_assoc (s t u : string) : (s +:+ t) +:+ u = s +:+ t +:+ u.
Proof. induction s as [| c s IH]; [reflexivity |]. now rewrite !append_cons, IH. Qed.

Lemma length_append (s t : string) :
  String.length (s +:+ t) = (String.length s + String.length t)%nat.
Proof. induction s as [| c s IH]; [reflexivity |]. rewrite append_cons. cbn. now rewrite IH. Qed.

Lemma substring_all (s : string) : String.substring 0 (String.length s) s = s.
Proof. induction s as [| c s IH]; [reflexivity |]. cbn. now rewrite IH. Qed.

Lemma substring_prefix (pre s : string) :
  String.substring 0 (String.length pre) (pre +:+ s) = pre.
Proof.
  induction pre as [| c pre IH]; [rewrite append_nil_l; now destruct s |].
  rewrite append_cons. cbn. now rewrite IH.
Qed.

Lemma substring_skip (pre s : string) (k m : nat) :
  String.substring (String.length pre + k) m (pre +:+ s) = String.substring k m s.
Proof. induction pre as [| c pre IH]; [reflexivity |]. rewrite append_cons. cbn. exact IH. Qed.

Lemma index_skip (pre s t : string) (k : nat) :
  String.index (String.length pre + k) t (pre +:+ s)
  = Nat.add (String.length pre) <$> String.index k t s.
Proof.
  induction pre as [| c pre IH].
  - rewrite append_nil_l. cbn. now destruct (String.index k t s).
  - rewrite append_cons. cbn. rewrite IH. now destruct (String.index k t s).
Qed.

Lemma index_char (a c : ascii) (s : string) :
  String.index 0 (String a "") (String c s)
  = if Ascii.eqb c a then Some 0%nat else Datatypes.S <$> String.index 0 (String a "") s.
Proof.
  cbn. destruct (ascii_dec a c) as [<- | Hne].
  - rewrite Ascii.eqb_refl. now destruct s.
  - destruct (Ascii.eqb_spec c a) as [-> | _]; [congruence |].
    now destruct (String.index 0 (String a "") s).
Qed.

(** Replacing the character at the end of a prefix. *)
Lemma replace_at (pre s r : string) (c : ascii) :
  replace (pre +:+ String c s) (String.length pre) 1 r = pre +:+ r +:+ s.
Proof.
  unfold replace. rewrite substring_prefix. do 2 f_equal.
  rewrite length_append. cbn [String.length].
  replace (String.length pre + Datatypes.S (String.length s) - (String.length pre + 1))%nat
    with (String.length s) by lia.
  rewrite substring_skip. cbn. apply substring_all.
Qed.

(** The loop, started behind a prefix that is done, replaces what is left. *)
Lemma findAndReplaceAll_loop_char (a b : ascii) (rest pre : string) (fuel : nat) :
  (String.length rest ≤ fuel)%nat →
  findAndReplaceAll_loop fuel (pre +:+ rest) (String a "") (String b "")
    (Nat.add (String.length pre) <$> String.index 0 (String a "") rest)
  = Some (pre +:+ substitute a b rest).
Proof.
  revert pre fuel. induction rest as [| c s IH]; intros pre fuel Hfuel.
  - cbn. now destruct fuel.
  - rewrite index_char. cbn [substitute]. cbn [String.length] in Hfuel.
    assert (Hsplit : ∀ x t, pre +:+ String x t = (pre +:+ String x "") +:+ t).
    { intros x t. now rewrite append_assoc. }
    assert (Hlen : ∀ x, String.length (pre +:+ String x "") = (String.length pre + 1)%nat).
    { intros x. now rewrite length_append. }
    destruct (Ascii.eqb c a) eqn:Hc.
    + destruct fuel as [| fuel]; [lia |].
      cbn [fmap option_fmap option_map findAndReplaceAll_loop String.length].
      rewrite Nat.add_0_r, replace_at.
      change (pre +:+ String b "" +:+ s) with (pre +:+ String b s).
      rewrite (Hsplit b s), (Hsplit b (substitute a b s)), <- (Hlen b).
      rewrite <- (Nat.add_0_r (String.length (pre +:+ String b ""))), index_skip.
      apply IH. lia.
    + rewrite (Hsplit c s), (Hsplit c (substitute a b s)).
      rewrite <- (IH (pre +:+ String c "") fuel ltac:(lia)). f_equal.
      rewrite Hlen. destruct (String.index 0 (String a "") s) as [k |]; cbn; [f_equal; lia | reflexivity].
Qed.

(** [findAndReplaceAll] with one character for one character ends, and
    replaces every occurrence. *)
Lemma findAndReplaceAll_char (a b : ascii) (data : string) :
  findAndReplaceAll data (String a "") (String b "") = Some (substitute a b data).
Proof.
  unfold findAndReplaceAll.
  pose proof (findAndReplaceAll_loop_char a b data "" (String.length data) (le_n _)) as H.
  cbn in H. destruct (String.index 0 (String a "") data); exact H.
Qed.

Lemma substitute_removes (a b : ascii) (s : string) :
  a ≠ b → String.index 0 (String a "") (substitute a b s) = None.
Proof.
  intros Hab. induction s as [| c s IH]; [reflexivity |].
  cbn [substitute]. rewrite index_char, IH.
  destruct (Ascii.eqb_spec c a) as [-> | Hc].
  - destruct (Ascii.eqb_spec b a); [congruence | reflexivity].
  - destruct (Ascii.eqb_spec c a); [congruence | reflexivity].
Qed.

Example findAndReplaceAll_example :
  findAndReplaceAll "yarp-os::log::walking-controller::p12" "-" "_"
  = Some "yarp_os::log::walking_controller::p12".
Proof. reflexivity. Qed.

End StringFacts.

Section TickFacts.

Import Run.

Context (N : names) (dev : device).

(** Everything [run] does with the sources is made of two blocks: an append
    followed by the publication of the same value under the real-time entry
    of the same channel, and, when the motor PWM is streamed, the append of
    the PWM followed by a publication under the entry of the motor
    currents. *)
Lemma sources_blocks (P : list event → Prop) :
  P [] →
  (∀ a b, P a → P b → P (a ++ b)) →
  (∀ v time n, P [PushBack v time n; PopulateData (rt_entry N n) v]) →
  (m_streamMotorPWM dev = true →
   ∀ v time, P [PushBack v time (MOTOR_STATE_PWM_NAME N);
                PopulateData (rt_entry N (MOTOR_STATE_CURRENTS_NAME N)) v]) →
  ∀ t, P (sources N dev t).
Proof.
  intros Hnil Happ Hpair Hpwm t.
  assert (Hwhen : ∀ flag body, P body → P (when flag body)).
  { intros [] body Hb; [exact Hb | exact Hnil]. }
  assert (Hon : ∀ (A : Type) (got : option A) f, (∀ v, P (f v)) → P (on_success got f)).
  { intros A [v |] f Hf; [apply Hf | exact Hnil]. }
  assert (Hfor : ∀ (A : Type) (xs : list A) body, (∀ x, P (body x)) → P (for_all xs body)).
  { intros A xs body Hb. induction xs as [| x xs IH]; [exact Hnil |].
    cbn. apply Happ; [apply Hb | exact IH]. }
  assert (Hsensors : ∀ time K sensors get, P (vector_sensors N time K sensors get)).
  { intros time K sensors get. apply Hfor. intros x. apply Hon. intros v. apply Hpair. }
  unfold sources.
  apply Happ.
  { apply Hwhen. unfold joint_states.
    repeat (apply Happ; [apply Hon; intros v; apply Hpair |]).
    apply Hon; intros v; apply Hpair. }
  apply Happ.
  { apply Hwhen. unfold motor_states.
    repeat (apply Happ; [apply Hon; intros v; apply Hpair |]).
    apply Hon; intros v; apply Hpair. }
  apply Happ.
  { destruct (m_streamMotorPWM dev) eqn:Hflag; [| exact Hnil].
    cbn. unfold motor_pwm. apply Hon. intros v. now apply Hpwm. }
  apply Happ.
  { apply Hwhen. unfold pids. apply Hon; intros v; apply Hpair. }
  apply Happ; [apply Hwhen, Hsensors |].
  apply Happ.
  { apply Hwhen. unfold temperature_sensors. apply Hfor. intros x. apply Hon. intros v.
    apply Hpair. }
  apply Happ.
  { apply Hwhen. unfold inertials. repeat (apply Happ; [apply Hsensors |]). apply Hsensors. }
  apply Happ.
  { unfold imus. apply Hfor. intros x. apply Hon. intros v.
    destruct (unpackIMU v) as [[acc gyro] orientation].
    apply (Happ [_; _] [_; _; _; _]); [apply Hpair |].
    apply (Happ [_; _] [_; _]); apply Hpair. }
  apply Happ; [apply Hwhen, Hsensors |].
  unfold exogenous. apply Hfor. intros [name signal]. apply Hon. intros vectors.
  apply Hfor. intros [key vector]. apply Hpair.
Qed.

Lemma streams_data (t : tick) : Forall (λ e, is_data e = true) (streams N dev t).
Proof.
  unfold streams. apply Forall_app. split; [repeat constructor |].
  revert t. apply sources_blocks.
  - constructor.
  - intros a b Ha Hb. apply Forall_app. auto.
  - intros. repeat constructor.
  - intros. repeat constructor.
Qed.

Lemma published_app (a b : list event) : published (a ++ b) = published a ++ published b.
Proof.
  induction a as [| e a IH]; [reflexivity |]. destruct e; cbn; now rewrite ?IH.
Qed.

Lemma appended_app (a b : list event) : appended (a ++ b) = appended a ++ appended b.
Proof.
  induction a as [| e a IH]; [reflexivity |]. destruct e; cbn; now rewrite ?IH.
Qed.

Lemma added_channels_app (a b : list event) :
  added_channels (a ++ b) = added_channels a ++ added_channels b.
Proof.
  induction a as [| e a IH]; [reflexivity |]. destruct e; cbn; now rewrite ?IH.
Qed.

Lemma added_channels_data (evs : list event) :
  Forall (λ e, is_data e = true) evs → added_channels evs = [].
Proof.
  induction 1 as [| e evs He _ IH]; [reflexivity |]. destruct e; cbn in *; congruence.
Qed.

Lemma no_SendData_data (evs : list event) :
  Forall (λ e, is_data e = true) evs → Forall (λ e, is_SendData e = false) evs.
Proof. intros H. eapply Forall_impl; [exact H |]. intros []; cbn; congruence. Qed.

(** Apart from the motor PWM, what [run] publishes for the sources is what
    it appends, each value under the real-time entry of its channel. *)
Lemma sources_mirror (t : tick) :
  m_streamMotorPWM dev = false → mirrors N (sources N dev t).
Proof.
  intros Hpwm. revert t. apply sources_blocks.
  - reflexivity.
  - unfold mirrors. intros a b Ha Hb.
    now rewrite published_app, appended_app, fmap_app, Ha, Hb.
  - reflexivity.
  - congruence.
Qed.

Lemma grows_nil (stored : gset string) (evs : list event) :
  added_channels evs = [] → grows stored (stored, evs).
Proof.
  intros H. unfold grows. cbn. rewrite H. repeat split.
  - constructor.
  - intros n Hn. inversion Hn.
  - set_solver.
Qed.

Lemma grows_app (stored stored1 stored2 : gset string) (ev1 ev2 : list event) :
  grows stored (stored1, ev1) → grows stored1 (stored2, ev2) →
  grows stored (stored2, ev1 ++ ev2).
Proof.
  intros (Hd1 & Hnew1 & Hset1) (Hd2 & Hnew2 & Hset2); cbn in *.
  unfold grows; cbn. rewrite added_channels_app. repeat split.
  - apply NoDup_app. split; [exact Hd1 | split; [| exact Hd2]].
    intros n Hn1 Hn2. apply (Hnew2 n Hn2). rewrite Hset1. set_solver.
  - intros n [Hn | Hn]%elem_of_app; [now apply Hnew1 |].
    intros Hin. apply (Hnew2 n Hn). rewrite Hset1. set_solver.
  - rewrite Hset2, Hset1, list_to_set_app_L. set_solver.
Qed.

(** The loop that drains the text-logging port always ends; it adds a
    channel for a name exactly when the name is not stored, and stores it. *)
Lemma text_logs_grows (messages : list TextLoggingEntry) (stored : gset string) :
  ∃ stored' added,
    text_logs messages stored = Some (stored', added)
    ∧ grows stored (stored', added)
    ∧ Forall (λ e, is_SendData e = false) added
    ∧ (∀ n, n ∈ added_channels added →
         ∃ msg, msg ∈ messages ∧ isValid msg = true
                ∧ n = substitute "-" "_" (text_signal_name msg)).
Proof.
  revert stored. induction messages as [| msg rest IH]; intros stored.
  - exists stored, []. split_and!; [reflexivity | now apply grows_nil | constructor |].
    intros n Hn. inversion Hn.
  - cbn [text_logs].
    destruct (isValid msg) eqn:Hvalid.
    + rewrite (findAndReplaceAll_char "-" "_").
      set (signalName := substitute "-" "_" (text_signal_name msg)).
      case_bool_decide as Hin.
      * destruct (IH stored) as (stored' & added & Heq & Hg & Hs & Hfrom).
        exists stored', added. split_and!; try assumption.
        intros n Hn. destruct (Hfrom n Hn) as (m & Hm & Hrest).
        exists m. split; [now right | exact Hrest].
      * destruct (IH ({[ signalName ]} ∪ stored)) as (stored' & added & Heq & Hg & Hs & Hfrom).
        rewrite Heq. exists stored', (AddChannel signalName 1 1 :: added).
        split_and!.
        -- reflexivity.
        -- apply (grows_app stored ({[ signalName ]} ∪ stored) stored'
                    [AddChannel signalName 1 1] added); [| exact Hg].
           unfold grows; cbn. split_and!.
           ++ apply NoDup_singleton.
           ++ intros n ->%list_elem_of_singleton. exact Hin.
           ++ set_solver.
        -- constructor; [reflexivity | exact Hs].
        -- cbn. intros n [-> | Hn]%elem_of_cons.
           ++ exists msg. split; [left | auto].
           ++ destruct (Hfrom n Hn) as (m & Hm & Hrest).
              exists m. split; [now right | exact Hrest].
    + destruct (IH stored) as (stored' & added & Heq & Hg & Hs & Hfrom).
      exists stored', added. split_and!; try assumption.
      intros n Hn. destruct (Hfrom n Hn) as (m & Hm & Hrest).
      exists m. split; [now right | exact Hrest].
Qed.

(** One tick: it always ends, and the only channels it adds are those of
    the text logs. *)
Lemma run_grows (t : tick) (stored : gset string) :
  ∃ stored' added,
    run N dev t stored = Some (stored', [ClearData] ++ streams N dev t ++ added ++ [SendData])
    ∧ text_logs (pending t) stored = Some (stored', added)
    ∧ grows stored (stored', [ClearData] ++ streams N dev t ++ added ++ [SendData])
    ∧ added_channels ([ClearData] ++ streams N dev t ++ added ++ [SendData])
      = added_channels added.
Proof.
  destruct (text_logs_grows (pending t) stored) as (stored' & added & Heq & Hg & _ & _).
  exists stored', added. unfold run. rewrite Heq.
  assert (Hadd : added_channels ([ClearData] ++ streams N dev t ++ added ++ [SendData])
                 = added_channels added).
  { rewrite !added_channels_app, (added_channels_data _ (streams_data t)). cbn.
    now rewrite app_nil_r. }
  split_and!; [reflexivity | reflexivity | | exact Hadd].
  destruct Hg as (Hd & Hnew & Hset). unfold grows; cbn [fst snd].
  rewrite Hadd. auto.
Qed.

Lemma session_grows (ticks : list tick) (stored : gset string) :
  ∃ stored' evs,
    session N dev ticks stored = Some (stored', evs)
    ∧ grows stored (stored', evs)
    ∧ (∀ n, n ∈ added_channels evs →
         ∃ t msg, t ∈ ticks ∧ msg ∈ pending t ∧ isValid msg = true
                  ∧ n = substitute "-" "_" (text_signal_name msg)).
Proof.
  revert stored. induction ticks as [| t later IH]; intros stored.
  - exists stored, []. split_and!; [reflexivity | now apply grows_nil |].
    intros n Hn. inversion Hn.
  - destruct (run_grows t stored) as (stored1 & added & Hrun & Hlogs & Hg1 & Hadd).
    destruct (IH stored1) as (stored2 & ev2 & Hses & Hg2 & Hfrom2).
    destruct (text_logs_grows (pending t) stored) as (s' & a' & Heq & _ & _ & Hfrom1).
    rewrite Hlogs in Heq. injection Heq as <- <-.
    cbn [session]. rewrite Hrun, Hses.
    eexists _, _. split; [reflexivity |]. split.
    + eapply grows_app; eassumption.
    + intros n. rewrite added_channels_app, Hadd.
      intros [Hn | Hn]%elem_of_app.
      * destruct (Hfrom1 n Hn) as (msg & Hmsg & Hrest).
        exists t, msg. split; [left | auto].
      * destruct (Hfrom2 n Hn) as (t' & msg & Ht' & Hrest).
        exists t', msg. split; [now right | exact Hrest].
Qed.

(** Every tick ends, and in its events the flush of the real-time server
    ([sendData]) occurs exactly once, as the last event: every publication
    of the tick comes before it, whatever the sources gave. *)
Lemma run_flushes_once (t : tick) (stored : gset string) :
  ∃ stored' evs,
    run N dev t stored = Some (stored', evs ++ [SendData])
    ∧ Forall (λ e, is_SendData e = false) evs
    ∧ length (List.filter is_SendData (evs ++ [SendData])) = 1%nat
    ∧ published (evs ++ [SendData]) = published evs.
Proof.
  destruct (text_logs_grows (pending t) stored) as (stored' & added & Heq & _ & Hs & _).
  exists stored', ([ClearData] ++ streams N dev t ++ added).
  assert (Hno : Forall (λ e, is_SendData e = false) ([ClearData] ++ streams N dev t ++ added)).
  { apply Forall_app. split; [repeat constructor |].
    apply Forall_app. split; [apply no_SendData_data, streams_data | exact Hs]. }
  assert (Hfilter : List.filter is_SendData ([ClearData] ++ streams N dev t ++ added) = []).
  { induction Hno as [| e l He _ IH]; [reflexivity |]. cbn [List.filter]. now rewrite He. }
  split_and!.
  - unfold run. rewrite Heq. now rewrite <- !app_assoc.
  - exact Hno.
  - now rewrite List.filter_app, Hfilter.
  - rewrite published_app. apply app_nil_r.
Qed.

(** C10. The name of the channel of a text-logging message has every ['-']
    replaced by ['_'] before it is used. Over any sequence of ticks (which
    always end), the channels added are pairwise distinct, none of them was
    in the stored set before, and the stored set afterwards is the one before
    together with the channels added; from the empty set, it is exactly the
    set of the channels added. Each channel added is the name of a valid
    message of the session, and contains no ['-']. *)
Theorem text_log_channels_added_once (ticks : list tick) (stored : gset string) :
  (∀ msg, findAndReplaceAll (text_signal_name msg) "-" "_"
          = Some (substitute "-" "_" (text_signal_name msg)))
  ∧ ∃ stored' evs,
      session N dev ticks stored = Some (stored', evs)
      ∧ NoDup (added_channels evs)
      ∧ stored' = list_to_set (added_channels evs) ∪ stored
      ∧ (∀ n, n ∈ added_channels evs →
           (n ∉ stored)
           ∧ String.index 0 "-" n = None
           ∧ ∃ t msg, t ∈ ticks ∧ msg ∈ pending t ∧ isValid msg = true
                      ∧ n = substitute "-" "_" (text_signal_name msg))
      ∧ (stored = ∅ → stored' = list_to_set (added_channels evs)).
Proof.
  split; [intros msg; apply (findAndReplaceAll_char "-" "_") |].
  destruct (session_grows ticks stored) as (stored' & evs & Hses & (Hd & Hnew & Hset) & Hfrom).
  exists stored', evs. cbn in *. split_and!; try assumption.
  - intros n Hn. split_and!.
    + now apply Hnew.
    + destruct (Hfrom n Hn) as (t & msg & _ & _ & _ & ->).
      now apply (substitute_removes "-" "_").
    + now apply Hfrom.
  - intros ->. rewrite Hset. set_solver.
Qed.

End TickFacts.

Section TickExamples.

Import Run.

(** C2 fails for the motor PWM. With the PWM as the only stream and a
    successful read, the tick appends the value to the channel of the PWM and
    publishes it under the real-time entry of the motor currents, not under
    the entry of the PWM. *)
Theorem motor_pwm_published_under_currents :
  let t := {| now := 1.5%float; bridge := pwm_bridge [0.25%float];
              readData := λ _, None; pending := [] |} in
  ∃ evs,
    run sample_names pwm_device t ∅ = Some (∅, evs)
    ∧ appended evs = [("motors_state::PWM", [0.25%float])]
    ∧ published evs
      = [("robot_realtime::timestamps", [1.5%float]);
         ("robot_realtime::motors_state::currents", [0.25%float])]
    ∧ rt_entry sample_names (MOTOR_STATE_PWM_NAME sample_names)
      = "robot_realtime::motors_state::PWM".
Proof. eexists. split; [reflexivity |]. repeat split. Qed.

(** C8 fails through the same slip. The tick flushes once, as its last
    call, but it does not leave out the channels that produced no value:
    when the motor PWM is the only stream and is read with success, whatever
    the value and the time, the motor currents produce no value (their
    stream is off and their getter is not called), nothing is appended to
    their channel, and yet their real-time entry is published, with the
    value of the PWM, before the flush. *)
Theorem currents_published_without_value (pwm : list float) (time : float) :
  let t := {| now := time; bridge := pwm_bridge pwm;
              readData := λ _, None; pending := [] |} in
  m_streamMotorStates pwm_device = false
  ∧ getMotorCurrents (bridge t) = None
  ∧ run sample_names pwm_device t ∅
    = Some (∅, [ClearData;
                PopulateData "robot_realtime::timestamps" [time];
                PushBack pwm time "motors_state::PWM";
                PopulateData "robot_realtime::motors_state::currents" pwm;
                SendData])
  ∧ rt_entry sample_names (MOTOR_STATE_CURRENTS_NAME sample_names)
    = "robot_realtime::motors_state::currents"
  ∧ MOTOR_STATE_CURRENTS_NAME sample_names = "motors_state::currents"
  ∧ ∀ stored' evs,
      run sample_names pwm_device t ∅ = Some (stored', evs) →
      ("motors_state::currents" ∉ (appended evs).*1)
      ∧ ("robot_realtime::motors_state::currents", pwm) ∈ published evs
      ∧ List.filter is_SendData evs = [SendData]
      ∧ last evs = Some SendData.
Proof.
  intros t. split_and!; try reflexivity.
  intros stored' evs [= <- <-]. cbn. split_and!; try reflexivity.
  - intros H. apply list_elem_of_singleton in H. discriminate.
  - right. left.
Qed.

(** The same for any names: the PWM goes to the entry of the currents. *)
Lemma motor_pwm_events (N : names) (time : float) (b : SensorBridge) (v : list float) :
  getMotorPWMs b = Some v →
  motor_pwm N time b
  = [PushBack v time (MOTOR_STATE_PWM_NAME N);
     PopulateData (rt_entry N (MOTOR_STATE_CURRENTS_NAME N)) v].
Proof. intros H. unfold motor_pwm. now rewrite H. Qed.

(** A tick in which no source gives a value publishes the time stamp and
    flushes. *)
Example silent_tick :
  let t := {| now := 1.5%float; bridge := silent_bridge;
              readData := λ _, None; pending := [] |} in
  run sample_names pwm_device t ∅
  = Some (∅, [ClearData; PopulateData "robot_realtime::timestamps" [1.5%float]; SendData]).
Proof. reflexivity. Qed.

End TickExamples.

(* ===================================================================== *)
(** * Part III: further properties of the code                            *)
(* ===================================================================== *)

(** ** The variables handler: lookup after registration, layout *)

Section VariablesHandlerLayout.

Import VariablesHandler.

Lemma of_size_t_small (z : Z) : 0 ≤ z < ptrdiff_t_bound → IndexRange.of_size_t z = z.
Proof.
  unfold IndexRange.of_size_t, ptrdiff_t_bound. intros Hz.
  rewrite Z.mod_small by lia. lia.
Qed.

Lemma of_size_t_large (z : Z) :
  ptrdiff_t_bound ≤ z < size_t_modulus → IndexRange.of_size_t z = z - size_t_modulus.
Proof.
  unfold IndexRange.of_size_t, ptrdiff_t_bound, size_t_modulus. intros Hz.
  replace (z + 2 ^ 63) with (z - 2 ^ 63 + 1 * 2 ^ 64) by lia.
  rewrite Z.mod_add by lia. rewrite Z.mod_small by lia. lia.
Qed.

(** X1. A variable registered under a new name is found again: the call
    returns true, [getVariable] gives the range whose offset is the previous
    number of variables and whose size is the size asked for, both converted
    to [std::ptrdiff_t]; the other names keep their ranges, and the number of
    variables grows by the size (modulo [2^64]). While the number of
    variables and the size are below [2^63] the range holds them as they
    are; a size from [2^63] on is stored as the negative [size - 2^64].
    Before the call the name gave the invalid range. *)
Theorem addVariable_then_getVariable (invalid : IndexRange.t) (h : VariablesHandler.t)
    (name : string) (size : Z) :
  m_variables h !! name = None →
  (addVariable name size h).1 = true
  ∧ getVariable invalid name h = invalid
  ∧ getVariable invalid name (addVariable name size h).2
    = {| IndexRange.offset := IndexRange.of_size_t (getNumberOfVariables h);
         IndexRange.size := IndexRange.of_size_t size |}
  ∧ (0 ≤ getNumberOfVariables h < ptrdiff_t_bound → 0 ≤ size < ptrdiff_t_bound →
       getVariable invalid name (addVariable name size h).2
       = {| IndexRange.offset := getNumberOfVariables h; IndexRange.size := size |})
  ∧ (ptrdiff_t_bound ≤ size < size_t_modulus →
       IndexRange.size (getVariable invalid name (addVariable name size h).2)
       = size - size_t_modulus
       ∧ IndexRange.size (getVariable invalid name (addVariable name size h).2) < 0)
  ∧ (∀ other, other ≠ name →
       getVariable invalid other (addVariable name size h).2 = getVariable invalid other h)
  ∧ getNumberOfVariables (addVariable name size h).2
    = (getNumberOfVariables h + size) mod size_t_modulus.
Proof.
  intros Hnone. unfold getVariable, addVariable, getNumberOfVariables.
  rewrite Hnone. cbn. rewrite lookup_insert_eq. split_and!; try reflexivity.
  - intros Hcount Hsize. now rewrite !of_size_t_small.
  - intros Hsize. cbn. rewrite of_size_t_large by exact Hsize.
    unfold size_t_modulus in *. lia.
  - intros other Hother. now rewrite lookup_insert_ne by congruence.
Qed.

Lemma addVariable_then_getVariable_witness :
  let invalid := {| IndexRange.offset := -1; IndexRange.size := -1 |} in
  let h := (addVariable "com" 3 VariablesHandler.empty).2 in
  (addVariable "feet" 12 h).1 = true
  ∧ getVariable invalid "feet" h = invalid
  ∧ getVariable invalid "feet" (addVariable "feet" 12 h).2
    = {| IndexRange.offset := IndexRange.of_size_t (getNumberOfVariables h);
         IndexRange.size := IndexRange.of_size_t 12 |}
  ∧ (0 ≤ getNumberOfVariables h < ptrdiff_t_bound → 0 ≤ 12 < ptrdiff_t_bound →
       getVariable invalid "feet" (addVariable "feet" 12 h).2
       = {| IndexRange.offset := getNumberOfVariables h; IndexRange.size := 12 |})
  ∧ (ptrdiff_t_bound ≤ 12 < size_t_modulus →
       IndexRange.size (getVariable invalid "feet" (addVariable "feet" 12 h).2)
       = 12 - size_t_modulus
       ∧ IndexRange.size (getVariable invalid "feet" (addVariable "feet" 12 h).2) < 0)
  ∧ (∀ other, other ≠ "feet" →
       getVariable invalid other (addVariable "feet" 12 h).2 = getVariable invalid other h)
  ∧ getNumberOfVariables (addVariable "feet" 12 h).2
    = (getNumberOfVariables h + 12) mod size_t_modulus.
Proof.
  intros invalid h. apply (addVariable_then_getVariable invalid h "feet" 12).
  vm_compute. reflexivity.
Defined.

(** A size from [2^63] on is stored negative. *)
Example addVariable_large_size :
  let invalid := {| IndexRange.offset := -1; IndexRange.size := -1 |} in
  let h := (addVariable "com" 5 VariablesHandler.empty).2 in
  getVariable invalid "feet" (addVariable "feet" (2 ^ 64 - 1) h).2
  = {| IndexRange.offset := 5; IndexRange.size := -1 |}.
Proof. vm_compute. reflexivity. Qed.

Lemma allocated_empty : allocated VariablesHandler.empty.
Proof.
  unfold allocated, VariablesHandler.empty, size_t_modulus. cbn. split_and!.
  - lia.
  - lia.
  - intros name r Hr. now rewrite lookup_empty in Hr.
  - intros n1 n2 r1 r2 _ Hr. now rewrite lookup_empty in Hr.
Qed.

Lemma allocated_addVariable (h : VariablesHandler.t) (name : string) (size : Z) :
  allocated h → 0 ≤ size → m_numberOfVariables h + size < ptrdiff_t_bound →
  allocated (addVariable name size h).2
  ∧ m_numberOfVariables (addVariable name size h).2 ≤ m_numberOfVariables h + size
  ∧ m_numberOfVariables h ≤ m_numberOfVariables (addVariable name size h).2.
Proof.
  intros (Hn & Hin & Hdis) Hsize Hfit. unfold addVariable.
  destruct (m_variables h !! name) as [r |] eqn:Hname; cbn.
  { split; [now split_and! | lia]. }
  assert (Hbound : ptrdiff_t_bound < size_t_modulus)
    by (unfold ptrdiff_t_bound, size_t_modulus; lia).
  rewrite Z.mod_small by lia.
  rewrite !of_size_t_small by lia. split; [| lia].
  unfold allocated; cbn. split_and!; try lia.
  - intros n r. rewrite lookup_insert. case_decide as Hn'.
    + intros [= <-]. cbn. lia.
    + intros Hr. destruct (Hin n r Hr) as (? & ? & ?). lia.
  - intros n1 n2 r1 r2 Hne. rewrite !lookup_insert.
    repeat case_decide; subst; try congruence.
    + intros [= <-] Hr2. cbn. destruct (Hin n2 r2 Hr2) as (? & ? & ?). lia.
    + intros Hr1 [= <-]. cbn. destruct (Hin n1 r1 Hr1) as (? & ? & ?). lia.
    + intros Hr1 Hr2. now apply (Hdis n1 n2).
Qed.

Lemma allocated_addVariables (variables : list (string * Z)) (h : VariablesHandler.t) :
  allocated h →
  Forall (λ v, 0 ≤ v.2) variables →
  m_numberOfVariables h + foldr Z.add 0 (variables.*2) < ptrdiff_t_bound →
  allocated (addVariables variables h)
  ∧ m_numberOfVariables (addVariables variables h)
    ≤ m_numberOfVariables h + foldr Z.add 0 (variables.*2).
Proof.
  revert h. induction variables as [| [name size] rest IH]; intros h Hh Hpos Hfit; cbn in *.
  - split; [exact Hh | lia].
  - apply Forall_cons in Hpos as [Hsize Hrest]. cbn in Hsize.
    assert (Hsum : 0 ≤ foldr Z.add 0 (rest.*2)).
    { clear -Hrest. induction Hrest as [| [n s] l Hs _ IHl]; cbn in *; lia. }
    destruct (allocated_addVariable h name size Hh Hsize ltac:(lia)) as (H1 & Hle & _).
    destruct (IH _ H1 Hrest ltac:(lia)) as [H2 Hle2]. split; [exact H2 | lia].
Qed.

(** X2. Starting from the empty handler, any sequence of registrations with
    sizes that are not negative and whose sum is below [2^63] (what the
    signed fields of a range hold) leaves a handler whose ranges have offsets
    and sizes that are not negative, lie below the number of variables and
    do not overlap each other (rejected duplicates included in the
    sequence). *)
Theorem addVariables_layout (variables : list (string * Z)) :
  Forall (λ v, 0 ≤ v.2) variables →
  foldr Z.add 0 (variables.*2) < ptrdiff_t_bound →
  allocated (addVariables variables VariablesHandler.empty).
Proof.
  intros Hpos Hfit.
  now apply (allocated_addVariables variables VariablesHandler.empty allocated_empty Hpos).
Qed.

Lemma addVariables_layout_witness :
  allocated (addVariables [("com", 3); ("feet", 12); ("com", 6)] VariablesHandler.empty).
Proof.
  apply (addVariables_layout [("com", 3); ("feet", 12); ("com", 6)]).
  - repeat constructor; cbn; lia.
  - vm_compute. reflexivity.
Defined.

(** With a sum from [2^63] on the layout is lost: the second range starts
    at a negative offset. *)
Example addVariables_beyond_ptrdiff :
  let invalid := {| IndexRange.offset := -1; IndexRange.size := -1 |} in
  let h := addVariables [("a", 2 ^ 63); ("b", 1)] VariablesHandler.empty in
  getVariable invalid "a" h = {| IndexRange.offset := 0; IndexRange.size := - 2 ^ 63 |}
  ∧ getVariable invalid "b" h = {| IndexRange.offset := - 2 ^ 63; IndexRange.size := 1 |}.
Proof. vm_compute. split; reflexivity. Qed.

End VariablesHandlerLayout.

(** ** The workers: no drift while the clock goes forward *)

Section WorkerCycles.

Import Worker.

Lemma default_last (d x : Z) (l : list Z) :
  default d (last (x :: l)) = default x (last l).
Proof.
  revert d x. induction l as [| y l IH]; intros d x; [reflexivity |].
  change (last (x :: y :: l)) with (last (y :: l)).
  now rewrite (IH d y), (IH x y).
Qed.

Lemma cycles_snoc (period : Z) (readings : list Z) (now : Z) (t : timing) :
  cycles period (readings ++ [now]) t = rearm period now (cycles period readings t).
Proof. unfold cycles. now rewrite fold_left_app. Qed.

Lemma cycles_time (period : Z) (readings : list Z) (t : timing) :
  time (cycles period readings t) = default (time t) (last readings).
Proof.
  revert t. induction readings as [| now later IH]; intros t; [reflexivity |].
  unfold cycles in *. cbn [fold_left]. now rewrite IH, default_last.
Qed.

Lemma cycles_advancing (period : Z) (readings : list Z) (t : timing) :
  advancing (time t) readings →
  wakeUpTime (cycles period readings t) = wakeUpTime t + Z.of_nat (length readings) * period.
Proof.
  revert t. induction readings as [| now later IH]; intros t Hadv.
  - cbn. lia.
  - destruct Hadv as [Hlt Hlater]. unfold cycles in *. cbn [fold_left].
    rewrite (IH (rearm period now t) Hlater), rearm_wakeUpTime, reset_declared_spec.
    rewrite bool_decide_eq_false_2 by lia. cbn [length]. lia.
Qed.

(** X3. While every reading of the clock is greater than the one before, a
    worker accumulates no drift: after [k] cycles its wake-up time is the
    initial one plus [k] periods, whatever the readings were. A reading that
    is not greater than the one before replaces the accumulated wake-up time
    by that reading plus one period. *)
Theorem wake_up_time_does_not_drift (period : Z) (readings : list Z) (t : timing) :
  advancing (time t) readings →
  wakeUpTime (cycles period readings t) = wakeUpTime t + Z.of_nat (length readings) * period
  ∧ (∀ back, back ≤ default (time t) (last readings) →
       wakeUpTime (cycles period (readings ++ [back]) t) = back + period).
Proof.
  intros Hadv. split; [now apply cycles_advancing |].
  intros back Hback. rewrite cycles_snoc, rearm_wakeUpTime, reset_declared_spec, cycles_time.
  now rewrite bool_decide_eq_true_2.
Qed.

Lemma wake_up_time_does_not_drift_witness :
  let t := start 1000 in
  wakeUpTime (cycles lookForNewLogsPeriod [2000000400; 4000000900; 6000000100] t)
  = wakeUpTime t + Z.of_nat 3 * lookForNewLogsPeriod
  ∧ (∀ back, back ≤ default (time t) (last [2000000400; 4000000900; 6000000100]) →
       wakeUpTime (cycles lookForNewLogsPeriod
                     ([2000000400; 4000000900; 6000000100] ++ [back]) t)
       = back + lookForNewLogsPeriod).
Proof.
  intros t.
  apply (wake_up_time_does_not_drift lookForNewLogsPeriod
           [2000000400; 4000000900; 6000000100] t).
  cbn. lia.
Defined.

End WorkerCycles.

(** ** The discovery of the text-logging ports: the filter, repeated scans *)

Section LogDiscoveryMore.

Import LogDiscovery.

Lemma index_empty (str : string) (pos : nat) :
  (pos ≤ String.length str)%nat → String.index pos "" str = Some pos.
Proof.
  revert pos. induction str as [| c s IH]; intros pos Hpos.
  - cbn in Hpos. assert (pos = 0%nat) as -> by lia. reflexivity.
  - destruct pos as [| pos]; [reflexivity |].
    cbn in *. now rewrite IH by lia.
Qed.

(** X4. [hasSubstring] holds exactly when one of the substrings occurs in
    the string; an empty string in the list occurs in every string, and with
    an empty list nothing is found. *)
Theorem hasSubstring_spec (str : string) (substrings : list string) :
  (hasSubstring str substrings = true
   ↔ ∃ substring, substring ∈ substrings ∧ is_Some (String.index 0 substring str))
  ∧ ("" ∈ substrings → hasSubstring str substrings = true)
  ∧ hasSubstring str [] = false.
Proof.
  assert (Hiff : ∀ subs, hasSubstring str subs = true
                 ↔ ∃ substring, substring ∈ subs ∧ is_Some (String.index 0 substring str)).
  { induction subs as [| sub rest IH]; cbn.
    - split; [discriminate | intros (x & Hx & _); inversion Hx].
    - destruct (String.index 0 sub str) as [k |] eqn:Hk.
      + split; [| reflexivity]. intros _. exists sub. split; [left | now rewrite Hk].
      + rewrite IH. split.
        * intros (x & Hx & Hsome). exists x. split; [now right | exact Hsome].
        * intros (x & [-> | Hx]%elem_of_cons & Hsome).
          -- rewrite Hk in Hsome. now destruct Hsome.
          -- now exists x. }
  split_and!; [apply Hiff | | reflexivity].
  intros Hin. apply Hiff. exists "". split; [exact Hin |].
  rewrite index_empty by lia. eauto.
Qed.

Lemma to_connect_accepted (st : state) (p : port) :
  to_connect st p = true → accepted (m_textLoggingSubnames st) (name p).
Proof.
  unfold to_connect, accepted. intros H.
  apply andb_prop in H as [H _]. apply andb_prop in H as [H Hsub].
  apply andb_prop in H as [Hpre _]. split; [exact Hpre |].
  destruct (m_textLoggingSubnames st); [now left | right; exact Hsub].
Qed.

Lemma visit_accepted (st : state) (p : port) (n : string) (ok : bool) :
  Connect n ok ∈ (visit st p).2 → accepted (m_textLoggingSubnames st) n.
Proof.
  unfold visit. destruct (to_connect st p) eqn:Hc; cbn.
  - intros [= -> _]%list_elem_of_singleton. now apply to_connect_accepted.
  - intros H. inversion H.
Qed.

Lemma scan_accepted (yarpPorts : list port) (st : state) (n : string) (ok : bool) :
  Connect n ok ∈ (scan yarpPorts st).2 → accepted (m_textLoggingSubnames st) n.
Proof.
  revert st. induction yarpPorts as [| p rest IH]; intros st; cbn.
  - intros H. inversion H.
  - pose proof (visit_accepted st p n ok) as Hv.
    destruct (visit_extends st p) as (_ & _ & _ & Hsub).
    destruct (visit st p) as [st1 ev1]. specialize (IH st1).
    destruct (scan rest st1) as [st2 ev2]. cbn in *.
    intros [H | H]%elem_of_app; [auto |]. rewrite <- Hsub. auto.
Qed.

Lemma session_accepted (scans : list (list port)) (st : state) (n : string) (ok : bool) :
  Connect n ok ∈ (session scans st).2 → accepted (m_textLoggingSubnames st) n.
Proof.
  revert st. induction scans as [| yarpPorts later IH]; intros st; cbn.
  - intros H. inversion H.
  - pose proof (scan_accepted yarpPorts st n ok) as Hs.
    destruct (scan_extends yarpPorts st) as (_ & _ & _ & Hsub).
    destruct (scan yarpPorts st) as [st1 ev1]. specialize (IH st1).
    destruct (session later st1) as [st2 ev2]. cbn in *.
    intros [H | H]%elem_of_app; [auto |]. rewrite <- Hsub. auto.
Qed.

(** X5. The discovery never connects to a port that the filter rejects:
    every name [connect] is invoked for, and every name that enters the set
    of the text-logging ports, starts with ["/log/"] and, when sub-names are
    configured, contains one of them. *)
Theorem only_accepted_ports_are_connected (scans : list (list port)) (st : state)
    (n : string) :
  (∀ ok, Connect n ok ∈ (session scans st).2 → accepted (m_textLoggingSubnames st) n)
  ∧ (n ∈ m_textLoggingPortNames (session scans st).1 →
     n ∈ m_textLoggingPortNames st ∨ accepted (m_textLoggingSubnames st) n).
Proof.
  split; [intros ok; apply session_accepted |].
  destruct (session_extends scans st) as (_ & _ & Hset & _). rewrite Hset.
  rewrite elem_of_union, elem_of_list_to_set, list_elem_of_fmap.
  intros [(e & -> & He) | Hin]; [right | now left].
  destruct e as [m ok]. now apply (session_accepted scans st m ok).
Qed.

(** X6. The set of the text-logging ports only grows, and the list of the
    sub-names is never modified: whatever the scans, every name of the set
    is still in it afterwards. *)
Theorem port_set_only_grows (scans : list (list port)) (st : state) :
  m_textLoggingPortNames st ⊆ m_textLoggingPortNames (session scans st).1
  ∧ m_textLoggingSubnames (session scans st).1 = m_textLoggingSubnames st.
Proof.
  destruct (session_extends scans st) as (_ & _ & Hset & Hsub).
  split; [rewrite Hset; set_solver | exact Hsub].
Qed.

Lemma scan_grows (yarpPorts : list port) (st : state) :
  m_textLoggingPortNames st ⊆ m_textLoggingPortNames (scan yarpPorts st).1.
Proof.
  destruct (scan_extends yarpPorts st) as (_ & _ & Hset & _). rewrite Hset. set_solver.
Qed.

Lemma visit_again (st st' : state) (p : port) :
  m_textLoggingPortNames (visit st p).1 ⊆ m_textLoggingPortNames st' →
  m_textLoggingSubnames st' = m_textLoggingSubnames st →
  visit st' p = (st', []).
Proof.
  intros Hsub Hnames. unfold visit in *.
  destruct (to_connect st p) eqn:Hc; cbn in Hsub.
  - assert (Hin : name p ∈ m_textLoggingPortNames st') by set_solver.
    unfold to_connect. rewrite (bool_decide_eq_false_2 _ (λ H, H Hin)).
    now rewrite andb_false_r.
  - assert (Hc' : to_connect st' p = false); [| now rewrite Hc'].
    destruct (decide (name p ∈ m_textLoggingPortNames st')) as [Hin | Hnin].
    + unfold to_connect. rewrite (bool_decide_eq_false_2 _ (λ H, H Hin)).
      now rewrite andb_false_r.
    + assert (Hold : name p ∉ m_textLoggingPortNames st) by set_solver.
      unfold to_connect in *. rewrite Hnames.
      rewrite (bool_decide_eq_true_2 _ Hnin).
      now rewrite (bool_decide_eq_true_2 _ Hold) in Hc.
Qed.

Lemma scan_again (yarpPorts : list port) (st st' : state) :
  m_textLoggingPortNames (scan yarpPorts st).1 ⊆ m_textLoggingPortNames st' →
  m_textLoggingSubnames st' = m_textLoggingSubnames st →
  scan yarpPorts st' = (st', []).
Proof.
  revert st. induction yarpPorts as [| p rest IH]; intros st Hsub Hnames; [reflexivity |].
  cbn in *. destruct (visit_extends st p) as (_ & _ & _ & Hsub1).
  pose proof (scan_grows rest (visit st p).1) as Hgrow.
  destruct (visit st p) as [st1 ev1] eqn:Hv. cbn in *.
  destruct (scan rest st1) as [st2 ev2] eqn:Hs. cbn in *.
  rewrite (visit_again st st' p).
  - rewrite (IH st1); [reflexivity | now rewrite Hs | congruence].
  - rewrite Hv. cbn. set_solver.
  - exact Hnames.
Qed.

(** X7. Scanning the same list of ports again, with the same answers of the
    network, does nothing: no connection is attempted and the state is
    unchanged. *)
Theorem scan_twice (yarpPorts : list port) (st : state) :
  scan yarpPorts (scan yarpPorts st).1 = ((scan yarpPorts st).1, []).
Proof.
  apply (scan_again yarpPorts st); [reflexivity |].
  now destruct (scan_extends yarpPorts st) as (_ & _ & _ & Hsub).
Qed.

End LogDiscoveryMore.

(** ** [findAndReplaceAll]: when it ends *)

Section ReplaceFacts.

Import Run.

Lemma prefix_length (t s : string) :
  String.prefix t s = true → (String.length t ≤ String.length s)%nat.
Proof.
  revert s. induction t as [| a t IH]; intros s; [cbn; lia |].
  destruct s as [| b s]; cbn; [discriminate |].
  destruct (ascii_dec a b); [| discriminate]. intros H. apply IH in H. lia.
Qed.

Lemma index_bounds (t s : string) (q p : nat) :
  String.index q t s = Some p →
  (q ≤ p)%nat ∧ (p + String.length t ≤ String.length s)%nat.
Proof.
  revert q p. induction s as [| b s IH]; intros q p.
  - cbn. destruct q; [| discriminate]. destruct t; [| discriminate].
    intros [= <-]. cbn. lia.
  - destruct q as [| q].
    + cbn [String.index]. destruct (String.prefix t (String b s)) eqn:Hpre.
      * intros [= <-]. apply prefix_length in Hpre. lia.
      * destruct (String.index 0 t s) as [n |] eqn:Hn; [| discriminate].
        intros [= <-]. destruct (IH 0%nat n Hn). cbn. lia.
    + cbn [String.index]. destruct (String.index q t s) as [n |] eqn:Hn; [| discriminate].
      intros [= <-]. destruct (IH q n Hn). cbn. lia.
Qed.

Lemma substring_length (s : string) (n m : nat) :
  (n + m ≤ String.length s)%nat → String.length (String.substring n m s) = m.
Proof.
  revert n m. induction s as [| c s IH]; intros n m H.
  - cbn in H. assert (n = 0%nat) as -> by lia. assert (m = 0%nat) as -> by lia. reflexivity.
  - destruct n as [| n].
    + destruct m as [| m]; [reflexivity |]. cbn in *. rewrite IH; lia.
    + cbn in *. apply IH. lia.
Qed.

Lemma replace_length (data str : string) (pos len : nat) :
  (pos + len ≤ String.length data)%nat →
  String.length (replace data pos len str)
  = (String.length data - len + String.length str)%nat.
Proof.
  intros H. unfold replace.
  rewrite !length_append, !substring_length by lia. lia.
Qed.

(** With a search string that is not empty, the loop ends within as many
    iterations as there are characters behind the position the search
    started from. *)
Lemma findAndReplaceAll_loop_ends (toSearch replaceStr : string) (fuel : nat)
    (data : string) (from : nat) :
  toSearch ≠ "" →
  (from ≤ String.length data)%nat →
  (String.length data - from ≤ fuel)%nat →
  is_Some (findAndReplaceAll_loop fuel data toSearch replaceStr
             (String.index from toSearch data)).
Proof.
  intros Hne. assert (Hlen : (1 ≤ String.length toSearch)%nat).
  { destruct toSearch; [congruence | cbn; lia]. }
  revert data from. induction fuel as [| fuel IH]; intros data from Hfrom Hfuel.
  - destruct (String.index from toSearch data) as [p |] eqn:Hp; [| cbn; eauto].
    apply index_bounds in Hp. lia.
  - destruct (String.index from toSearch data) as [p |] eqn:Hp; [| cbn; eauto].
    apply index_bounds in Hp as [Hqp Hpt]. cbn [findAndReplaceAll_loop].
    pose proof (replace_length data replaceStr p (String.length toSearch) Hpt) as Hrl.
    apply IH; lia.
Qed.

(** With an empty search string the loop never ends: the search finds the
    empty string where it starts, and the insertion keeps that position
    within the string. *)
Lemma findAndReplaceAll_loop_empty (replaceStr : string) (fuel : nat) (data : string)
    (pos : nat) :
  (pos ≤ String.length data)%nat →
  findAndReplaceAll_loop fuel data "" replaceStr (Some pos) = None.
Proof.
  revert data pos. induction fuel as [| fuel IH]; intros data pos Hpos; [reflexivity |].
  cbn [findAndReplaceAll_loop String.length].
  pose proof (replace_length data replaceStr pos 0 ltac:(lia)) as Hrl.
  rewrite index_empty by lia. apply IH. lia.
Qed.

(** X8. [findAndReplaceAll] ends for every search string that is not
    empty, whatever the replacement (also one that contains the search
    string); when the search string does not occur, the data are
    unchanged. *)
Theorem findAndReplaceAll_ends (data toSearch replaceStr : string) :
  toSearch ≠ "" →
  (∃ result, findAndReplaceAll data toSearch replaceStr = Some result)
  ∧ (String.index 0 toSearch data = None →
     findAndReplaceAll data toSearch replaceStr = Some data).
Proof.
  intros Hne. split.
  - apply (findAndReplaceAll_loop_ends toSearch replaceStr _ data 0 Hne); lia.
  - intros Hnone. unfold findAndReplaceAll. rewrite Hnone. now destruct (String.length data).
Qed.

Lemma findAndReplaceAll_ends_witness :
  (∃ result, findAndReplaceAll "a-b-c" "-" "--" = Some result)
  ∧ (String.index 0 "-" "a-b-c" = None → findAndReplaceAll "a-b-c" "-" "--" = Some "a-b-c").
Proof. apply (findAndReplaceAll_ends "a-b-c" "-" "--"). discriminate. Defined.

(** X9. With an empty search string the loop of [findAndReplaceAll] does not
    end, whatever the data and the replacement: no number of iterations is
    enough. *)
Theorem findAndReplaceAll_empty_search_diverges (data replaceStr : string) (fuel : nat) :
  findAndReplaceAll_loop fuel data "" replaceStr (String.index 0 "" data) = None
  ∧ findAndReplaceAll data "" replaceStr = None.
Proof.
  unfold findAndReplaceAll. rewrite index_empty by lia.
  split; apply findAndReplaceAll_loop_empty; lia.
Qed.

Lemma substitute_length (a b : ascii) (s : string) :
  String.length (substitute a b s) = String.length s.
Proof. induction s as [| c s IH]; [reflexivity |]. cbn. now rewrite IH. Qed.

Lemma substitute_same (a : ascii) (s : string) : substitute a a s = s.
Proof.
  induction s as [| c s IH]; [reflexivity |]. cbn. rewrite IH.
  now destruct (Ascii.eqb_spec c a) as [-> |].
Qed.

Lemma substitute_absent (a b : ascii) (s : string) :
  String.index 0 (String a "") s = None → substitute a b s = s.
Proof.
  induction s as [| c s IH]; [reflexivity |].
  rewrite index_char. cbn [substitute]. destruct (Ascii.eqb c a); [discriminate |].
  destruct (String.index 0 (String a "") s); [discriminate |]. intros _. now rewrite IH.
Qed.

(** X10. Replacing one character by another: [findAndReplaceAll] ends with
    the string in which every occurrence is replaced, of the same length;
    replacing a character by itself gives the data back; when the two
    characters differ, the first does not occur in the result, and a second
    call changes nothing. *)
Theorem findAndReplaceAll_characters (a b : ascii) (data : string) :
  findAndReplaceAll data (String a "") (String b "") = Some (substitute a b data)
  ∧ String.length (substitute a b data) = String.length data
  ∧ findAndReplaceAll data (String a "") (String a "") = Some data
  ∧ (a ≠ b →
     String.index 0 (String a "") (substitute a b data) = None
     ∧ findAndReplaceAll (substitute a b data) (String a "") (String b "")
       = Some (substitute a b data)).
Proof.
  split_and!.
  - apply findAndReplaceAll_char.
  - apply substitute_length.
  - now rewrite findAndReplaceAll_char, substitute_same.
  - intros Hab. pose proof (substitute_removes a b data Hab) as Hnone.
    split; [exact Hnone |].
    now rewrite findAndReplaceAll_char, (substitute_absent a b _ Hnone).
Qed.

End ReplaceFacts.

(** ** The acquisition tick: what is appended and published *)

Section TickMore.

Import Run.

(** X11. [unpackIMU] cuts the first nine elements of the signal of an IMU in
    three: the orientation, the accelerometer and the gyro, in this order,
    three elements each; what follows (the magnetic field) is dropped. *)
Theorem unpackIMU_segments (signal : list float) :
  (9 ≤ length signal)%nat →
  let '(accelerometer, gyro, orientation) := unpackIMU signal in
  orientation ++ accelerometer ++ gyro = take 9 signal
  ∧ length orientation = 3%nat ∧ length accelerometer = 3%nat ∧ length gyro = 3%nat.
Proof.
  intros Hlen. unfold unpackIMU, segment3. cbn [skipn].
  do 9 (destruct signal as [| ? signal]; [cbn in Hlen; lia |]).
  cbn. auto.
Qed.

Lemma unpackIMU_segments_witness :
  let signal := [1; 2; 3; 4; 5; 6; 7; 8; 9; 10; 11; 12]%float in
  let '(accelerometer, gyro, orientation) := unpackIMU signal in
  orientation ++ accelerometer ++ gyro = take 9 signal
  ∧ length orientation = 3%nat ∧ length accelerometer = 3%nat ∧ length gyro = 3%nat.
Proof.
  apply (unpackIMU_segments [1; 2; 3; 4; 5; 6; 7; 8; 9; 10; 11; 12]%float).
  cbn. lia.
Defined.

Context (N : names) (dev : device).

(** The blocks of the sources again, at the time of the tick. *)
Lemma sources_blocks_at (P : list event → Prop) (t : tick) :
  P [] →
  (∀ a b, P a → P b → P (a ++ b)) →
  (∀ v n, P [PushBack v (now t) n; PopulateData (rt_entry N n) v]) →
  (m_streamMotorPWM dev = true →
   ∀ v, P [PushBack v (now t) (MOTOR_STATE_PWM_NAME N);
            PopulateData (rt_entry N (MOTOR_STATE_CURRENTS_NAME N)) v]) →
  P (sources N dev t).
Proof.
  intros Hnil Happ Hpair Hpwm.
  assert (Hwhen : ∀ flag body, P body → P (when flag body)).
  { intros [] body Hb; [exact Hb | exact Hnil]. }
  assert (Hon : ∀ (A : Type) (got : option A) f, (∀ v, P (f v)) → P (on_success got f)).
  { intros A [v |] f Hf; [apply Hf | exact Hnil]. }
  assert (Hfor : ∀ (A : Type) (xs : list A) body, (∀ x, P (body x)) → P (for_all xs body)).
  { intros A xs body Hb. induction xs as [| x xs IH]; [exact Hnil |].
    cbn. apply Happ; [apply Hb | exact IH]. }
  assert (Hsensors : ∀ K sensors get, P (vector_sensors N (now t) K sensors get)).
  { intros K sensors get. apply Hfor. intros x. apply Hon. intros v. apply Hpair. }
  unfold sources.
  apply Happ.
  { apply Hwhen. unfold joint_states.
    repeat (apply Happ; [apply Hon; intros v; apply Hpair |]).
    apply Hon; intros v; apply Hpair. }
  apply Happ.
  { apply Hwhen. unfold motor_states.
    repeat (apply Happ; [apply Hon; intros v; apply Hpair |]).
    apply Hon; intros v; apply Hpair. }
  apply Happ.
  { destruct (m_streamMotorPWM dev) eqn:Hflag; [| exact Hnil].
    cbn. unfold motor_pwm. apply Hon. intros v. now apply Hpwm. }
  apply Happ.
  { apply Hwhen. unfold pids. apply Hon; intros v; apply Hpair. }
  apply Happ; [apply Hwhen, Hsensors |].
  apply Happ.
  { apply Hwhen. unfold temperature_sensors. apply Hfor. intros x. apply Hon. intros v.
    apply Hpair. }
  apply Happ.
  { apply Hwhen. unfold inertials. repeat (apply Happ; [apply Hsensors |]). apply Hsensors. }
  apply Happ.
  { unfold imus. apply Hfor. intros x. apply Hon. intros v.
    destruct (unpackIMU v) as [[acc gyro] orientation].
    apply (Happ [_; _] [_; _; _; _]); [apply Hpair |].
    apply (Happ [_; _] [_; _]); apply Hpair. }
  apply Happ; [apply Hwhen, Hsensors |].
  unfold exogenous. apply Hfor. intros [name signal]. apply Hon. intros vectors.
  apply Hfor. intros [key vector]. apply Hpair.
Qed.

Lemma run_events (t : tick) (stored : gset string) :
  ∃ stored' added,
    run N dev t stored = Some (stored', [ClearData] ++ streams N dev t ++ added ++ [SendData])
    ∧ Forall (λ e, is_data e = false) added.
Proof.
  destruct (run_grows N dev t stored) as (stored' & added & Hrun & Hlogs & _ & _).
  exists stored', added. split; [exact Hrun |].
  clear Hrun. revert stored stored' added Hlogs.
  induction (pending t) as [| msg rest IH]; intros stored stored' added; cbn.
  - intros [= <- <-]. constructor.
  - destruct (isValid msg); [| apply IH].
    destruct (findAndReplaceAll _ _ _) as [signalName |]; [| discriminate].
    case_bool_decide; [apply IH |].
    destruct (text_logs rest _) as [[s' evs] |] eqn:Hrest; [| discriminate].
    intros [= <- <-]. constructor; [reflexivity | eapply IH; exact Hrest].
Qed.

Lemma appended_not_data (evs : list event) :
  Forall (λ e, is_data e = false) evs → appended evs = [] ∧ published evs = [].
Proof.
  induction 1 as [| e evs He _ [IH1 IH2]]; [auto |].
  destruct e; cbn in *; try discriminate; auto.
Qed.

(** X12. Every value a tick appends to the buffer manager carries the same
    time, the reading of the clock taken at the beginning of the tick. *)
Theorem run_appends_at_tick_time (t : tick) (stored : gset string) :
  ∃ stored' evs,
    run N dev t stored = Some (stored', evs)
    ∧ ∀ value time channel, PushBack value time channel ∈ evs → time = now t.
Proof.
  destruct (run_events t stored) as (stored' & added & Hrun & Hadded).
  eexists _, _. split; [exact Hrun |].
  intros value time channel. unfold streams.
  rewrite !elem_of_app, !elem_of_cons, !elem_of_nil.
  intros [[H | []] | [[[H | []] | H] | [H | [H | []]]]]; try discriminate.
  - revert H. pattern (sources N dev t). apply sources_blocks_at.
    + intros H. inversion H.
    + intros a b Ha Hb [H | H]%elem_of_app; auto.
    + intros v n. rewrite !elem_of_cons, elem_of_nil.
      intros [H | [H | []]]; [now injection H | discriminate].
    + intros _ v. rewrite !elem_of_cons, elem_of_nil.
      intros [H | [H | []]]; [now injection H | discriminate].
  - rewrite Forall_forall in Hadded. apply Hadded in H. discriminate.
Qed.

(** X13. When the motor PWM is not streamed, a tick publishes the time stamp
    and then exactly what it appends, in the same order, each value under the
    real-time entry of its channel (the root, the delimiter, the name of the
    channel). *)
Theorem run_publishes_what_it_appends (t : tick) (stored : gset string) :
  m_streamMotorPWM dev = false →
  ∃ stored' evs,
    run N dev t stored = Some (stored', evs)
    ∧ published evs
      = (rt_entry N (TIMESTAMPS_NAME N), [now t])
        :: ((λ p, (rt_entry N p.1, p.2)) <$> appended evs).
Proof.
  intros Hpwm. destruct (run_events t stored) as (stored' & added & Hrun & Hadded).
  eexists _, _. split; [exact Hrun |].
  destruct (appended_not_data added Hadded) as [Ha Hp].
  pose proof (sources_mirror N dev t Hpwm) as Hm. unfold mirrors in Hm.
  unfold streams. rewrite !published_app, !appended_app, Ha, Hp, Hm. cbn.
  now rewrite !app_nil_r.
Qed.

Lemma text_logs_covers (messages : list TextLoggingEntry) (stored stored' : gset string)
    (added : list event) :
  text_logs messages stored = Some (stored', added) →
  stored ⊆ stored'
  ∧ ∀ msg, msg ∈ messages → isValid msg = true →
      substitute "-" "_" (text_signal_name msg) ∈ stored'.
Proof.
  revert stored stored' added.
  induction messages as [| msg rest IH]; intros stored stored' added; cbn [text_logs].
  - intros [= <- <-]. split; [reflexivity |]. intros m Hm. inversion Hm.
  - destruct (isValid msg) eqn:Hvalid.
    + rewrite (findAndReplaceAll_char "-" "_"). case_bool_decide as Hin.
      * intros H. destruct (IH _ _ _ H) as [Hsub Hall]. split; [exact Hsub |].
        intros m [-> | Hm]%elem_of_cons Hv; [set_solver | now apply Hall].
      * destruct (text_logs rest _) as [[s' evs] |] eqn:Hrest; [| discriminate].
        intros [= <- <-]. destruct (IH _ _ _ Hrest) as [Hsub Hall].
        split; [set_solver |].
        intros m [-> | Hm]%elem_of_cons Hv; [set_solver | now apply Hall].
    + intros H. destruct (IH _ _ _ H) as [Hsub Hall]. split; [exact Hsub |].
      intros m [-> | Hm]%elem_of_cons Hv; [congruence | now apply Hall].
Qed.

Lemma text_logs_known (messages : list TextLoggingEntry) (stored : gset string) :
  (∀ msg, msg ∈ messages → isValid msg = true →
     substitute "-" "_" (text_signal_name msg) ∈ stored) →
  text_logs messages stored = Some (stored, []).
Proof.
  induction messages as [| msg rest IH]; intros Hknown; [reflexivity |].
  cbn [text_logs]. destruct (isValid msg) eqn:Hvalid.
  - rewrite (findAndReplaceAll_char "-" "_").
    rewrite bool_decide_eq_true_2 by (apply Hknown; [left | exact Hvalid]).
    apply IH. intros m Hm. apply Hknown. now right.
  - apply IH. intros m Hm. apply Hknown. now right.
Qed.

(** X14. A producer of text logs that was seen in a tick creates no channel
    in a later tick: when the messages of a tick are among those of an
    earlier one, the later tick adds no channel and leaves the stored set as
    it is. *)
Theorem known_producers_add_no_channel (t t' : tick) (stored : gset string) :
  pending t' ⊆ pending t →
  ∃ stored1 evs1 evs2,
    run N dev t stored = Some (stored1, evs1)
    ∧ run N dev t' stored1 = Some (stored1, evs2)
    ∧ added_channels evs2 = [].
Proof.
  intros Hsub.
  destruct (run_grows N dev t stored) as (stored1 & added & Hrun & Hlogs & _ & _).
  destruct (text_logs_covers _ _ _ _ Hlogs) as [_ Hall].
  assert (Hknown : text_logs (pending t') stored1 = Some (stored1, [])).
  { apply text_logs_known. intros msg Hmsg. apply Hall, Hsub, Hmsg. }
  eexists _, _, _. split; [exact Hrun |]. unfold run at 1. rewrite Hknown.
  split; [reflexivity |].
  rewrite !added_channels_app, (added_channels_data _ (streams_data N dev t')). reflexivity.
Qed.

End TickMore.

Section TickMoreExamples.

Import Run.

Lemma run_publishes_what_it_appends_witness :
  let dev :=
    {| m_streamJointStates := false; m_streamMotorStates := false;
       m_streamMotorPWM := false; m_streamPIDs := true;
       m_streamFTSensors := false; m_streamTemperatureSensors := false;
       m_streamInertials := false; m_streamCartesianWrenches := false;
       m_vectorsCollectionSignals := [] |} in
  let t := {| now := 1.5%float; bridge := pwm_bridge [0.25%float];
              readData := λ _, None; pending := [] |} in
  ∃ stored' evs,
    run sample_names dev t ∅ = Some (stored', evs)
    ∧ published evs
      = (rt_entry sample_names (TIMESTAMPS_NAME sample_names), [now t])
        :: ((λ p, (rt_entry sample_names p.1, p.2)) <$> appended evs).
Proof.
  intros dev t. apply (run_publishes_what_it_appends sample_names dev t ∅). reflexivity.
Defined.

Lemma known_producers_add_no_channel_witness :
  let msg := {| isValid := true; portSystem := "yarp-os"; portPrefix := "log";
                processName := "walking"; processPID := "12" |} in
  let t := {| now := 1.5%float; bridge := silent_bridge;
              readData := λ _, None; pending := [msg; msg] |} in
  let t' := {| now := 2.5%float; bridge := silent_bridge;
               readData := λ _, None; pending := [msg] |} in
  ∃ stored1 evs1 evs2,
    run sample_names pwm_device t ∅ = Some (stored1, evs1)
    ∧ run sample_names pwm_device t' stored1 = Some (stored1, evs2)
    ∧ added_channels evs2 = [].
Proof.
  intros msg t t'. apply (known_producers_add_no_channel sample_names pwm_device t t' ∅).
  cbn. intros x Hx. apply elem_of_cons. right. exact Hx.
Defined.

End TickMoreExamples.

(** ** The save callback: the last rotation, the status of the code *)

Create HintDb callback_events.

Section SaveCallbackMore.

Import SaveCallback.

Lemma emits_ret {A : Type} (P : event → Prop) (a : A) : emits P (ret a).
Proof. intros w w1 evs f [= _ <- _]. constructor. Qed.

Lemma emits_leave {A : Type} (P : event → Prop) (r : outcome) : emits P (@leave A r).
Proof. intros w w1 evs f [= _ <- _]. constructor. Qed.

Lemma emits_emit (P : event → Prop) (e : event) : P e → emits P (emit e).
Proof. intros He w w1 evs f [= _ <- _]. now repeat constructor. Qed.

Lemma emits_subscript (P : event → Prop) (c : string) : emits P (subscript c).
Proof.
  intros w w1 evs f. unfold subscript. destruct (w !! c); intros [= _ <- _]; constructor.
Qed.

Lemma emits_bind {A B : Type} (P : event → Prop) (m : M A) (k : A → M B) :
  emits P m → (∀ a, emits P (k a)) → emits P (m ≫= k).
Proof.
  intros Hm Hk w w2 evs f. rewrite bind_run.
  destruct (m w) as [[w1 ev1] [a | r]] eqn:Hmw.
  - destruct (k a w1) as [[w2' ev2] f'] eqn:Hkw. intros [= _ <- _].
    apply Forall_app. split; [eapply Hm | eapply Hk]; eassumption.
  - intros [= _ <- _]. eapply Hm. eassumption.
Qed.

#[local] Hint Resolve emits_ret emits_leave emits_subscript : callback_events.
#[local] Hint Extern 1 (emits _ (emit _)) => apply emits_emit; reflexivity : callback_events.
#[local] Hint Extern 2 (emits _ (_ ≫= _)) => apply emits_bind; [| intros ?] : callback_events.
#[local] Hint Extern 3 (emits _ (match ?x with _ => _ end)) => destruct x : callback_events.

Section Callback.

Context (fileName : string) (fs : filesystem) (dev : device).

Lemma emits_for_each (P : event → Prop) (cameras : list string) (body : string → M unit) :
  (∀ c, emits P (body c)) → emits P (for_each cameras body).
Proof.
  intros Hbody. induction cameras as [| c rest IH]; cbn; auto with callback_events.
Qed.

Lemma saveVideo_no_reopen (saver : option ImageSaver) (c t : string) :
  emits (λ e, is_reopen e = false) (saveVideo fileName fs saver c t).
Proof. unfold saveVideo. auto 10 with callback_events. Qed.

Lemma saveVideo_no_CodeStatus (saver : option ImageSaver) (c t : string) :
  emits (λ e, is_CodeStatus e = false) (saveVideo fileName fs saver c t).
Proof. unfold saveVideo. auto 10 with callback_events. Qed.

Lemma openVideoWriter_no_CodeStatus (saver : option ImageSaver) (m : member) (c t : string)
    (dims : gmap string (nat * nat)) :
  emits (λ e, is_CodeStatus e = false) (openVideoWriter saver m c t dims).
Proof.
  unfold openVideoWriter. destruct saver; [| auto with callback_events].
  intros w w1 evs f. destruct (dims !! c), (w !! c); intros [= _ <- _]; repeat constructor.
Qed.

Lemma createFramesFolder_no_CodeStatus (saver : option ImageSaver) (c t : string) :
  emits (λ e, is_CodeStatus e = false) (createFramesFolder fs saver c t).
Proof. unfold createFramesFolder. auto 10 with callback_events. Qed.

Lemma or_return_false_emits (P : event → Prop) (call : M bool) :
  emits P call → emits P (or_return_false call).
Proof. intros H. unfold or_return_false. auto 10 with callback_events. Qed.

Lemma reopen_no_CodeStatus (m : member) (c t : string) (dims : gmap string (nat * nat)) :
  emits (λ e, is_CodeStatus e = false) (reopen fs m c t dims).
Proof.
  pose proof or_return_false_emits. pose proof openVideoWriter_no_CodeStatus.
  pose proof createFramesFolder_no_CodeStatus.
  unfold reopen, saveMode_of. auto 12 with callback_events.
Qed.

Lemma loops_no_CodeStatus (method : SaveCallbackSaveMethod) :
  emits (λ e, is_CodeStatus e = false)
    (for_each (m_rgbCamerasList dev) (rgb_iteration fileName method fs dev))
  ∧ emits (λ e, is_CodeStatus e = false)
      (for_each (m_rgbdCamerasList dev) (rgbd_iteration fileName method fs dev)).
Proof.
  pose proof or_return_false_emits. pose proof saveVideo_no_CodeStatus.
  pose proof reopen_no_CodeStatus.
  split; apply emits_for_each; intros c; unfold rgb_iteration, rgbd_iteration;
    auto 16 with callback_events.
Qed.

Lemma loops_no_reopen :
  emits (λ e, is_reopen e = false)
    (for_each (m_rgbCamerasList dev) (rgb_iteration fileName last_call fs dev))
  ∧ emits (λ e, is_reopen e = false)
      (for_each (m_rgbdCamerasList dev) (rgbd_iteration fileName last_call fs dev)).
Proof.
  pose proof or_return_false_emits. pose proof saveVideo_no_reopen.
  split; apply emits_for_each; intros c; unfold rgb_iteration, rgbd_iteration;
    auto 16 with callback_events.
Qed.

(** X15. On the last rotation (a save method that is not periodic) the
    callback opens no writer and creates no folder: the streams it finalizes
    are left closed, whatever the cameras and the file system. *)
Theorem last_call_reopens_nothing :
  Forall (λ e, is_reopen e = false) (saveCallback fileName last_call fs dev).1.
Proof.
  destruct loops_no_reopen as [Hrgb Hrgbd].
  assert (H : emits (λ e, is_reopen e = false) (saveCallback_body fileName last_call fs dev)).
  { unfold saveCallback_body. auto 10 with callback_events. }
  unfold saveCallback.
  destruct (saveCallback_body fileName last_call fs dev (m_videoWriters dev))
    as [[w evs] [b | r]] eqn:Hbody; cbn; eapply H; exact Hbody.
Qed.

(** X16. The status of the code is written exactly when the callback
    returns true, as its last event and only once; when the callback ends in
    any other way (false, an exception), the status is not written. *)
Theorem code_status_written_on_success (method : SaveCallbackSaveMethod) :
  ((saveCallback fileName method fs dev).2 = Returned true
   ∧ ∃ evs, (saveCallback fileName method fs dev).1 = evs ++ [CodeStatus (fileName +:+ ".md")]
            ∧ Forall (λ e, is_CodeStatus e = false) evs)
  ∨ ((saveCallback fileName method fs dev).2 ≠ Returned true
     ∧ Forall (λ e, is_CodeStatus e = false) (saveCallback fileName method fs dev).1).
Proof.
  destruct (loops_no_CodeStatus method) as [Hrgb Hrgbd].
  pose proof (leaves_for_each (m_rgbCamerasList dev) _
                (leaves_rgb_iteration fileName method fs dev)) as Lrgb.
  pose proof (leaves_for_each (m_rgbdCamerasList dev) _
                (leaves_rgbd_iteration fileName method fs dev)) as Lrgbd.
  unfold saveCallback, saveCallback_body. rewrite bind_run.
  destruct (for_each (m_rgbCamerasList dev) _ (m_videoWriters dev))
    as [[w1 ev1] [[] | r1]] eqn:H1.
  - rewrite bind_run.
    destruct (for_each (m_rgbdCamerasList dev) _ w1) as [[w2 ev2] [[] | r2]] eqn:H2.
    + left. cbn. split; [reflexivity |]. exists (ev1 ++ ev2).
      split; [now rewrite <- app_assoc |].
      apply Forall_app. split; [eapply Hrgb | eapply Hrgbd]; eassumption.
    + right. cbn. split; [eapply Lrgbd; exact H2 |].
      apply Forall_app. split; [eapply Hrgb | eapply Hrgbd]; eassumption.
  - right. cbn. split; [eapply Lrgb; exact H1 | eapply Hrgb; exact H1].
Qed.

Lemma preserves_finalize (saver : option ImageSaver) (c t : string) :
  preserves (or_return_false (saveVideo fileName fs saver c t)).
Proof.
  intros w w' evs a H. destruct (finalize_run fileName fs saver c t w) as (evs' & fl & H' & _).
  rewrite H' in H. injection H as <- _ _. intros mem camera. split; auto.
Qed.

Lemma preserves_subscript (c : string) : preserves (subscript c).
Proof.
  intros w w' evs a. rewrite subscript_run. intros [= <- _ _] mem camera.
  unfold has_saver, ready. now rewrite at_camera_touched.
Qed.

Lemma preserves_reopen (m : member) (c t : string) (dims : gmap string (nat * nat)) :
  preserves (reopen fs m c t dims).
Proof.
  intros w w' evs a H mem camera.
  destruct (reopen_run fs m c t dims w) as (w1 & ev1 & fl & H1 & _ & _ & Hspec).
  rewrite H in H1. injection H1 as <- <- <-.
  destruct (reopening_failure fs (saver_of m (at_camera w c)) dims c t);
    [discriminate |].
  destruct Hspec as (_ & Hcameras & Hmembers & s & s' & Hs & Hs' & Hmode & Hvideo).
  unfold has_saver, ready. destruct (decide (camera = c)) as [-> | Hc];
    [| rewrite (Hcameras camera Hc); auto].
  assert (mem = m ∨ mem ≠ m) as [-> | Hm]
    by (destruct mem, m; auto; right; discriminate);
    [| rewrite (Hmembers mem Hm); auto].
  split; [intros _; rewrite Hs'; eauto |].
  intros dims0 (s0 & Hs0 & Hready).
  exists s'. split; [exact Hs' |]. intros Hv. rewrite Hmode in Hv.
  assert (s0 = s) as -> by congruence.
  split; [now apply Hvideo | now apply Hready].
Qed.

Lemma preserves_bind {A B : Type} (m : M A) (k : A → M B) :
  preserves m → (∀ a, preserves (k a)) → preserves (m ≫= k).
Proof.
  intros Hm Hk w w' evs b H mem camera.
  apply bind_Next_inv in H as (w1 & ev1 & a & ev2 & H1 & H2 & ->).
  destruct (Hm _ _ _ _ H1 mem camera) as [Hm1 Hm2].
  destruct (Hk _ _ _ _ _ H2 mem camera) as [Hk1 Hk2]. split; auto.
Qed.

Lemma preserves_ret {A : Type} (a : A) : preserves (ret a).
Proof. intros w w' evs a' [= <- _ _] mem camera. split; auto. Qed.

Lemma preserves_emit (e : event) : preserves (emit e).
Proof. intros w w' evs a' [= <- _ _] mem camera. split; auto. Qed.

Lemma preserves_rgb_iteration (method : SaveCallbackSaveMethod) (c : string) :
  preserves (rgb_iteration fileName method fs dev c).
Proof.
  unfold rgb_iteration. apply preserves_bind; [apply preserves_subscript | intros v].
  apply preserves_bind; [apply preserves_finalize | intros _].
  destruct method; [apply preserves_reopen | apply preserves_ret].
Qed.

Lemma preserves_rgbd_iteration (method : SaveCallbackSaveMethod) (c : string) :
  preserves (rgbd_iteration fileName method fs dev c).
Proof.
  unfold rgbd_iteration. apply preserves_bind; [apply preserves_subscript | intros v].
  apply preserves_bind; [apply preserves_finalize | intros _].
  apply preserves_bind; [apply preserves_subscript | intros v'].
  apply preserves_bind; [apply preserves_finalize | intros _].
  destruct method; [| apply preserves_ret].
  apply preserves_bind; [apply preserves_reopen | intros _; apply preserves_reopen].
Qed.

(** A configured stream does not fail while the file system does not. *)
Lemma ready_finalization (m : member) (dims : gmap string (nat * nat))
    (w : gmap string VideoWriter) (c t : string) :
  (∀ o n, rename_succeeds fs o n = true) →
  ready m dims w c →
  finalization_failure fileName fs (saver_of m (at_camera w c)) c t = None.
Proof.
  intros Hrename (s & -> & Hvideo). unfold finalization_failure. rewrite Hrename.
  destruct (saveMode s); [| reflexivity]. now destruct (Hvideo eq_refl) as [-> _].
Qed.

Lemma ready_reopening (m : member) (dims : gmap string (nat * nat))
    (w : gmap string VideoWriter) (c t : string) :
  (∀ path, create_directory_succeeds fs path = true) →
  ready m dims w c →
  reopening_failure fs (saver_of m (at_camera w c)) dims c t = None.
Proof.
  intros Hdir (s & -> & Hvideo). unfold reopening_failure. rewrite Hdir.
  destruct (saveMode s); [| reflexivity]. now destruct (Hvideo eq_refl) as [_ [d ->]].
Qed.

Lemma ready_rgb_goes_on (method : SaveCallbackSaveMethod) (c : string)
    (w : gmap string VideoWriter) :
  (∀ o n, rename_succeeds fs o n = true) →
  (∀ path, create_directory_succeeds fs path = true) →
  ready rgb_saver (rgbImgDimensions dev) w c →
  ∃ w' evs, rgb_iteration fileName method fs dev c w = (w', evs, Next tt).
Proof.
  intros Hrename Hdir Hready.
  destruct (rgb_iteration_run fileName method fs dev c w) as (w' & evs & fl & H & _ & Hspec).
  unfold rgb_failure in Hspec.
  pose proof (ready_finalization rgb_saver _ w c "rgb" Hrename Hready) as E1.
  pose proof (ready_reopening rgb_saver _ w c "rgb" Hdir Hready) as E2.
  cbn [saver_of] in E1, E2. rewrite E1, E2 in Hspec.
  exists w', evs. destruct method; now destruct Hspec as [-> _].
Qed.

Lemma ready_rgbd_goes_on (method : SaveCallbackSaveMethod) (c : string)
    (w : gmap string VideoWriter) :
  (∀ o n, rename_succeeds fs o n = true) →
  (∀ path, create_directory_succeeds fs path = true) →
  ready rgb_saver (rgbdImgDimensions dev) w c →
  ready depth_saver (rgbdImgDimensions dev) w c →
  ∃ w' evs, rgbd_iteration fileName method fs dev c w = (w', evs, Next tt).
Proof.
  intros Hrename Hdir Hrgb Hdepth.
  destruct (rgbd_iteration_run fileName method fs dev c w) as (w' & evs & fl & H & _ & Hspec).
  unfold rgbd_failure in Hspec.
  pose proof (ready_finalization rgb_saver _ w c "rgb" Hrename Hrgb) as E1.
  pose proof (ready_finalization depth_saver _ w c "depth" Hrename Hdepth) as E2.
  pose proof (ready_reopening rgb_saver _ w c "rgb" Hdir Hrgb) as E3.
  pose proof (ready_reopening depth_saver _ w c "depth" Hdir Hdepth) as E4.
  cbn [saver_of] in E1, E2, E3, E4. rewrite E1, E2, E3, E4 in Hspec.
  exists w', evs. destruct method; now destruct Hspec as [-> _].
Qed.

(** A loop whose iterations go on under an invariant they keep goes to its
    end. *)
Lemma for_each_goes_on (I : gmap string VideoWriter → Prop) (body : string → M unit)
    (cameras : list string) (w : gmap string VideoWriter) :
  (∀ c w, c ∈ cameras → I w → ∃ w' evs, body c w = (w', evs, Next tt) ∧ I w') →
  I w → ∃ w' evs, for_each cameras body w = (w', evs, Next tt) ∧ I w'.
Proof.
  revert w. induction cameras as [| c rest IH]; intros w Hbody HI; cbn [for_each].
  - exists w, []. split; [reflexivity | exact HI].
  - destruct (Hbody c w ltac:(left) HI) as (w1 & ev1 & H1 & HI1).
    destruct (IH w1) as (w2 & ev2 & H2 & HI2); [| exact HI1 |].
    { intros c' w' Hc'. apply Hbody. now right. }
    exists w2, (ev1 ++ ev2). split; [| exact HI2]. now rewrite bind_run, H1, H2.
Qed.

(** The callback returns true from a state where every stream of the two
    lists is configured, while the file system does not fail. *)
Lemma saveCallback_ready (method : SaveCallbackSaveMethod) :
  (∀ o n, rename_succeeds fs o n = true) →
  (∀ path, create_directory_succeeds fs path = true) →
  (∀ c, c ∈ m_rgbCamerasList dev →
        ready rgb_saver (rgbImgDimensions dev) (m_videoWriters dev) c) →
  (∀ c, c ∈ m_rgbdCamerasList dev →
        ready rgb_saver (rgbdImgDimensions dev) (m_videoWriters dev) c
        ∧ ready depth_saver (rgbdImgDimensions dev) (m_videoWriters dev) c) →
  ∃ evs, saveCallback fileName method fs dev = (evs, Returned true).
Proof.
  intros Hrename Hdir Hrgb Hrgbd.
  set (I := λ w : gmap string VideoWriter,
    (∀ c, c ∈ m_rgbCamerasList dev → ready rgb_saver (rgbImgDimensions dev) w c)
    ∧ (∀ c, c ∈ m_rgbdCamerasList dev →
            ready rgb_saver (rgbdImgDimensions dev) w c
            ∧ ready depth_saver (rgbdImgDimensions dev) w c)).
  assert (Hkeep : ∀ (body : M unit) w w' evs,
            preserves body → body w = (w', evs, Next tt) → I w → I w').
  { intros body w w' evs Hp Hb [H1 H2]. split.
    - intros c Hc. apply (Hp _ _ _ _ Hb). now apply H1.
    - intros c Hc. destruct (H2 c Hc). split; apply (Hp _ _ _ _ Hb); assumption. }
  destruct (for_each_goes_on I (rgb_iteration fileName method fs dev)
              (m_rgbCamerasList dev) (m_videoWriters dev)) as (w1 & ev1 & H1 & HI1).
  { intros c w Hc HI. destruct (ready_rgb_goes_on method c w Hrename Hdir) as (w' & evs & H);
      [now apply HI |].
    exists w', evs. split; [exact H |]. eapply Hkeep; [apply preserves_rgb_iteration | exact H | exact HI]. }
  { split; assumption. }
  destruct (for_each_goes_on I (rgbd_iteration fileName method fs dev)
              (m_rgbdCamerasList dev) w1) as (w2 & ev2 & H2 & _).
  { intros c w Hc HI. destruct (proj2 HI c Hc) as [Hr Hd].
    destruct (ready_rgbd_goes_on method c w Hrename Hdir Hr Hd) as (w' & evs & H).
    exists w', evs. split; [exact H |]. eapply Hkeep; [apply preserves_rgbd_iteration | exact H | exact HI]. }
  { exact HI1. }
  eexists. unfold saveCallback, saveCallback_body. now rewrite bind_run, H1, bind_run, H2.
Qed.

(** X17. The callback fails only through a stream that is not configured
    or a file system that fails: when every rename and every creation of a
    folder succeed, every RGB camera has its image saver and every RGBD
    camera has both, and every image saver that records a video holds the
    video writer [openVideoWriter] gave it and has the dimensions of its
    image, the callback returns true, for a periodic rotation and for the
    last one. *)
Theorem saveCallback_succeeds (method : SaveCallbackSaveMethod) :
  (∀ o n, rename_succeeds fs o n = true) →
  (∀ path, create_directory_succeeds fs path = true) →
  (∀ c, c ∈ m_rgbCamerasList dev →
        ready rgb_saver (rgbImgDimensions dev) (m_videoWriters dev) c) →
  (∀ c, c ∈ m_rgbdCamerasList dev →
        ready rgb_saver (rgbdImgDimensions dev) (m_videoWriters dev) c
        ∧ ready depth_saver (rgbdImgDimensions dev) (m_videoWriters dev) c) →
  (saveCallback fileName method fs dev).2 = Returned true.
Proof.
  intros Hrename Hdir Hrgb Hrgbd.
  destruct (saveCallback_ready method Hrename Hdir Hrgb Hrgbd) as [evs ->]. reflexivity.
Qed.

End Callback.

End SaveCallbackMore.

Section SaveCallbackMoreExamples.

Import SaveCallback.

Lemma saveCallback_succeeds_witness :
  let saver := {| saveMode := Video; writer := true |} in
  let video := {| rgb := Some saver; depth := None |} in
  let fs := {| rename_succeeds := λ _ _, true; create_directory_succeeds := λ _, true |} in
  let dev :=
    {| m_rgbCamerasList := ["left"; "right"];
       m_rgbdCamerasList := [];
       m_videoWriters := {[ "left" := video; "right" := video ]};
       rgbImgDimensions := {[ "left" := (640, 480)%nat; "right" := (640, 480)%nat ]};
       rgbdImgDimensions := ∅ |} in
  (saveCallback "log" periodic fs dev).2 = Returned true.
Proof.
  intros saver video fs dev.
  apply (saveCallback_succeeds "log" fs dev periodic).
  - reflexivity.
  - reflexivity.
  - intros c Hc. exists saver. split.
    + apply elem_of_cons in Hc as [-> | Hc]; [reflexivity |].
      apply list_elem_of_singleton in Hc as ->. reflexivity.
    + intros _. split; [reflexivity |].
      apply elem_of_cons in Hc as [-> | Hc]; [now eexists |].
      apply list_elem_of_singleton in Hc as ->. now eexists.
  - intros c Hc. now apply elem_of_nil in Hc.
Defined.

End SaveCallbackMoreExamples.

(** ** The discovery of the exogenous signals: what it leaves untouched *)

Section ExogenousMore.

Import Exogenous.

Lemma session_binding_collection (nets : list network) (st : state) (n : string) :
  binding n (m_vectorsCollectionSignals (session nets st).1)
  = (λ s, (follow connect_collection nets n s).1) <$> binding n (m_vectorsCollectionSignals st).
Proof.
  revert st. induction nets as [| net later IH]; intros st; cbn.
  - now destruct (binding n _).
  - pose proof (connectToExogeneous_binding (connect_collection net)
                  (m_vectorsCollectionSignals st) n) as Hb.
    unfold cycle.
    destruct (connectToExogeneous (connect_collection net) _) as [cs ev1].
    destruct (connectToExogeneous (connect_vector net) _) as [vs ev2].
    specialize (IH {| m_vectorsCollectionSignals := cs; m_vectorSignals := vs |}).
    destruct (session later _) as [st2 evs]. cbn in *. rewrite IH, Hb.
    destruct (binding n (m_vectorsCollectionSignals st)) as [s |]; [cbn | reflexivity].
    destruct (connect_collection net n s) as [s1 e1]. cbn [fst].
    now destruct (follow connect_collection later n s1).
Qed.

Lemma session_binding_vector (nets : list network) (st : state) (n : string) :
  binding n (m_vectorSignals (session nets st).1)
  = (λ s, (follow connect_vector nets n s).1) <$> binding n (m_vectorSignals st).
Proof.
  revert st. induction nets as [| net later IH]; intros st; cbn.
  - now destruct (binding n _).
  - pose proof (connectToExogeneous_binding (connect_vector net) (m_vectorSignals st) n) as Hb.
    unfold cycle.
    destruct (connectToExogeneous (connect_collection net) _) as [cs ev1].
    destruct (connectToExogeneous (connect_vector net) _) as [vs ev2].
    specialize (IH {| m_vectorsCollectionSignals := cs; m_vectorSignals := vs |}).
    destruct (session later _) as [st2 evs]. cbn in *. rewrite IH, Hb.
    destruct (binding n (m_vectorSignals st)) as [s |]; [cbn | reflexivity].
    destruct (connect_vector net n s) as [s1 e1]. cbn [fst].
    now destruct (follow connect_vector later n s1).
Qed.

Lemma session_keys (nets : list network) (st : state) :
  (m_vectorsCollectionSignals (session nets st).1).*1 = (m_vectorsCollectionSignals st).*1
  ∧ (m_vectorSignals (session nets st).1).*1 = (m_vectorSignals st).*1.
Proof.
  revert st. induction nets as [| net later IH]; intros st; cbn; [auto |].
  pose proof (connectToExogeneous_keys (connect_collection net) (m_vectorsCollectionSignals st)) as Hc.
  pose proof (connectToExogeneous_keys (connect_vector net) (m_vectorSignals st)) as Hv.
  unfold cycle.
  destruct (connectToExogeneous (connect_collection net) _) as [cs ev1].
  destruct (connectToExogeneous (connect_vector net) _) as [vs ev2].
  specialize (IH {| m_vectorsCollectionSignals := cs; m_vectorSignals := vs |}).
  destruct (session later _) as [st2 evs]. cbn in *.
  destruct IH as [IH1 IH2]. split; congruence.
Qed.

Lemma follow_collection_name (nets : list network) (n : string)
    (s : VectorsCollectionSignal.t) :
  VectorsCollectionSignal.signalName (follow connect_collection nets n s).1
  = VectorsCollectionSignal.signalName s
  ∧ (VectorsCollectionSignal.connected s = true →
     VectorsCollectionSignal.connected (follow connect_collection nets n s).1 = true).
Proof.
  revert s. induction nets as [| net later IH]; intros s; [auto |]. cbn.
  destruct (connect_collection net n s) as [s1 ev] eqn:Hs1.
  specialize (IH s1). destruct (follow connect_collection later n s1) as [s2 evs]. cbn in *.
  destruct IH as [IHn IHc]. unfold connect_collection in Hs1.
  destruct (VectorsCollectionSignal.connected s) eqn:Hc.
  - injection Hs1 as <- <-. split; [exact IHn | intros _; now apply IHc].
  - split; [| discriminate]. rewrite IHn.
    destruct (collection_connect net n); cbn in Hs1;
      [destruct (collection_getMetadata net n) |]; injection Hs1 as <- <-; reflexivity.
Qed.

Lemma follow_vector_name (nets : list network) (n : string) (s : VectorSignal.t) :
  VectorSignal.signalName (follow connect_vector nets n s).1 = VectorSignal.signalName s
  ∧ VectorSignal.dataArrived (follow connect_vector nets n s).1 = VectorSignal.dataArrived s
  ∧ (VectorSignal.connected s = true →
     VectorSignal.connected (follow connect_vector nets n s).1 = true).
Proof.
  revert s. induction nets as [| net later IH]; intros s; [auto |]. cbn.
  destruct (connect_vector net n s) as [s1 ev] eqn:Hs1.
  specialize (IH s1). destruct (follow connect_vector later n s1) as [s2 evs]. cbn in *.
  destruct IH as (IHn & IHd & IHc). unfold connect_vector in Hs1.
  destruct (VectorSignal.connected s) eqn:Hc.
  - injection Hs1 as <- <-. split_and!; [exact IHn | exact IHd | intros _; now apply IHc].
  - injection Hs1 as <- <-. cbn in *. split_and!; [exact IHn | exact IHd | discriminate].
Qed.

(** X18. The discovery never removes, adds or renames a binding: after any
    session the keys of the two tables are the same, in the same order, every
    binding has the signal name it had (and a vector signal the same
    [dataArrived] flag), and a binding that was connected is still
    connected. *)
Theorem bindings_are_kept (nets : list network) (st : state) (n : string) :
  (m_vectorsCollectionSignals (session nets st).1).*1 = (m_vectorsCollectionSignals st).*1
  ∧ (m_vectorSignals (session nets st).1).*1 = (m_vectorSignals st).*1
  ∧ (∀ s, binding n (m_vectorsCollectionSignals st) = Some s →
       ∃ s', binding n (m_vectorsCollectionSignals (session nets st).1) = Some s'
             ∧ VectorsCollectionSignal.signalName s' = VectorsCollectionSignal.signalName s
             ∧ (VectorsCollectionSignal.connected s = true →
                VectorsCollectionSignal.connected s' = true))
  ∧ (∀ s, binding n (m_vectorSignals st) = Some s →
       ∃ s', binding n (m_vectorSignals (session nets st).1) = Some s'
             ∧ VectorSignal.signalName s' = VectorSignal.signalName s
             ∧ VectorSignal.dataArrived s' = VectorSignal.dataArrived s
             ∧ (VectorSignal.connected s = true → VectorSignal.connected s' = true)).
Proof.
  destruct (session_keys nets st) as [Hk1 Hk2]. split_and!; [exact Hk1 | exact Hk2 | |].
  - intros s Hs. rewrite session_binding_collection, Hs. cbn.
    eexists. split; [reflexivity |]. apply follow_collection_name.
  - intros s Hs. rewrite session_binding_vector, Hs. cbn.
    eexists. split; [reflexivity |]. apply follow_vector_name.
Qed.

End ExogenousMore.

(** ** The configuration of the cameras *)

Section CameraConfigFacts.

Import CameraConfig.

Context (fresh : VideoWriter).

Lemma lookup_assign (name other : string) (set : VideoWriter → VideoWriter)
    (w : gmap string VideoWriter) :
  assign fresh name set w !! other
  = if decide (name = other) then Some (set (at_ fresh name w)) else w !! other.
Proof. unfold assign, at_. now rewrite lookup_insert. Qed.

Lemma at_assign (name : string) (set : VideoWriter → VideoWriter)
    (w : gmap string VideoWriter) :
  at_ fresh name (assign fresh name set w) = set (at_ fresh name w).
Proof. unfold at_ at 1. rewrite lookup_assign, decide_True by reflexivity. reflexivity. Qed.

Lemma non_null_Some {A : Type} (p : option A) : non_null p = true → is_Some p.
Proof. destruct p; [eauto | discriminate]. Qed.

Section Loop.

Context (kind : cameras) (cameraNames : list string)
        (fps_ depthScale_ : list Z) (rgbSaveMode depthSaveMode : list string).

(** An iteration that leaves [ok] true has configured its camera, and has
    not spoilt another one. *)
Lemma iteration_true (i : nat) (ok : bool) (w w' : gmap string VideoWriter) :
  iteration fresh kind cameraNames fps_ depthScale_ rgbSaveMode depthSaveMode i ok w
  = Some (true, w') →
  ok = true
  ∧ 0 < nth i fps_ 0
  ∧ configured kind w' (nth i cameraNames "")
  ∧ (∀ kind0 name, configured kind0 w name → configured kind0 w' name).
Proof.
  unfold iteration. destruct (nth i fps_ 0 <=? 0) eqn:Hfps; [discriminate |].
  apply Z.leb_gt in Hfps. set (name := nth i cameraNames "").
  destruct kind.
  - intros [= Hok <-]. rewrite at_assign in Hok. cbn in Hok.
    apply andb_prop in Hok as [-> Hrgb]. apply non_null_Some in Hrgb.
    split_and!; [reflexivity | exact Hfps | |].
    + eexists. split; [rewrite lookup_assign, decide_True by reflexivity; reflexivity |].
      rewrite at_assign. cbn. split_and!; [exact Hfps | exact Hrgb | discriminate].
    + intros kind0 other (v & Hv & Hpos & Hr & Hd).
      destruct (decide (name = other)) as [<- | Hname].
      * eexists. split; [rewrite lookup_assign, decide_True by reflexivity; reflexivity |].
        rewrite at_assign. cbn. split_and!; [exact Hfps | exact Hrgb |].
        unfold at_. now rewrite Hv.
      * exists v. rewrite !lookup_assign, !decide_False by exact Hname. auto.
  - intros [= Hok <-]. rewrite !at_assign in Hok. cbn in Hok.
    apply andb_prop in Hok as [Hok Hdepth]. apply andb_prop in Hok as [-> Hrgb].
    apply non_null_Some in Hrgb, Hdepth.
    assert (Hnew : ∀ kind0, configured kind0
      (assign fresh name
         (λ v, {| fps := fps v; depthScale := nth i depthScale_ 0; rgb := rgb v; depth := depth v |})
         (assign fresh name
            (λ v, {| fps := fps v; depthScale := depthScale v; rgb := rgb v;
                     depth := createImageSaver (nth i depthSaveMode "") |})
            (assign fresh name
               (λ v, {| fps := fps v; depthScale := depthScale v;
                        rgb := createImageSaver (nth i rgbSaveMode ""); depth := depth v |})
               (assign fresh name
                  (λ v, {| fps := nth i fps_ 0; depthScale := depthScale v; rgb := rgb v;
                           depth := depth v |}) w)))) name).
    { intros kind0. eexists.
      split; [rewrite lookup_assign, decide_True by reflexivity; reflexivity |].
      rewrite !at_assign. cbn. auto. }
    split_and!; [reflexivity | exact Hfps | apply Hnew |].
    intros kind0 other (v & Hv & Hpos & Hr & Hd).
    destruct (decide (name = other)) as [<- | Hname]; [apply Hnew |].
    exists v. rewrite !lookup_assign, !decide_False by exact Hname. auto.
Qed.

Lemma loop_true (count i : nat) (ok : bool) (w w' : gmap string VideoWriter) :
  loop fresh kind cameraNames fps_ depthScale_ rgbSaveMode depthSaveMode count i ok w
  = (true, w') →
  ok = true
  ∧ (∀ j, (i ≤ j < i + count)%nat →
          0 < nth j fps_ 0 ∧ configured kind w' (nth j cameraNames ""))
  ∧ (∀ kind0 name, configured kind0 w name → configured kind0 w' name).
Proof.
  revert i ok w. induction count as [| count IH]; intros i ok w; cbn [loop].
  - intros [= -> <-]. split_and!; [reflexivity | intros j Hj; lia | auto].
  - destruct (iteration _ _ _ _ _ _ _ i ok w) as [[ok1 w1] |] eqn:Hit; [| discriminate].
    intros Hloop. destruct (IH _ _ _ Hloop) as (-> & Hlater & Hkeep).
    destruct (iteration_true i ok w w1 Hit) as (-> & Hpos & Hnow & Hkeep1).
    split_and!; [reflexivity | | auto].
    intros j Hj. destruct (decide (j = i)) as [-> | Hne].
    + split; [exact Hpos | now apply Hkeep].
    + apply Hlater. lia.
Qed.

(** A frame rate that is not positive makes the loop return false. *)
Lemma loop_bad_fps (count i : nat) (ok : bool) (w : gmap string VideoWriter) (j : nat) :
  (i ≤ j < i + count)%nat → nth j fps_ 0 ≤ 0 →
  (loop fresh kind cameraNames fps_ depthScale_ rgbSaveMode depthSaveMode count i ok w).1
  = false.
Proof.
  revert i ok w. induction count as [| count IH]; intros i ok w Hj Hbad; [lia |].
  cbn [loop]. destruct (iteration _ _ _ _ _ _ _ i ok w) as [[ok1 w1] |] eqn:Hit; [| reflexivity].
  destruct (decide (j = i)) as [-> | Hne]; [| apply IH; [lia | exact Hbad]].
  unfold iteration in Hit. apply Z.leb_le in Hbad. now rewrite Hbad in Hit.
Qed.

End Loop.

(** A call that returns true has gone through the loop, over as many frame
    rates as there are cameras. *)
Lemma populateCamerasData_loop (params : parameters) (kind : cameras)
    (fpsParamName : string) (cameraNames : list string) (w w' : gmap string VideoWriter) :
  populateCamerasData fresh params kind fpsParamName cameraNames w = (true, w') →
  ∃ fps_ depthScale_ rgbSaveMode depthSaveMode,
    int_vector params fpsParamName = Some fps_
    ∧ length fps_ = length cameraNames
    ∧ loop fresh kind cameraNames fps_ depthScale_ rgbSaveMode depthSaveMode
        (length fps_) 0 true w = (true, w').
Proof.
  unfold populateCamerasData.
  destruct (int_vector params fpsParamName) as [fps_ |]; [| discriminate].
  match goal with |- context [match ?r with Some _ => _ | None => _ end = _] =>
    destruct r as [[[depthScale_ rgbSaveMode] depthSaveMode] |] end; [| discriminate].
  destruct (length fps_ =? length rgbSaveMode)%nat; [| discriminate]. cbn [negb].
  destruct (length fps_ =? length cameraNames)%nat eqn:Hlen; [| discriminate]. cbn [negb].
  apply Nat.eqb_eq in Hlen. intros Hloop.
  exists fps_, depthScale_, rgbSaveMode, depthSaveMode. auto.
Qed.

Lemma nth_elem_of {A : Type} (d : A) (l : list A) (x : A) :
  x ∈ l → ∃ j, (j < length l)%nat ∧ nth j l d = x.
Proof. intros Hx. apply list_elem_of_In in Hx. exact (In_nth _ _ d Hx). Qed.

(** X19. When [populateCamerasData] returns true, every camera of the list
    has a writer with a positive frame rate and an image saver for the colour
    stream (and one for the depth stream, for the RGBD cameras); the cameras
    that were configured before the call still are; and the frame rates, one
    per camera, are all positive. *)
Theorem populateCamerasData_true (params : parameters) (kind : cameras)
    (fpsParamName : string) (cameraNames : list string) (w w' : gmap string VideoWriter) :
  populateCamerasData fresh params kind fpsParamName cameraNames w = (true, w') →
  (∀ name, name ∈ cameraNames → configured kind w' name)
  ∧ (∀ kind0 name, configured kind0 w name → configured kind0 w' name)
  ∧ ∃ fps_, int_vector params fpsParamName = Some fps_
            ∧ length fps_ = length cameraNames
            ∧ Forall (λ f, 0 < f) fps_.
Proof.
  intros Hcall.
  destruct (populateCamerasData_loop _ _ _ _ _ _ Hcall)
    as (fps_ & depthScale_ & rgbSaveMode & depthSaveMode & Hfps & Hlen & Hloop).
  destruct (loop_true _ _ _ _ _ _ _ _ _ _ _ Hloop) as (_ & Hall & Hkeep).
  split_and!; [| exact Hkeep |].
  - intros name Hname. destruct (nth_elem_of "" _ _ Hname) as (j & Hj & <-).
    apply Hall. lia.
  - exists fps_. split_and!; [exact Hfps | exact Hlen |].
    apply Forall_forall. intros f Hf. destruct (nth_elem_of 0 _ _ Hf) as (j & Hj & <-).
    apply Hall. lia.
Qed.

(** X20. [populateCamerasData] returns false when the frame rates are
    missing, when their number is not the number of the cameras (the map of
    the writers is then left as it was), and when one of them is not
    positive. *)
Theorem populateCamerasData_false (params : parameters) (kind : cameras)
    (fpsParamName : string) (cameraNames : list string) (w : gmap string VideoWriter) :
  (int_vector params fpsParamName = None →
   populateCamerasData fresh params kind fpsParamName cameraNames w = (false, w))
  ∧ (∀ fps_, int_vector params fpsParamName = Some fps_ →
       length fps_ ≠ length cameraNames →
       populateCamerasData fresh params kind fpsParamName cameraNames w = (false, w))
  ∧ (∀ fps_ j, int_vector params fpsParamName = Some fps_ →
       (j < length fps_)%nat → nth j fps_ 0 ≤ 0 →
       (populateCamerasData fresh params kind fpsParamName cameraNames w).1 = false).
Proof.
  unfold populateCamerasData. split_and!.
  - now intros ->.
  - intros fps_ -> Hlen.
    match goal with |- context [match ?r with Some _ => _ | None => _ end = _] =>
      destruct r as [[[depthScale_ rgbSaveMode] depthSaveMode] |] end; [| reflexivity].
    destruct (negb (length fps_ =? length rgbSaveMode)%nat); [reflexivity |].
    apply Nat.eqb_neq in Hlen. now rewrite Hlen.
  - intros fps_ j -> Hj Hbad.
    match goal with |- context [match ?r with Some _ => _ | None => _ end] =>
      destruct r as [[[depthScale_ rgbSaveMode] depthSaveMode] |] end; [| reflexivity].
    destruct (negb (length fps_ =? length rgbSaveMode)%nat); [reflexivity |].
    destruct (negb (length fps_ =? length cameraNames)%nat); [reflexivity |].
    apply (loop_bad_fps _ _ _ _ _ _ _ _ _ _ j); [lia | exact Hbad].
Qed.

End CameraConfigFacts.

(** ** From the configuration of the cameras to the rotation of the files *)

Section CameraConfigCallback.

Import CameraConfig.

Lemma configured_has_saver (kind : cameras) (w : gmap string VideoWriter) (c : string) :
  configured kind w c →
  SaveCallback.has_saver SaveCallback.rgb_saver (to_callback <$> w) c
  ∧ (kind = RGBD →
     SaveCallback.has_saver SaveCallback.depth_saver (to_callback <$> w) c).
Proof.
  intros (v & Hv & _ & Hrgb & Hdepth).
  unfold SaveCallback.has_saver, SaveCallback.at_camera. rewrite lookup_fmap, Hv. cbn. auto.
Qed.

Section Attach.

Context (fs : SaveCallback.filesystem) (dev : SaveCallback.device)
        (addChannel : string → bool).

Lemma add_channel_run (ok : bool) (name : string) (w : gmap string SaveCallback.VideoWriter) :
  ∃ evs ok', CameraAttach.add_channel addChannel ok name w = (w, evs, SaveCallback.Next ok').
Proof. unfold CameraAttach.add_channel. destruct ok; cbn; eauto. Qed.

(** With an image saver that is not null, opening the writer or the folder
    dereferences no null pointer. *)
Lemma reopen_safe (m : SaveCallback.member) (c t : string) (dims : gmap string (nat * nat))
    (w w' : gmap string SaveCallback.VideoWriter) (evs : list SaveCallback.event)
    (r : SaveCallback.outcome) :
  SaveCallback.has_saver m w c →
  SaveCallback.reopen fs m c t dims w = (w', evs, SaveCallback.Exit r) →
  r ≠ SaveCallback.Undefined.
Proof.
  intros [s Hs] H.
  destruct (reopen_run fs m c t dims w) as (w1 & ev1 & fl1 & H1 & _ & _ & Hspec).
  rewrite H in H1. injection H1 as <- <- <-.
  rewrite Hs in Hspec. unfold SaveCallback.reopening_failure in Hspec.
  destruct (SaveCallback.saveMode s).
  - destruct (dims !! c); [destruct Hspec as [? _] | injection Hspec as ->]; discriminate.
  - destruct (SaveCallback.create_directory_succeeds fs _);
      [destruct Hspec as [? _] | injection Hspec as ->]; discriminate.
Qed.

(** When it goes on, the stream is configured. *)
Lemma reopen_ready (m : SaveCallback.member) (c t : string) (dims : gmap string (nat * nat))
    (w w' : gmap string SaveCallback.VideoWriter) (evs : list SaveCallback.event) (a : unit) :
  SaveCallback.reopen fs m c t dims w = (w', evs, SaveCallback.Next a) →
  SaveCallback.ready m dims w' c.
Proof.
  intros H.
  destruct (reopen_run fs m c t dims w) as (w1 & ev1 & fl1 & H1 & _ & _ & Hspec).
  rewrite H in H1. injection H1 as <- <- <-.
  destruct (SaveCallback.reopening_failure fs _ dims c t); [discriminate |].
  destruct Hspec as (_ & _ & _ & s & s' & Hs & Hs' & Hmode & Hvideo).
  exists s'. split; [exact Hs' |]. rewrite Hmode. exact Hvideo.
Qed.

Lemma attach_rgb_loop (cameras : list string) (ok : bool)
    (w w' : gmap string SaveCallback.VideoWriter) (evs : list SaveCallback.event)
    (fl : SaveCallback.flow bool) :
  (∀ c, c ∈ cameras → SaveCallback.has_saver SaveCallback.rgb_saver w c) →
  CameraAttach.for_each_ok cameras (CameraAttach.rgb_iteration fs dev addChannel) ok w
  = (w', evs, fl) →
  fl ≠ SaveCallback.Exit SaveCallback.Undefined
  ∧ (∀ a, fl = SaveCallback.Next a →
       SaveCallback.kept w w'
       ∧ ∀ c, c ∈ cameras →
           SaveCallback.ready SaveCallback.rgb_saver (SaveCallback.rgbImgDimensions dev) w' c).
Proof.
  revert ok w w' evs fl. induction cameras as [| c rest IH]; intros ok w w' evs fl Hsavers;
    cbn [CameraAttach.for_each_ok].
  - intros [= <- <- <-]. split; [discriminate |]. intros a _. split; [now split |].
    intros c Hc. now apply elem_of_nil in Hc.
  - rewrite bind_run. unfold CameraAttach.rgb_iteration at 1. rewrite bind_run.
    destruct (SaveCallback.reopen fs SaveCallback.rgb_saver c "rgb"
                (SaveCallback.rgbImgDimensions dev) w) as [[w1 ev1] [[] | r]] eqn:Hopen.
    2:{ intros [= <- <- <-]. split; [| discriminate].
        intros [= ->]. eapply reopen_safe; [| exact Hopen | reflexivity].
        apply Hsavers. left. }
    destruct (add_channel_run ok ("camera::" +:+ c +:+ "::rgb") w1) as (ev2 & ok1 & ->).
    destruct (CameraAttach.for_each_ok rest _ ok1 w1) as [[w2 ev3] fl2] eqn:Hrest.
    intros [= <- <- <-].
    pose proof (preserves_reopen fs _ _ _ _ _ _ _ _ Hopen) as Hkept1.
    destruct (IH ok1 w1 w2 ev3 fl2) as [Hsafe Hdone]; [| exact Hrest |].
    { intros c' Hc'. apply Hkept1, Hsavers. now right. }
    split; [exact Hsafe |]. intros a ->. destruct (Hdone a eq_refl) as [Hkept2 Hready].
    split.
    + intros mem camera. destruct (Hkept1 mem camera), (Hkept2 mem camera). split; auto.
    + intros c' Hc'. apply elem_of_cons in Hc' as [-> | Hc']; [| now apply Hready].
      apply Hkept2. eapply reopen_ready. exact Hopen.
Qed.

Lemma attach_rgbd_loop (cameras : list string) (ok : bool)
    (w w' : gmap string SaveCallback.VideoWriter) (evs : list SaveCallback.event)
    (fl : SaveCallback.flow bool) :
  (∀ c, c ∈ cameras →
        SaveCallback.has_saver SaveCallback.rgb_saver w c
        ∧ SaveCallback.has_saver SaveCallback.depth_saver w c) →
  CameraAttach.for_each_ok cameras (CameraAttach.rgbd_iteration fs dev addChannel) ok w
  = (w', evs, fl) →
  fl ≠ SaveCallback.Exit SaveCallback.Undefined
  ∧ (∀ a, fl = SaveCallback.Next a →
       SaveCallback.kept w w'
       ∧ ∀ c, c ∈ cameras →
           SaveCallback.ready SaveCallback.rgb_saver (SaveCallback.rgbdImgDimensions dev) w' c
           ∧ SaveCallback.ready SaveCallback.depth_saver
               (SaveCallback.rgbdImgDimensions dev) w' c).
Proof.
  revert ok w w' evs fl. induction cameras as [| c rest IH]; intros ok w w' evs fl Hsavers;
    cbn [CameraAttach.for_each_ok].
  - intros [= <- <- <-]. split; [discriminate |]. intros a _. split; [now split |].
    intros c Hc. now apply elem_of_nil in Hc.
  - destruct (Hsavers c ltac:(left)) as [Hrgb Hdepth].
    rewrite bind_run. unfold CameraAttach.rgbd_iteration at 1. rewrite bind_run.
    destruct (SaveCallback.reopen fs SaveCallback.rgb_saver c "rgb"
                (SaveCallback.rgbdImgDimensions dev) w) as [[w1 ev1] [[] | r]] eqn:Hopen1.
    2:{ intros [= <- <- <-]. split; [| discriminate].
        intros [= ->]. eapply reopen_safe; [exact Hrgb | exact Hopen1 | reflexivity]. }
    pose proof (preserves_reopen fs _ _ _ _ _ _ _ _ Hopen1) as Hkept1.
    rewrite bind_run.
    destruct (SaveCallback.reopen fs SaveCallback.depth_saver c "depth"
                (SaveCallback.rgbdImgDimensions dev) w1) as [[w2 ev2] [[] | r]] eqn:Hopen2.
    2:{ intros [= <- <- <-]. split; [| discriminate].
        intros [= ->]. eapply reopen_safe; [| exact Hopen2 | reflexivity]. now apply Hkept1. }
    pose proof (preserves_reopen fs _ _ _ _ _ _ _ _ Hopen2) as Hkept2.
    rewrite bind_run.
    destruct (add_channel_run ok ("camera::" +:+ c +:+ "::rgb") w2) as (ev3 & ok1 & ->).
    destruct (add_channel_run ok1 ("camera::" +:+ c +:+ "::depth") w2) as (ev4 & ok2 & ->).
    destruct (CameraAttach.for_each_ok rest _ ok2 w2) as [[w3 ev5] fl3] eqn:Hrest.
    intros [= <- <- <-].
    destruct (IH ok2 w2 w3 ev5 fl3) as [Hsafe Hdone]; [| exact Hrest |].
    { intros c' Hc'. destruct (Hsavers c' ltac:(now right)).
      split; apply Hkept2, Hkept1; assumption. }
    split; [exact Hsafe |]. intros a ->. destruct (Hdone a eq_refl) as [Hkept3 Hready].
    split.
    + intros mem camera.
      destruct (Hkept1 mem camera), (Hkept2 mem camera), (Hkept3 mem camera). split; auto.
    + intros c' Hc'. apply elem_of_cons in Hc' as [-> | Hc']; [| now apply Hready].
      split.
      * apply Hkept3, Hkept2. eapply reopen_ready. exact Hopen1.
      * apply Hkept3. eapply reopen_ready. exact Hopen2.
Qed.

(** The part of [attachAll] on the cameras dereferences no null pointer
    when the image savers of the cameras the bridge lists are not null; when
    it goes to its end, every stream of the lists it leaves is configured. *)
Lemma attach_cameras_run (ok : bool) (b : CameraAttach.bridge)
    (w w' : gmap string SaveCallback.VideoWriter) (evs : list SaveCallback.event)
    (fl : SaveCallback.flow (bool * list string * list string)) :
  SaveCallback.m_rgbCamerasList dev = [] →
  SaveCallback.m_rgbdCamerasList dev = [] →
  (∀ c, c ∈ (CameraAttach.getRGBCamerasList b).2 →
        SaveCallback.has_saver SaveCallback.rgb_saver w c) →
  (∀ c, c ∈ (CameraAttach.getRGBDCamerasList b).2 →
        SaveCallback.has_saver SaveCallback.rgb_saver w c
        ∧ SaveCallback.has_saver SaveCallback.depth_saver w c) →
  CameraAttach.attach_cameras fs dev addChannel ok b w = (w', evs, fl) →
  fl ≠ SaveCallback.Exit SaveCallback.Undefined
  ∧ (∀ ok' rgbs rgbds, fl = SaveCallback.Next (ok', rgbs, rgbds) →
       (∀ c, c ∈ rgbs →
          SaveCallback.ready SaveCallback.rgb_saver (SaveCallback.rgbImgDimensions dev) w' c)
       ∧ (∀ c, c ∈ rgbds →
          SaveCallback.ready SaveCallback.rgb_saver (SaveCallback.rgbdImgDimensions dev) w' c
          ∧ SaveCallback.ready SaveCallback.depth_saver
              (SaveCallback.rgbdImgDimensions dev) w' c)).
Proof.
  intros Hnone1 Hnone2 Hrgb Hrgbd. unfold CameraAttach.attach_cameras.
  destruct (CameraAttach.listed ok (CameraAttach.getRGBCamerasList b)
              (SaveCallback.m_rgbCamerasList dev)) as [ok1 rgbs] eqn:Hl1.
  assert (Hrgbs : ∀ c, c ∈ rgbs → SaveCallback.has_saver SaveCallback.rgb_saver w c).
  { unfold CameraAttach.listed in Hl1. destruct ok.
    - rewrite Hl1 in Hrgb. exact Hrgb.
    - injection Hl1 as _ <-. rewrite Hnone1. intros c Hc. now apply elem_of_nil in Hc. }
  rewrite bind_run.
  destruct (CameraAttach.for_each_ok rgbs _ ok1 w) as [[w1 ev1] [ok2 | r]] eqn:Hloop1.
  2:{ intros [= <- <- <-]. split; [| discriminate].
      destruct (attach_rgb_loop rgbs ok1 w w1 ev1 _ Hrgbs Hloop1) as [Hsafe _].
      intros [= ->]. now apply Hsafe. }
  destruct (attach_rgb_loop rgbs ok1 w w1 ev1 _ Hrgbs Hloop1) as [_ Hdone1].
  destruct (Hdone1 ok2 eq_refl) as [Hkept1 Hready1].
  destruct (CameraAttach.listed ok2 (CameraAttach.getRGBDCamerasList b)
              (SaveCallback.m_rgbdCamerasList dev)) as [ok3 rgbds] eqn:Hl2.
  assert (Hrgbds : ∀ c, c ∈ rgbds →
            SaveCallback.has_saver SaveCallback.rgb_saver w1 c
            ∧ SaveCallback.has_saver SaveCallback.depth_saver w1 c).
  { unfold CameraAttach.listed in Hl2. destruct ok2.
    - rewrite Hl2 in Hrgbd. intros c Hc. destruct (Hrgbd c Hc). split; now apply Hkept1.
    - injection Hl2 as _ <-. rewrite Hnone2. intros c Hc. now apply elem_of_nil in Hc. }
  rewrite bind_run.
  destruct (CameraAttach.for_each_ok rgbds _ ok3 w1) as [[w2 ev2] [ok4 | r]] eqn:Hloop2.
  2:{ intros [= <- <- <-]. split; [| discriminate].
      destruct (attach_rgbd_loop rgbds ok3 w1 w2 ev2 _ Hrgbds Hloop2) as [Hsafe _].
      intros [= ->]. now apply Hsafe. }
  destruct (attach_rgbd_loop rgbds ok3 w1 w2 ev2 _ Hrgbds Hloop2) as [_ Hdone2].
  destruct (Hdone2 ok4 eq_refl) as [Hkept2 Hready2].
  cbn. intros [= <- <- <-]. split; [discriminate |].
  intros ok' rgbs' rgbds' [= <- <- <-]. split; [| exact Hready2].
  intros c Hc. now apply Hkept2, Hready1.
Qed.

End Attach.

(** X21. From the configuration read by [open] to the rotation of the
    files. When [populateCamerasData] has returned true for the RGB cameras
    and then for the RGBD cameras, the part of [attachAll] that opens the
    writers and the folders of the cameras the bridge lists dereferences no
    null image saver: it goes to its end, returns false or is left by an
    exception. When it goes to its end, [saveCallback] returns true over the
    writers and the lists it leaves, for every rotation in which no rename
    and no creation of a folder fails. *)
Theorem configured_cameras_are_saved (fresh : VideoWriter) (params : parameters)
    (rgbs rgbds : list string) (w0 w1 w2 : gmap string VideoWriter)
    (dimsRGB dimsRGBD : gmap string (nat * nat))
    (fs0 : SaveCallback.filesystem) (addChannel : string → bool) (ok : bool) :
  populateCamerasData fresh params RGB "rgb_cameras_fps" rgbs w0 = (true, w1) →
  populateCamerasData fresh params RGBD "rgbd_cameras_fps" rgbds w1 = (true, w2) →
  ∀ w3 evs fl,
    CameraAttach.attach_cameras fs0
      {| SaveCallback.m_rgbCamerasList := [];
         SaveCallback.m_rgbdCamerasList := [];
         SaveCallback.m_videoWriters := to_callback <$> w2;
         SaveCallback.rgbImgDimensions := dimsRGB;
         SaveCallback.rgbdImgDimensions := dimsRGBD |}
      addChannel ok
      {| CameraAttach.getRGBCamerasList := (true, rgbs);
         CameraAttach.getRGBDCamerasList := (true, rgbds) |}
      (to_callback <$> w2)
    = (w3, evs, fl) →
    fl ≠ SaveCallback.Exit SaveCallback.Undefined
    ∧ ∀ ok' rgbs' rgbds', fl = SaveCallback.Next (ok', rgbs', rgbds') →
        ∀ fileName method fs,
          (∀ o n, SaveCallback.rename_succeeds fs o n = true) →
          (∀ path, SaveCallback.create_directory_succeeds fs path = true) →
          (SaveCallback.saveCallback fileName method fs
             {| SaveCallback.m_rgbCamerasList := rgbs';
                SaveCallback.m_rgbdCamerasList := rgbds';
                SaveCallback.m_videoWriters := w3;
                SaveCallback.rgbImgDimensions := dimsRGB;
                SaveCallback.rgbdImgDimensions := dimsRGBD |}).2
          = SaveCallback.Returned true.
Proof.
  intros H1 H2 w3 evs fl Hattach.
  destruct (populateCamerasData_loop _ _ _ _ _ _ _ H1) as (f1 & ? & ? & ? & _ & L1 & Hloop1).
  destruct (populateCamerasData_loop _ _ _ _ _ _ _ H2) as (f2 & ? & ? & ? & _ & L2 & Hloop2).
  destruct (loop_true _ _ _ _ _ _ _ _ _ _ _ _ Hloop1) as (_ & Hrgb & _).
  destruct (loop_true _ _ _ _ _ _ _ _ _ _ _ _ Hloop2) as (_ & Hrgbd & Hkeep).
  assert (Hsavers1 : ∀ c, c ∈ rgbs →
            SaveCallback.has_saver SaveCallback.rgb_saver (to_callback <$> w2) c).
  { intros c Hc. destruct (nth_elem_of "" _ _ Hc) as (j & Hj & <-).
    apply (configured_has_saver RGB), Hkeep, Hrgb. lia. }
  assert (Hsavers2 : ∀ c, c ∈ rgbds →
            SaveCallback.has_saver SaveCallback.rgb_saver (to_callback <$> w2) c
            ∧ SaveCallback.has_saver SaveCallback.depth_saver (to_callback <$> w2) c).
  { intros c Hc. destruct (nth_elem_of "" _ _ Hc) as (j & Hj & <-).
    destruct (configured_has_saver RGBD w2 (nth j rgbds "")) as [Hr Hd]; [apply Hrgbd; lia |].
    split; [exact Hr | now apply Hd]. }
  set (dev0 := SaveCallback.mk_device [] [] (to_callback <$> w2) dimsRGB dimsRGBD) in Hattach.
  set (b := CameraAttach.mk_bridge (true, rgbs) (true, rgbds)) in Hattach.
  destruct (attach_cameras_run fs0 dev0 addChannel ok b _ _ _ _
              eq_refl eq_refl Hsavers1 Hsavers2 Hattach) as [Hsafe Hdone].
  split; [exact Hsafe |].
  intros ok' rgbs' rgbds' -> fileName method fs Hrename Hdir.
  destruct (Hdone ok' rgbs' rgbds' eq_refl) as [Hready1 Hready2].
  destruct (saveCallback_ready fileName fs
              {| SaveCallback.m_rgbCamerasList := rgbs';
                 SaveCallback.m_rgbdCamerasList := rgbds';
                 SaveCallback.m_videoWriters := w3;
                 SaveCallback.rgbImgDimensions := dimsRGB;
                 SaveCallback.rgbdImgDimensions := dimsRGBD |} method Hrename Hdir)
    as [evs' ->]; [exact Hready1 | exact Hready2 | reflexivity].
Qed.

End CameraConfigCallback.


Section CameraConfigExamples.

Import CameraConfig.

Lemma populateCamerasData_true_witness :
  let fresh := {| fps := 0; depthScale := 0; rgb := None; depth := None |} in
  let params :=
    {| int_vector := λ name,
         if String.eqb name "rgbd_cameras_fps" then Some [30]
         else if String.eqb name "rgbd_cameras_depth_scale" then Some [1000]
         else None;
       string_vector := λ name,
         if String.eqb name "rgbd_cameras_rgb_save_mode" then Some ["video"%string]
         else if String.eqb name "rgbd_cameras_depth_save_mode" then Some ["frame"%string]
         else None |} in
  let w' := (populateCamerasData fresh params RGBD "rgbd_cameras_fps" ["realsense"%string] ∅).2 in
  (∀ name, name ∈ ["realsense"%string] → configured RGBD w' name)
  ∧ (∀ kind0 name, configured kind0 ∅ name → configured kind0 w' name)
  ∧ ∃ fps_, int_vector params "rgbd_cameras_fps" = Some fps_
            ∧ length fps_ = length ["realsense"%string]
            ∧ Forall (λ f, 0 < f) fps_.
Proof.
  intros fresh params w'.
  apply (populateCamerasData_true fresh params RGBD "rgbd_cameras_fps" ["realsense"%string] ∅ w').
  unfold w'. rewrite (surjective_pairing (populateCamerasData _ _ _ _ _ _)) at 1.
  f_equal.
Defined.

Lemma configured_cameras_are_saved_witness :
  let fresh := {| fps := 0; depthScale := 0; rgb := None; depth := None |} in
  let params :=
    {| int_vector := λ name,
         if String.eqb name "rgb_cameras_fps" then Some [30]
         else if String.eqb name "rgbd_cameras_fps" then Some [15]
         else if String.eqb name "rgbd_cameras_depth_scale" then Some [1000]
         else None;
       string_vector := λ name,
         if String.eqb name "rgb_cameras_rgb_save_mode" then Some ["video"%string]
         else if String.eqb name "rgbd_cameras_rgb_save_mode" then Some ["video"%string]
         else if String.eqb name "rgbd_cameras_depth_save_mode" then Some ["frame"%string]
         else None |} in
  let w1 := (populateCamerasData fresh params RGB "rgb_cameras_fps" ["left"%string] ∅).2 in
  let w2 := (populateCamerasData fresh params RGBD "rgbd_cameras_fps" ["realsense"%string] w1).2 in
  let fs := {| SaveCallback.rename_succeeds := λ _ _, true;
               SaveCallback.create_directory_succeeds := λ _, true |} in
  let dimsRGB : gmap string (nat * nat) := {[ "left"%string := (640, 480)%nat ]} in
  let dimsRGBD : gmap string (nat * nat) := {[ "realsense"%string := (640, 480)%nat ]} in
  let attached :=
    CameraAttach.attach_cameras fs
      {| SaveCallback.m_rgbCamerasList := [];
         SaveCallback.m_rgbdCamerasList := [];
         SaveCallback.m_videoWriters := to_callback <$> w2;
         SaveCallback.rgbImgDimensions := dimsRGB;
         SaveCallback.rgbdImgDimensions := dimsRGBD |}
      (λ _, true) true
      {| CameraAttach.getRGBCamerasList := (true, ["left"%string]);
         CameraAttach.getRGBDCamerasList := (true, ["realsense"%string]) |}
      (to_callback <$> w2) in
  attached.2 = SaveCallback.Next (true, ["left"%string], ["realsense"%string])
  ∧ attached.1.2
    = [SaveCallback.OpenWriter "output_left_rgb.mp4";
       SaveCallback.AddChannel "camera::left::rgb";
       SaveCallback.OpenWriter "output_realsense_rgb.mp4";
       SaveCallback.CreateDirectory "output_realsense_depth";
       SaveCallback.AddChannel "camera::realsense::rgb";
       SaveCallback.AddChannel "camera::realsense::depth"]
  ∧ (SaveCallback.saveCallback "log" SaveCallback.periodic fs
       {| SaveCallback.m_rgbCamerasList := ["left"%string];
          SaveCallback.m_rgbdCamerasList := ["realsense"%string];
          SaveCallback.m_videoWriters := attached.1.1;
          SaveCallback.rgbImgDimensions := dimsRGB;
          SaveCallback.rgbdImgDimensions := dimsRGBD |}).2
    = SaveCallback.Returned true.
Proof.
  intros fresh params w1 w2 fs dimsRGB dimsRGBD attached.
  assert (Hattached : attached.2
                      = SaveCallback.Next (true, ["left"%string], ["realsense"%string]))
    by (vm_compute; reflexivity).
  split; [exact Hattached |]. split; [vm_compute; reflexivity |].
  destruct (configured_cameras_are_saved fresh params ["left"%string] ["realsense"%string]
              ∅ w1 w2 dimsRGB dimsRGBD fs (λ _, true) true) with
    (w3 := attached.1.1) (evs := attached.1.2) (fl := attached.2) as [_ Hsaved].
  - unfold w1. rewrite (surjective_pairing (populateCamerasData _ _ _ _ _ _)) at 1.
    f_equal.
  - unfold w2. rewrite (surjective_pairing (populateCamerasData _ _ _ _ _ _)) at 1.
    f_equal.
  - rewrite <- !surjective_pairing. reflexivity.
  - apply (Hsaved _ _ _ Hattached "log"%string SaveCallback.periodic fs); reflexivity.
Defined.

End CameraConfigExamples.

(** ** The channels declared by [attachAll] *)

Create HintDb attach.

Section AttachFacts.

Import Attach.

Context (N : Run.names) (E : elements) (dev : Run.device).

Lemma channels_app (a b : list event) : channels (a ++ b) = channels a ++ channels b.
Proof.
  induction a as [| e a IH]; [reflexivity |]. destruct e; cbn; now rewrite ?IH.
Qed.

Lemma channels_for_all {A : Type} (xs : list A) (body : A → list event) (x : A) (n : string) :
  x ∈ xs → n ∈ channels (body x) → n ∈ channels (for_all xs body).
Proof.
  unfold for_all. induction xs as [| y xs IH]; intros Hx Hn; [now apply elem_of_nil in Hx |].
  cbn. rewrite channels_app, elem_of_app.
  apply elem_of_cons in Hx as [-> | Hx]; [now left | right; auto].
Qed.

Lemma described_app_bounded (b : list event) (k : nat) (a : list event) :
  (length a ≤ k)%nat → described N a → described N b → described N (a ++ b).
Proof.
  revert a. induction k as [| k IH]; intros a Hk Ha Hb.
  - destruct a; [exact Hb | cbn in Hk; lia].
  - destruct a as [| e a]; [exact Hb |]. cbn in Hk.
    destruct e; cbn in *; try (apply IH; [lia | assumption | assumption]).
    destruct a as [| [] a]; try contradiction.
    destruct Ha as (? & ? & ? & Ha). split_and!; try assumption.
    apply IH; [cbn in Hk; lia | assumption | assumption].
Qed.

Lemma described_app (a b : list event) :
  described N a → described N b → described N (a ++ b).
Proof. now apply (described_app_bounded b (length a)). Qed.

Lemma described_when (flag : bool) (body : list event) :
  described N body → described N (when flag body).
Proof. destruct flag; [auto | intros _; exact I]. Qed.

Lemma described_for_all {A : Type} (xs : list A) (body : A → list event) :
  (∀ x, described N (body x)) → described N (for_all xs body).
Proof.
  intros Hbody. unfold for_all. induction xs as [| x xs IH]; [exact I |].
  cbn. apply described_app; auto.
Qed.

Lemma described_joint (name : string) (jointNames : list string) :
  described N (addJointRelatedChannelAndMetadata N name jointNames).
Proof. cbn. auto. Qed.

Lemma described_sensor (nameKey : string) (metadataNames : list string) :
  described N (addSensorBridgeRelatedChannelAndMetadata N nameKey metadataNames).
Proof. cbn. auto. Qed.

Lemma described_sensors (KIND_NAME : string) (sensorNames labels : list string) :
  described N (sensors N KIND_NAME sensorNames labels).
Proof. apply described_for_all. intros x. apply described_sensor. Qed.

Lemma described_vector_signals (read : string → option (list float))
    (signals : list (string * VectorSignal.t)) :
  described N (vector_signals N read signals).2.
Proof.
  induction signals as [| [name signal] rest IH]; [exact I |].
  cbn [vector_signals]. destruct (vector_signals N read rest) as [rest' evs].
  destruct (read name) as [vector |]; [| exact IH].
  destruct (VectorSignal.dataArrived signal); [exact IH |].
  cbn. auto.
Qed.

Hint Resolve described_app described_when described_for_all described_joint
  described_sensor described_sensors : attach.

(** *** The channels the tick appends to *)

Lemma pushed_app (a b : list Run.event) : pushed (a ++ b) = pushed a ++ pushed b.
Proof. unfold pushed. now rewrite appended_app, fmap_app. Qed.

Lemma pushed_when (flag : bool) (body : list Run.event) (n : string) :
  n ∈ pushed (Run.when flag body) → flag = true ∧ n ∈ pushed body.
Proof. destruct flag; cbn; [auto | intros H; now apply elem_of_nil in H]. Qed.

Lemma pushed_on_success {A : Type} (got : option A) (then_ : A → list Run.event) (n : string) :
  n ∈ pushed (Run.on_success got then_) → ∃ v, got = Some v ∧ n ∈ pushed (then_ v).
Proof. destruct got as [v |]; cbn; [eauto | intros H; now apply elem_of_nil in H]. Qed.

Lemma pushed_for_all {A : Type} (xs : list A) (body : A → list Run.event) (n : string) :
  n ∈ pushed (Run.for_all xs body) → ∃ x, x ∈ xs ∧ n ∈ pushed (body x).
Proof.
  unfold Run.for_all. induction xs as [| x xs IH]; cbn [map concat];
    [intros H; now apply elem_of_nil in H |].
  rewrite pushed_app, elem_of_app. intros [H | H].
  - exists x. split; [left | exact H].
  - destruct (IH H) as (y & Hy & Hn). exists y. split; [now right | exact Hn].
Qed.

Lemma pushed_vector_sensors (time : float) (KIND_NAME : string) (sensorNames : list string)
    (get : string → option (list float)) (n : string) :
  n ∈ pushed (Run.vector_sensors N time KIND_NAME sensorNames get) →
  ∃ sensorName, sensorName ∈ sensorNames
                ∧ n = KIND_NAME +:+ Run.TREE_DELIM N +:+ sensorName.
Proof.
  intros H. apply pushed_for_all in H as (x & Hx & H).
  apply pushed_on_success in H as (v & _ & H). cbn in H.
  apply list_elem_of_singleton in H. eauto.
Qed.

Lemma channels_sensors (KIND_NAME : string) (sensorNames labels : list string)
    (sensorName : string) :
  sensorName ∈ sensorNames →
  KIND_NAME +:+ Run.TREE_DELIM N +:+ sensorName
  ∈ channels (sensors N KIND_NAME sensorNames labels).
Proof. intros Hx. apply (channels_for_all _ _ sensorName); [exact Hx | cbn; left]. Qed.

(** X22. Every channel [attachAll] declares is declared with its metadata:
    each [addChannel] is followed at once by the [populateMetadata] of the
    real-time entry of that channel, with the labels the channel was given
    (no label when it was given none), and the channel is a column. *)
Theorem attachAll_describes_its_channels (r : readings)
    (m_vectorSignals : list (string * VectorSignal.t)) :
  described N (declare N E dev r m_vectorSignals).2.
Proof.
  unfold declare.
  pose proof (described_vector_signals (read r) m_vectorSignals) as Hvector.
  destruct (vector_signals N (read r) m_vectorSignals) as [signals' vector_events].
  cbn [snd]. cbn [app described].
  apply described_app; [| apply described_app; [| apply described_app; [exact Hvector | exact I]]].
  - unfold telemetry, inertials. auto 20 with attach.
  - unfold exogenous. apply described_for_all. intros [name signal].
    destruct (readData r name) as [vectors |]; [| exact I].
    apply described_for_all. intros [key vector].
    destruct (VectorsCollectionSignal.metadata signal !! key); cbn; auto.
Qed.

Ltac declared :=
  first
    [ apply list_elem_of_here
    | match goal with
      | |- _ ∈ channels (_ ++ _) =>
          rewrite channels_app; apply elem_of_app;
          first [left; declared | right; declared]
      | H : ?flag = true |- _ ∈ channels (when ?flag _) =>
          rewrite H; cbn [when]; declared
      | |- _ ∈ channels (sensors _ _ _ _) => apply channels_sensors; assumption
      | |- _ ∈ channels (addJointRelatedChannelAndMetadata _ _ _) =>
          cbn; apply list_elem_of_here
      | |- _ ∈ channels (addSensorBridgeRelatedChannelAndMetadata _ _ _) =>
          cbn; apply list_elem_of_here
      end ].

(** X23. The tick appends to declared channels only: when the sensor bridge
    lists the same sensors as at [attachAll], the IMUs are declared (the
    inertial sensors are streamed, or there is no IMU), and the exogenous
    collections carry no vector that was not there at [attachAll], every
    channel [run] appends a sample to was declared by [attachAll]. *)
Theorem run_appends_to_declared_channels (r : readings)
    (m_vectorSignals : list (string * VectorSignal.t)) (t : Run.tick) :
  same_sensors (bridge r) (Run.bridge t) →
  Run.m_streamInertials dev = true ∨ Run.getIMUsList (Run.bridge t) = [] →
  (∀ name signal, (name, signal) ∈ Run.m_vectorsCollectionSignals dev →
     keys (Run.readData t name) ⊆ keys (readData r name)) →
  ∀ n, n ∈ pushed (Run.sources N dev t) →
       n ∈ channels (declare N E dev r m_vectorSignals).2.
Proof.
  intros (HFT & HT & HG & HA & HO & HM & HI & HC) Himu Hexo n Hn.
  unfold declare. destruct (vector_signals N (read r) m_vectorSignals) as [signals' vector_events].
  cbn [snd]. rewrite !channels_app, !elem_of_app.
  unfold Run.sources in Hn. rewrite !pushed_app, !elem_of_app in Hn.
  assert (Htel : n ∈ channels (telemetry N E dev (bridge r) (joints r))
                 ∨ n ∈ channels (exogenous N dev (readData r)));
    [| destruct Htel; auto].
  unfold telemetry, inertials. rewrite HFT, HT, HG, HA, HO, HM, HI, HC.
  destruct Hn as [Hn | [Hn | [Hn | [Hn | [Hn | [Hn | [Hn | [Hn | [Hn | Hn]]]]]]]]];
    try apply pushed_when in Hn as [Hflag Hn].
  - left. unfold Run.joint_states in Hn. rewrite !pushed_app, !elem_of_app in Hn.
    destruct Hn as [Hn | [Hn | [Hn | Hn]]];
      apply pushed_on_success in Hn as (v & _ & Hn);
      apply list_elem_of_singleton in Hn as ->; declared.
  - left. unfold Run.motor_states in Hn. rewrite !pushed_app, !elem_of_app in Hn.
    destruct Hn as [Hn | [Hn | [Hn | Hn]]];
      apply pushed_on_success in Hn as (v & _ & Hn);
      apply list_elem_of_singleton in Hn as ->; declared.
  - left. apply pushed_on_success in Hn as (v & _ & Hn).
    apply list_elem_of_singleton in Hn as ->. declared.
  - left. apply pushed_on_success in Hn as (v & _ & Hn).
    apply list_elem_of_singleton in Hn as ->. declared.
  - left. apply pushed_vector_sensors in Hn as (x & Hx & ->). declared.
  - left. apply pushed_for_all in Hn as (x & Hx & Hn).
    apply pushed_on_success in Hn as (v & _ & Hn).
    apply list_elem_of_singleton in Hn as ->. declared.
  - left. unfold Run.inertials in Hn. rewrite !pushed_app, !elem_of_app in Hn.
    destruct Hn as [Hn | [Hn | [Hn | Hn]]];
      apply pushed_vector_sensors in Hn as (x & Hx & ->); declared.
  - left. apply pushed_for_all in Hn as (x & Hx & Hn).
    destruct Himu as [Hflag | Hnone]; [| rewrite Hnone in Hx; now apply elem_of_nil in Hx].
    apply pushed_on_success in Hn as (v & _ & Hn).
    destruct (Run.unpackIMU v) as [[acc gyro] orientation]. cbn in Hn.
    assert (Himus : ∀ m,
      m ∈ [Run.ACCELEROMETERS_NAME N +:+ Run.TREE_DELIM N +:+ x;
           Run.GYROS_NAME N +:+ Run.TREE_DELIM N +:+ x;
           Run.ORIENTATIONS_NAME N +:+ Run.TREE_DELIM N +:+ x] →
      m ∈ channels (for_all (Run.getIMUsList (Run.bridge t)) (λ sensorName,
            addSensorBridgeRelatedChannelAndMetadata N
              (Run.ACCELEROMETERS_NAME N +:+ Run.TREE_DELIM N +:+ sensorName)
              (AccelerometerElementNames E)
            ++ addSensorBridgeRelatedChannelAndMetadata N
                 (Run.GYROS_NAME N +:+ Run.TREE_DELIM N +:+ sensorName) (GyroElementNames E)
            ++ addSensorBridgeRelatedChannelAndMetadata N
                 (Run.ORIENTATIONS_NAME N +:+ Run.TREE_DELIM N +:+ sensorName)
                 (OrientationElementNames E)))).
    { intros m Hm. apply (channels_for_all _ _ x); [exact Hx | exact Hm]. }
    specialize (Himus n Hn).
    rewrite Hflag. cbn [when]. rewrite !channels_app, !elem_of_app. tauto.
  - left. apply pushed_vector_sensors in Hn as (x & Hx & ->). declared.
  - right. unfold Run.exogenous in Hn.
    apply pushed_for_all in Hn as ([name signal] & Hsignal & Hn).
    apply pushed_on_success in Hn as (vectors & Hread & Hn).
    apply pushed_for_all in Hn as ([key vector] & Hkey & Hn).
    apply list_elem_of_singleton in Hn as ->.
    pose proof (Hexo name signal Hsignal key) as Hkeys. rewrite Hread in Hkeys.
    assert (Hin : key ∈ keys (readData r name)).
    { apply Hkeys. cbn. apply list_elem_of_fmap. now exists (key, vector). }
    unfold keys in Hin. destruct (readData r name) as [vectors0 |] eqn:Hread0;
      [| now apply elem_of_nil in Hin].
    apply list_elem_of_fmap in Hin as ([key0 vector0] & Heq & Hin). cbn in Heq. subst key0.
    unfold exogenous. apply (channels_for_all _ _ (name, signal)); [exact Hsignal |].
    rewrite Hread0. apply (channels_for_all _ _ (key, vector0)); [exact Hin |].
    destruct (VectorsCollectionSignal.metadata signal !! key); cbn; left.
Qed.

(** X24. The loop of [run] over the IMUs is outside the test of
    [m_streamInertials], while [attachAll] declares their channels inside
    it: on a device configured to stream nothing, [attachAll] declares no
    channel, and the tick still appends the accelerometer, the gyroscope and
    the orientation of every IMU that is read with success. *)
Theorem imu_samples_without_channel (r : readings) (t : Run.tick)
    (sensorName : string) (measure : list float) :
  streams_nothing dev →
  sensorName ∈ Run.getIMUsList (Run.bridge t) →
  Run.getIMUMeasurement (Run.bridge t) sensorName = Some measure →
  channels (declare N E dev r []).2 = []
  ∧ pushed (Run.imus N (Run.now t) (Run.bridge t)) ⊆ pushed (Run.sources N dev t)
  ∧ [Run.ACCELEROMETERS_NAME N +:+ Run.TREE_DELIM N +:+ sensorName;
     Run.GYROS_NAME N +:+ Run.TREE_DELIM N +:+ sensorName;
     Run.ORIENTATIONS_NAME N +:+ Run.TREE_DELIM N +:+ sensorName]
    ⊆ pushed (Run.imus N (Run.now t) (Run.bridge t)).
Proof.
  intros (HJ & HM & HW & HP & HF & HT & HI & HC & HS) Hsensor Hmeasure. split_and!.
  - unfold declare, telemetry, exogenous. cbn [vector_signals snd].
    now rewrite HJ, HM, HW, HP, HF, HT, HI, HC, HS.
  - unfold Run.sources, Run.exogenous. rewrite HJ, HM, HW, HP, HF, HT, HI, HC, HS.
    cbn [Run.when Run.for_all map concat app]. rewrite app_nil_r. reflexivity.
  - unfold Run.imus, Run.for_all.
    apply list_elem_of_split in Hsensor as (before & after & ->).
    rewrite map_app, concat_app, pushed_app. cbn [map concat]. rewrite pushed_app, Hmeasure.
    cbn [Run.on_success]. destruct (Run.unpackIMU measure) as [[acc gyro] orientation].
    intros n Hn. rewrite !elem_of_app. right. left. exact Hn.
Qed.

(** X25. A vector signal is declared when its first data arrive, and never
    again: [dataArrived] is then set, so that going through the loop over
    [m_vectorSignals] a second time, whatever the ports then give to the
    signals that had data, declares no channel for them; and the loop
    changes [dataArrived] only, from false to true. *)
Theorem vector_signals_declared_once (read read' : string → option (list float))
    (m_vectorSignals : list (string * VectorSignal.t)) :
  let after := (vector_signals N read m_vectorSignals).1 in
  after.*1 = m_vectorSignals.*1
  ∧ Forall2 (λ old new,
       VectorSignal.signalName new.2 = VectorSignal.signalName old.2
       ∧ VectorSignal.connected new.2 = VectorSignal.connected old.2
       ∧ VectorSignal.dataArrived new.2
         = VectorSignal.dataArrived old.2 || bool_decide (is_Some (read old.1)))
       m_vectorSignals after
  ∧ ((∀ name, is_Some (read' name) → is_Some (read name)) →
     (vector_signals N read' after).2 = []).
Proof.
  cbn zeta. induction m_vectorSignals as [| [name signal] rest IH]; [cbn; auto |].
  cbn [vector_signals]. destruct IH as (IH1 & IH2 & IH3).
  destruct (vector_signals N read rest) as [rest' evs]. cbn [fst snd] in *.
  assert (Hcase : ∃ signal',
    (match read name with
     | Some vector =>
         if negb (VectorSignal.dataArrived signal)
         then
           ((name, {| VectorSignal.connected := VectorSignal.connected signal;
                      VectorSignal.signalName := VectorSignal.signalName signal;
                      VectorSignal.dataArrived := true |}) :: rest',
            [AddChannel (VectorSignal.signalName signal) (length vector) 1 None;
             PopulateMetadata
               (Run.ROBOT_RT_ROOT_NAME N +:+ Run.TREE_DELIM N
                +:+ VectorSignal.signalName signal) []] ++ evs)
         else ((name, signal) :: rest', evs)
     | None => ((name, signal) :: rest', evs)
     end).1 = (name, signal') :: rest'
    ∧ VectorSignal.signalName signal' = VectorSignal.signalName signal
    ∧ VectorSignal.connected signal' = VectorSignal.connected signal
    ∧ VectorSignal.dataArrived signal'
      = VectorSignal.dataArrived signal || bool_decide (is_Some (read name))).
  { destruct (read name) as [vector |] eqn:Hread.
    - destruct (VectorSignal.dataArrived signal) eqn:Harrived; cbn [negb fst].
      + exists signal. now rewrite Harrived.
      + eexists. split; [reflexivity |]. cbn. rewrite ?bool_decide_eq_true_2 by eauto. auto.
    - exists signal. cbn [fst]. rewrite bool_decide_eq_false_2 by (intros [? [=]]).
      now rewrite orb_false_r. }
  destruct Hcase as (signal' & -> & Hname & Hconnected & Harrived).
  split_and!.
  - cbn. now rewrite IH1.
  - constructor; [cbn; auto | exact IH2].
  - intros Hless. specialize (IH3 Hless). cbn [vector_signals].
    destruct (vector_signals N read' rest') as [rest'' evs']. cbn [snd] in IH3. subst evs'.
    destruct (read' name) as [vector' |] eqn:Hread'; [| reflexivity].
    destruct (Hless name ltac:(eauto)) as [vector Hread].
    rewrite Harrived, Hread, bool_decide_eq_true_2, orb_true_r by eauto. reflexivity.
Qed.

End AttachFacts.

Section AttachExamples.

Import Attach.

Lemma run_appends_to_declared_channels_witness :
  let signal := {| VectorsCollectionSignal.connected := true;
                   VectorsCollectionSignal.signalName := "walking";
                   VectorsCollectionSignal.metadata := {[ "com"%string := ["x"; "y"; "z"]%string ]} |} in
  let dev :=
    {| Run.m_streamJointStates := true; Run.m_streamMotorStates := false;
       Run.m_streamMotorPWM := false; Run.m_streamPIDs := false;
       Run.m_streamFTSensors := false; Run.m_streamTemperatureSensors := false;
       Run.m_streamInertials := true; Run.m_streamCartesianWrenches := false;
       Run.m_vectorsCollectionSignals := [("/walking/logger"%string, signal)] |} in
  let vectors := Some [("com"%string, [0.5%float; 0%float; 0.6%float])] in
  let r := {| bridge := imu_bridge "head" []; joints := ["neck_pitch"%string];
              readData := λ _, vectors; read := λ _, None |} in
  let t := {| Run.now := 1.5%float;
              Run.bridge := imu_bridge "head" [0%float; 0%float; 0%float; 0%float; 0%float;
                                               9.8%float; 0%float; 0%float; 0%float];
              Run.readData := λ _, vectors; Run.pending := [] |} in
  pushed (Run.sources Run.sample_names dev t)
  = ["accelerometers::head"; "gyros::head"; "orientations::head"; "walking::com"]%string
  ∧ ∀ n, n ∈ pushed (Run.sources Run.sample_names dev t) →
         n ∈ channels (declare Run.sample_names sample_elements dev r []).2.
Proof.
  intros signal dev vectors r t. split; [reflexivity |].
  apply (run_appends_to_declared_channels Run.sample_names sample_elements dev r [] t).
  - unfold same_sensors. split_and!; reflexivity.
  - left. reflexivity.
  - intros name signal' _. reflexivity.
Defined.

Lemma imu_samples_without_channel_witness :
  let dev :=
    {| Run.m_streamJointStates := false; Run.m_streamMotorStates := false;
       Run.m_streamMotorPWM := false; Run.m_streamPIDs := false;
       Run.m_streamFTSensors := false; Run.m_streamTemperatureSensors := false;
       Run.m_streamInertials := false; Run.m_streamCartesianWrenches := false;
       Run.m_vectorsCollectionSignals := [] |} in
  let measure := [0%float; 0%float; 0%float; 0%float; 0%float; 9.8%float;
                  0%float; 0%float; 0%float] in
  let r := {| bridge := imu_bridge "head" measure; joints := ["neck_pitch"%string];
              readData := λ _, None; read := λ _, None |} in
  let t := {| Run.now := 1.5%float; Run.bridge := imu_bridge "head" measure;
              Run.readData := λ _, None; Run.pending := [] |} in
  channels (declare Run.sample_names sample_elements dev r []).2 = []
  ∧ pushed (Run.imus Run.sample_names (Run.now t) (Run.bridge t))
    ⊆ pushed (Run.sources Run.sample_names dev t)
  ∧ [Run.ACCELEROMETERS_NAME Run.sample_names +:+ Run.TREE_DELIM Run.sample_names +:+ "head";
     Run.GYROS_NAME Run.sample_names +:+ Run.TREE_DELIM Run.sample_names +:+ "head";
     Run.ORIENTATIONS_NAME Run.sample_names +:+ Run.TREE_DELIM Run.sample_names +:+ "head"]
    ⊆ pushed (Run.imus Run.sample_names (Run.now t) (Run.bridge t)).
Proof.
  intros dev measure r t.
  apply (imu_samples_without_channel Run.sample_names sample_elements dev r t "head" measure).
  - unfold streams_nothing. split_and!; reflexivity.
  - left.
  - reflexivity.
Defined.

End AttachExamples.
